(** * calmmap: segment graph construction and route discovery

    A shallow embedding of [main.go] of danp/calmmap: the segment store
    (two SQL tables and one index), the adjacency builder of
    [loadSegments], the path finder [route], and the three-stage
    discovery pipeline, followed by the properties established about
    them. *)

From Stdlib Require Import ZArith String Ascii List Lia Sorted.
From Stdlib Require Import Floats.PrimFloat.
From stdpp Require Import gmap strings list fin_maps pretty.

Open Scope string_scope.
Open Scope list_scope.
Open Scope Z_scope.

(** ** Data model *)

(** [orb.Point] is [[2]float64]. *)
Definition Point : Type := (float * float)%type.

Definition zeroPoint : Point := (0%float, 0%float).

(** [type segment struct]; the fields carry a [seg_] prefix because
    [request] declares [from], [to] and [streetName] as well. *)
Record segment := mkSegment {
  seg_id : Z;
  seg_name : string;
  seg_from : string;
  seg_to : string;
  seg_direction : string;
  seg_routeID : Z;
  seg_lineString : list Point;
  seg_firstPoint : Point;
  seg_lastPoint : Point;
  seg_streetName : string;
  seg_streetType : string;
  seg_streetClass : string
}.

(** The zero value of [segment], what a Go map returns for a missing key. *)
Definition zeroSegment : segment :=
  mkSegment 0 "" "" "" "" 0 [] zeroPoint zeroPoint "" "" "".

#[global] Instance segment_inhabited : Inhabited segment := populate zeroSegment.

(** [type request struct]. *)
Record request := mkRequest {
  req_streetName : string;
  req_from : string;
  req_to : string;
  req_district : string;
  req_rank : Z
}.

(** A row of the table [segment_links (id, route_id, next_id)]. *)
Record link := mkLink {
  link_id : Z;
  link_route_id : Z;
  link_next_id : Z
}.

(** The errors the code builds with [fmt.Errorf], and those of its
    collaborators that the code passes on. *)
Inductive error :=
| ErrEmptyFromTo                         (* "empty fromSegments or empty toSegments" *)
| ErrToNotInGraph (id : Z)               (* "to segment %d not found in route graph" *)
| ErrCouldNotFindPath                    (* "could not find path" *)
| ErrRouteIDs (n : nat)                  (* "discovered segments with %d different route IDs" *)
| ErrNoStartSegments                     (* "no start segments found" *)
| ErrNoEndSegments                       (* "no end segments found" *)
| ErrUnknownDirectionPair (cur next : segment) (* "unknown direction pair: ..." *)
| ErrMarshal (id : Z)                    (* json: unsupported value *)
| ErrPrimaryKey (id : Z)                 (* UNIQUE constraint failed: segments.id *)
| ErrIndexExists                         (* index segment_links_id already exists *)
| ErrOpen                                (* os.Open failed, the file exists *)
| ErrAtoi (s : string)                   (* strconv.Atoi: parsing ...: invalid syntax *)
| ErrScan.                               (* bufio.Scanner error *)

(** What a call ends in: a value, a returned error, a run-time panic
    (index out of range), or exhaustion of the fuel that bounds the
    search loop of [route] (shown below never to happen). *)
Inductive result (A : Type) :=
| Ok (a : A)
| Err (e : error)
| Panic
| OutOfFuel.
Arguments Ok {A} a.
Arguments Err {A} e.
Arguments Panic {A}.
Arguments OutOfFuel {A}.

(** ** Strings *)

(** SQLite's [upper()]: the ASCII letters only. *)
Definition upperAscii (c : ascii) : ascii :=
  let n := nat_of_ascii c in
  if ((97 <=? n) && (n <=? 122))%nat then ascii_of_nat (n - 32) else c.

Fixpoint upper (s : string) : string :=
  match s with
  | EmptyString => EmptyString
  | String c s' => String (upperAscii c) (upper s')
  end.

(** [strings.ReplaceAll(s, "'", "")]. *)
Fixpoint stripQuotes (s : string) : string :=
  match s with
  | EmptyString => EmptyString
  | String c s' =>
      if Ascii.eqb c "'"%char then stripQuotes s' else String c (stripQuotes s')
  end.

(** [func contains(x []int, y int) bool]. *)
Fixpoint contains (x : list Z) (y : Z) : bool :=
  match x with
  | [] => false
  | z :: x' => if z =? y then true else contains x' y
  end.

(** ** The segment store *)

(** The database: the rows of [segments] in the order in which SQLite
    keeps and scans the table, ascending in the integer primary key
    [id]; the rows of [segment_links], a table without a key of its
    own, in the order they were inserted; and whether the index
    [segment_links_id] exists. *)
Record store := mkStore {
  segments : list segment;
  segment_links : list link;
  segment_links_id : bool
}.

Definition emptyStore : store := mkStore [] [] false.

(** [id integer primary key]: no two rows of [segments] share an id. *)
Definition store_wf (st : store) : Prop := NoDup (seg_id <$> segments st).

(** [type segmentFilter struct]. *)
Record segmentFilter := mkFilter {
  ids : list Z;
  fullNames : list string;
  routeIDs : list Z;
  endStreets : list string
}.

(** One dimension of the [where] clause: absent when the slice is empty,
    else the disjunction of its tests. *)
Definition dimension {A} (xs : list A) (test : A -> bool) : bool :=
  match xs with
  | [] => true
  | _ => existsb test xs
  end.

(** The [where] clause [filterSegments] assembles, on one row. *)
Definition filterWhere (filter : segmentFilter) (seg : segment) : bool :=
  dimension (ids filter) (fun id => seg_id seg =? id)
  && dimension (fullNames filter) (fun fn => String.eqb (seg_name seg) (upper fn))
  && dimension (routeIDs filter) (fun id => seg_routeID seg =? id)
  && dimension (endStreets filter)
       (fun es => String.eqb (upper es) (seg_from seg) || String.eqb (upper es) (seg_to seg)).

(** [func (s sqliteStore) filterSegments(filter segmentFilter)]. *)
Definition filterSegments (st : store) (filter : segmentFilter) : list segment :=
  List.filter (filterWhere filter) (segments st).

(** ** Adjacency builder *)

Section AdjacencyBuilder.

(** [geo.Distance], the geodesic distance of the geometry library. *)
Variable Distance : Point -> Point -> float.

(** [isClose := func(a, b orb.Point) bool]. *)
Definition isClose (a b : Point) : bool := (Distance a b <? 1.0)%float.

(** The [switch cur.direction + " " + next.direction] of [matches]:
    [Some b] when a case is taken ([b]: the segment is appended),
    [None] for [default]. *)
Definition directionSwitch (cur next : segment) : option bool :=
  let key := (seg_direction cur ++ " " ++ seg_direction next)%string in
  if String.eqb key "BOTH BOTH" then
    Some (isClose (seg_firstPoint cur) (seg_firstPoint next)
          || isClose (seg_firstPoint cur) (seg_lastPoint next)
          || isClose (seg_lastPoint cur) (seg_firstPoint next)
          || isClose (seg_lastPoint cur) (seg_lastPoint next))
  else if String.eqb key "BOTH FOTD" then
    Some (isClose (seg_firstPoint next) (seg_firstPoint cur)
          || isClose (seg_firstPoint next) (seg_lastPoint cur))
  else if String.eqb key "BOTH FDTO" then Some false
  else if String.eqb key "FOTD FOTD" then
    Some (isClose (seg_firstPoint next) (seg_lastPoint cur))
  else if String.eqb key "FOTD BOTH" then
    Some (isClose (seg_lastPoint cur) (seg_firstPoint next)
          || isClose (seg_lastPoint cur) (seg_lastPoint next))
  else if String.eqb key "FDTO BOTH" then Some false
  else None.

(** The loop of [matches], [out] being the slice built so far. *)
Fixpoint matchesLoop (cur : segment) (segs out : list segment) : result (list segment) :=
  match segs with
  | [] => Ok out
  | next :: segs' =>
      if seg_id cur =? seg_id next then matchesLoop cur segs' out
      else match directionSwitch cur next with
           | Some true => matchesLoop cur segs' (out ++ [next])
           | Some false => matchesLoop cur segs' out
           | None => Err (ErrUnknownDirectionPair cur next)
           end
  end.

(** [matches := func(segs []segment, cur segment) ([]segment, error)]. *)
Definition matches (segs : list segment) (cur : segment) : result (list segment) :=
  matchesLoop cur segs [].

(** The rows one [seg] of a route contributes:
    [insert into segment_links (id, route_id, next_id)]. *)
Definition linkRows (seg : segment) (nextSegs : list segment) : list link :=
  (fun next => mkLink (seg_id seg) (seg_routeID seg) (seg_id next)) <$> nextSegs.

(** [for _, seg := range routeSegs], the rows added to [rows]. *)
Fixpoint routeLinkRows (routeSegs todo : list segment) (rows : list link) : result (list link) :=
  match todo with
  | [] => Ok rows
  | seg :: todo' =>
      match matches routeSegs seg with
      | Ok nextSegs => routeLinkRows routeSegs todo' (rows ++ linkRows seg nextSegs)
      | Err e => Err e
      | Panic => Panic
      | OutOfFuel => OutOfFuel
      end
  end.


(** Go leaves the order of [for ... range] over a map open:
    [rangeOrder] is the order in which the entries are visited. *)
Variable rangeOrder : list (Z * list segment) -> list (Z * list segment).

(** [json.Marshal] refuses NaN and the infinities. *)
Definition marshalPoint (p : Point) : bool := is_finite p.1 && is_finite p.2.

Definition marshalSegment (seg : segment) : bool :=
  forallb marshalPoint (seg_lineString seg)
  && marshalPoint (seg_firstPoint seg)
  && marshalPoint (seg_lastPoint seg).

(** [insert into segments]: [id] is the integer primary key of the
    table, in whose order SQLite keeps and scans the rows; the new row
    goes before the first row with a greater id. *)
Fixpoint insertRow (seg : segment) (tbl : list segment) : list segment :=
  match tbl with
  | [] => [seg]
  | row :: tbl' =>
      if seg_id seg <? seg_id row then seg :: tbl else row :: insertRow seg tbl'
  end.

(** The first loop of [loadSegments], inside the first transaction:
    [tbl] is the table [segments] as the transaction sees it. *)
Fixpoint insertSegments (todo : list segment) (routeSegments : gmap Z (list segment))
    (tbl : list segment) : result (gmap Z (list segment) * list segment) :=
  match todo with
  | [] => Ok (routeSegments, tbl)
  | seg :: todo' =>
      let routeSegments :=
        <[seg_routeID seg := (routeSegments !!! seg_routeID seg) ++ [seg]]> routeSegments in
      if negb (marshalSegment seg) then Err (ErrMarshal (seg_id seg))
      else if contains (seg_id <$> tbl) (seg_id seg) then Err (ErrPrimaryKey (seg_id seg))
      else insertSegments todo' routeSegments (insertRow seg tbl)
  end.

(** [for _, routeSegs := range routeSegments], inside the second
    transaction: [rows] is the table [segment_links] as it sees it. *)
Fixpoint insertLinks (routes : list (Z * list segment)) (rows : list link) : result (list link) :=
  match routes with
  | [] => Ok rows
  | (_, routeSegs) :: routes' =>
      match routeLinkRows routeSegs routeSegs rows with
      | Ok rows' => insertLinks routes' rows'
      | Err e => Err e
      | Panic => Panic
      | OutOfFuel => OutOfFuel
      end
  end.

(** [func (s sqliteStore) loadSegments(segments []segment) error]: the
    store the call leaves behind, and what it returns. A transaction
    works on its own copy of a table; [tx.Commit()] publishes the copy,
    a return before it (the deferred [tx.Rollback()]) drops it. *)
Definition loadSegments (st : store) (segs : list segment) : store * result unit :=
  match insertSegments segs ∅ (segments st) with
  | Err e => (st, Err e)
  | Panic => (st, Panic)
  | OutOfFuel => (st, OutOfFuel)
  | Ok (routeSegments, tbl) =>
      let st1 := mkStore tbl (segment_links st) (segment_links_id st) in
      match insertLinks (rangeOrder (map_to_list routeSegments)) (segment_links st1) with
      | Err e => (st1, Err e)
      | Panic => (st1, Panic)
      | OutOfFuel => (st1, OutOfFuel)
      | Ok rows =>
          let st2 := mkStore (segments st1) rows (segment_links_id st1) in
          if segment_links_id st2 then (st2, Err ErrIndexExists)
          else (mkStore (segments st2) (segment_links st2) true, Ok tt)
      end
  end.

End AdjacencyBuilder.

(** ** Path finder *)

(** [select route_id from segments where id=?], a scalar subquery. *)
Definition routeIDOf (st : store) (id : Z) : option Z :=
  seg_routeID <$> List.find (fun seg => seg_id seg =? id) (segments st).

(** [select id, next_id from segment_links where route_id=(...)]. *)
Definition queryLinks (st : store) (fromID : Z) : list (Z * Z) :=
  match routeIDOf st fromID with
  | None => []
  | Some rid =>
      (fun l => (link_id l, link_next_id l))
        <$> List.filter (fun l => link_route_id l =? rid) (segment_links st)
  end.

(** The body of [for rows.Next()]: [graph[id] = append(graph[id], nextID)],
    and [nextID] becomes a key when it is none yet. *)
Definition addRow (graph : gmap Z (list Z)) (row : Z * Z) : gmap Z (list Z) :=
  let graph := <[row.1 := (graph !!! row.1) ++ [row.2]]> graph in
  match graph !! row.2 with
  | Some _ => graph
  | None => <[row.2 := []]> graph
  end.

(** [graph := map[int][]int{fromSegments[0].id: nil}], then the rows. *)
Definition buildGraph (fromID : Z) (rows : list (Z * Z)) : gmap Z (list Z) :=
  fold_left addRow rows {[fromID := []]}.

(** [for _, seg := range toSegments { if _, ok := graph[seg.id]; !ok ...]:
    the error of the first [to] segment that is no key of the graph. *)
Fixpoint checkTo (graph : gmap Z (list Z)) (toSegments : list segment) : option error :=
  match toSegments with
  | [] => None
  | seg :: toSegments' =>
      match graph !! seg_id seg with
      | Some _ => checkTo graph toSegments'
      | None => Some (ErrToNotInGraph (seg_id seg))
      end
  end.

(** The inner loop of the search: the paths [p] is extended to. *)
Definition extend (graph : gmap Z (list Z)) (p : list Z) (lid : Z) : list (list Z) :=
  (fun nid => p ++ [nid]) <$> List.filter (fun nid => negb (contains p nid)) (graph !!! lid).

(** [for len(q) > 0]: [Ok (Some p)] is [path = p; break], [Ok None] the
    loop's end with [path == nil]. The loop runs at most [fuel] times. *)
Fixpoint bfs (fuel : nat) (graph : gmap Z (list Z)) (toIDs : list Z) (q : list (list Z))
    : result (option (list Z)) :=
  match q with
  | [] => Ok None
  | p :: q' =>
      match fuel with
      | O => OutOfFuel
      | S fuel' =>
          match last p with
          | None => Panic
          | Some lid =>
              if contains toIDs lid then Ok (Some p)
              else bfs fuel' graph toIDs (q' ++ extend graph p lid)
          end
      end
  end.

(** A bound on the number of rounds of the search: with [n] keys in the
    graph and [r] rows, no more than [(r+1)^n]. *)
Definition bfsFuel (graph : gmap Z (list Z)) (rows : list (Z * Z)) : nat :=
  (S (length rows) ^ size graph)%nat.

(** [segsByID := make(map[int]segment)] filled from [segs]. *)
Definition bySegmentID (segs : list segment) : gmap Z segment :=
  fold_left (fun m seg => <[seg_id seg := seg]> m) segs ∅.

(** [for i, id := range path { segs[i] = segsByID[id] }]. *)
Fixpoint reorder (segsByID : gmap Z segment) (i : nat) (path : list Z) (segs : list segment)
    : result (list segment) :=
  match path with
  | [] => Ok segs
  | id :: path' =>
      if (i <? length segs)%nat
      then reorder segsByID (S i) path' (<[i := segsByID !!! id]> segs)
      else Panic
  end.

(** [func (s sqliteStore) route(fromSegments, toSegments []segment)]. *)
Definition route (st : store) (fromSegments toSegments : list segment) : result (list segment) :=
  match fromSegments, toSegments with
  | [], _ | _, [] => Err ErrEmptyFromTo
  | from0 :: _, _ :: _ =>
      let rows := queryLinks st (seg_id from0) in
      let graph := buildGraph (seg_id from0) rows in
      match checkTo graph toSegments with
      | Some e => Err e
      | None =>
          let toIDs := seg_id <$> toSegments in
          match bfs (bfsFuel graph rows) graph toIDs [[seg_id from0]] with
          | Ok (Some path) =>
              let segs := filterSegments st (mkFilter path [] [] []) in
              reorder (bySegmentID segs) 0 path segs
          | Ok None => Err ErrCouldNotFindPath
          | Err e => Err e
          | Panic => Panic
          | OutOfFuel => OutOfFuel
          end
      end
  end.

(** ** Discovery pipeline *)

(** [type processingRequest struct]. *)
Record processingRequest := mkProcessing {
  req : request;
  startSegments : list segment;
  endSegments : list segment
}.

(** [type requestAttempt struct]; [None] is the [nil] error. *)
Record requestAttempt := mkAttempt {
  att_startSegments : list segment;
  att_startErr : option error;
  att_endSegments : list segment;
  att_endErr : option error;
  att_routeSegments : list segment;
  att_routeErr : option error
}.

(** [type requestResult struct]. *)
Record requestResult := mkRequestResult {
  res_startSegments : list segment;
  res_endSegments : list segment;
  res_routeSegments : list segment
}.

(** A discovery stage, [func(processingRequest) ([]segment, error)]. *)
Definition stage : Type := processingRequest -> result (list segment).

(** [type requestHandler struct]. *)
Record requestHandler := mkHandler {
  handler_req : request;
  startHandler : stage;
  endHandler : stage;
  routeHandler : stage
}.

(** A call of a stage, [segs, err = handler(preq)], and what follows it:
    every stage returns [nil] segments together with an error; a panic
    ends the pipeline. *)
Definition callStage {A} (r : result (list segment))
    (rest : list segment -> option error -> result A) : result A :=
  match r with
  | Ok segs => rest segs None
  | Err e => rest [] (Some e)
  | Panic => Panic
  | OutOfFuel => OutOfFuel
  end.

(** [func (s requestHandler) handleAttempt() requestAttempt]. *)
Definition handleAttempt (s : requestHandler) : result requestAttempt :=
  let preq := mkProcessing (handler_req s) [] [] in
  callStage (startHandler s preq) (fun startSegs startErr =>
  if (length startSegs =? 0)%nat then
    Ok (mkAttempt startSegs (Some ErrNoStartSegments)
          [] (Some ErrNoStartSegments) [] (Some ErrNoStartSegments))
  else
  let preq := mkProcessing (req preq) startSegs [] in
  callStage (endHandler s preq) (fun endSegs endErr =>
  if (length endSegs =? 0)%nat then
    Ok (mkAttempt startSegs startErr
          endSegs (Some ErrNoEndSegments) [] (Some ErrNoEndSegments))
  else
  let preq := mkProcessing (req preq) startSegs endSegs in
  callStage (routeHandler s preq) (fun routeSegs routeErr =>
  Ok (mkAttempt startSegs startErr endSegs endErr routeSegs routeErr)))).

(** [for _, err := range []error{...} { if err != nil { return ..., err } }]. *)
Fixpoint firstError (errs : list (option error)) : option error :=
  match errs with
  | [] => None
  | Some e :: _ => Some e
  | None :: errs' => firstError errs'
  end.

(** [func (s requestHandler) handle() (requestResult, error)]. *)
Definition handle (s : requestHandler) : result requestResult :=
  match handleAttempt s with
  | Ok att =>
      match firstError [att_startErr att; att_endErr att; att_routeErr att] with
      | Some e => Err e
      | None =>
          Ok (mkRequestResult (att_startSegments att) (att_endSegments att)
                (att_routeSegments att))
      end
  | Err e => Err e
  | Panic => Panic
  | OutOfFuel => OutOfFuel
  end.

(** The [filter] start discovery builds from the request. *)
Definition startFilter (r : request) : segmentFilter :=
  mkFilter [] [stripQuotes (req_streetName r)] []
    (if String.eqb (req_from r) "" then [] else [stripQuotes (req_from r)]).

(** [func startDiscovery(st store)]; [routeIDs] is the key set of the
    map [map[int]bool]. *)
Definition startDiscovery (st : store) : stage := fun preq =>
  let segs := filterSegments st (startFilter (req preq)) in
  let routeIDs : gset Z :=
    fold_left (fun ids seg => {[seg_routeID seg]} ∪ ids) segs ∅ in
  if (1 <? size routeIDs)%nat then Err (ErrRouteIDs (size routeIDs))
  else Ok segs.

(** [func endDiscovery(st store)]. *)
Definition endDiscovery (st : store) : stage := fun preq =>
  match startSegments preq with
  | [] => Panic
  | start0 :: _ =>
      Ok (filterSegments st
            (mkFilter [] [] [seg_routeID start0]
               (if String.eqb (req_to (req preq)) "" then []
                else [stripQuotes (req_to (req preq))])))
  end.

(** [startIDs := make([]int, len(preq.startSegments))] followed by one
    [append] for each start segment. *)
Definition startIDsOf (startSegs : list segment) : list Z :=
  replicate (length startSegs) 0 ++ (seg_id <$> startSegs).

(** [for len(route) > 2 && contains(startIDs, route[1].id) { route = route[1:] }]. *)
Fixpoint trimStart (startIDs : list Z) (route : list segment) : list segment :=
  match route with
  | _ :: ((second :: _ :: _) as route') =>
      if contains startIDs (seg_id second) then trimStart startIDs route' else route
  | _ => route
  end.

(** [for _, end := range preq.endSegments]: each round searches from
    [route[0]] and keeps in [path] the longest route seen. *)
Fixpoint longestRoute (st : store) (route1 : list segment) (ends : list segment)
    (path : list segment) : result (list segment) :=
  match ends with
  | [] => Ok path
  | e :: ends' =>
      match route1 with
      | [] => Panic
      | route0 :: _ =>
          match route st [route0] [e] with
          | Ok c =>
              longestRoute st route1 ends'
                (if (length path <? length c)%nat then c else path)
          | other => other
          end
      end
  end.

(** [func routeDiscovery(st store)]. *)
Definition routeDiscovery (st : store) : stage := fun preq =>
  let r := req preq in
  if String.eqb (req_from r) "" && String.eqb (req_to r) "" then
    match startSegments preq with
    | [] => Panic
    | start0 :: _ => Ok (filterSegments st (mkFilter [] [] [seg_routeID start0] []))
    end
  else
    match route st (startSegments preq) (endSegments preq) with
    | Ok route1 =>
        let route2 :=
          if negb (String.eqb (req_from r) "")
          then trimStart (startIDsOf (startSegments preq)) route1
          else route1 in
        if String.eqb (req_to r) "" || String.eqb (req_to r) (req_from r) then
          longestRoute st route2 (endSegments preq) route2
        else Ok route2
    | other => other
    end.

Section Overrides.

(** What [os.Open("overrides/<rank>.<when>")] and the scanner give:
    no such file, another failure, or the lines read and whether the
    scanner stopped on an error. *)
Inductive overrideFile :=
| NotExist
| OpenFailed
| Lines (lines : list string) (scanFailed : bool).

(** The override files, by request rank and stage name. *)
Variable overrides : Z -> string -> overrideFile.

(** [strconv.Atoi]. *)
Variable Atoi : string -> option Z.

(** [for sc.Scan() { id, err := strconv.Atoi(sc.Text()) ... }]. *)
Fixpoint scanIDs (lines : list string) (ids : list Z) : result (list Z) :=
  match lines with
  | [] => Ok ids
  | line :: lines' =>
      match Atoi line with
      | None => Err (ErrAtoi line)
      | Some id => scanIDs lines' (ids ++ [id])
      end
  end.

(** [func overrideDiscovery(when string, st store, next ...)]. *)
Definition overrideDiscovery (when : string) (st : store) (next : stage) : stage := fun preq =>
  match overrides (req_rank (req preq)) when with
  | NotExist => next preq
  | OpenFailed => Err ErrOpen
  | Lines lines scanFailed =>
      match scanIDs lines [] with
      | Ok ids =>
          if scanFailed then Err ErrScan
          else Ok (filterSegments st (mkFilter ids [] [] []))
      | Err e => Err e
      | Panic => Panic
      | OutOfFuel => OutOfFuel
      end
  end.

(** [func newDefaultRequestHandler(st store, req request) requestHandler]. *)
Definition newDefaultRequestHandler (st : store) (r : request) : requestHandler :=
  mkHandler r
    (overrideDiscovery "start" st (startDiscovery st))
    (overrideDiscovery "end" st (endDiscovery st))
    (overrideDiscovery "route" st (routeDiscovery st)).

End Overrides.

(** ** Test fixtures

    The segments of [TestRouteDiscovery] and [TestStartDiscoveryError],
    and a stand-in for [geo.Distance] that tells as it does which of
    their endpoints are close: the segments of the tests meet at equal
    points or lie a whole degree apart. *)

Definition planarDistance (a b : Point) : float :=
  (abs (a.1 - b.1) + abs (a.2 - b.2))%float.

(** The order in which the fixtures visit the routes of a load. *)
Definition inOrder (routes : list (Z * list segment)) : list (Z * list segment) := routes.

Definition testSegment (id : Z) (from to : string) (routeID : Z) (dir : string)
    (first last : Point) : segment :=
  mkSegment id "TEST LN" from to dir routeID [] first last "" "" "".

Definition s1 := testSegment 1 "A ST" "B ST" 1 "BOTH" zeroPoint (0, 1)%float.
Definition s2 := testSegment 2 "B ST" "C ST" 1 "BOTH" (0, 1)%float (0, 2)%float.
Definition s3 := testSegment 3 "C ST" "D ST" 1 "BOTH" (0, 2)%float (0, 3)%float.
Definition s4 := testSegment 4 "D ST" "E ST" 1 "BOTH" (0, 3)%float (0, 4)%float.
Definition s5 := testSegment 5 "E ST" "F ST" 1 "BOTH" (0, 4)%float (0, 5)%float.
Definition irr :=
  mkSegment 10 "IRRELEVANT PL" "A ST" "B ST" "BOTH" 2 [] zeroPoint zeroPoint "" "" "".

(** [a1], [a2] of [TestStartDiscoveryError]: one name, two routes. *)
Definition a1 := testSegment 1 "A ST" "B ST" 1 "BOTH" zeroPoint zeroPoint.
Definition a2 := testSegment 2 "A ST" "B ST" 2 "BOTH" zeroPoint zeroPoint.

(** A chain of three segments the middle one of which has id 0. *)
Definition z5 := testSegment 5 "A ST" "B ST" 1 "BOTH" zeroPoint (0, 1)%float.
Definition z0 := testSegment 0 "B ST" "C ST" 1 "BOTH" (0, 1)%float (0, 2)%float.
Definition z7 := testSegment 7 "C ST" "D ST" 1 "BOTH" (0, 2)%float (0, 3)%float.

(** Two one-way segments of one route, both "last to first": a pairing
    the switch of [matches] does not list. *)
Definition u1 := testSegment 1 "A ST" "B ST" 1 "FDTO" zeroPoint (0, 1)%float.
Definition u2 := testSegment 2 "B ST" "C ST" 1 "FDTO" (0, 1)%float (0, 2)%float.

(** The store a test builds: [st.init()], then [st.loadSegments(tc.in)]. *)
Definition loaded (segs : list segment) : store :=
  (loadSegments planarDistance inOrder emptyStore segs).1.

Definition testRequest (from to : string) (rank : Z) : request :=
  mkRequest "Test Ln" from to "" rank.

(** No override file exists. *)
Definition noOverrides (rank : Z) (when : string) : overrideFile := NotExist.

(** One override file, [overrides/1.start], holding the line "2". *)
Definition startOverride1 (rank : Z) (when : string) : overrideFile :=
  if (rank =? 1) && String.eqb when "start" then Lines ["2"] false else NotExist.

(** A stand-in for [strconv.Atoi] on the one-digit lines of the
    override files used below. *)
Definition digitAtoi (s : string) : option Z :=
  match s with
  | String c EmptyString =>
      let n := nat_of_ascii c in
      if ((48 <=? n) && (n <=? 57))%nat then Some (Z.of_nat (n - 48)) else None
  | _ => None
  end.

(** ** The adjacency of one route *)

(** [func (s sqliteStore) routeLinks(routeID int) (map[int][]int, error)]. *)
Definition routeLinks (st : store) (routeID : Z) : gmap Z (list Z) :=
  fold_left (fun links row => <[row.1 := (links !!! row.1) ++ [row.2]]> links)
    ((fun l => (link_id l, link_next_id l))
       <$> List.filter (fun l => link_route_id l =? routeID) (segment_links st))
    ∅.

(** ** The table of requests *)

(** A row of [requests (street_name, start, end, district, rank)];
    [None] is SQL's [NULL]. *)
Record requestRow := mkRequestRow {
  row_street_name : string;
  row_start : option string;
  row_end : option string;
  row_district : string;
  row_rank : Z
}.

(** The [sql.NullString] that [loadRequests] binds: valid when the
    string is not empty. *)
Definition nullString (s : string) : option string :=
  if String.eqb s "" then None else Some s.

(** [insert into requests (street_name, start, end, district, rank)]. *)
Definition requestInsert (r : request) : requestRow :=
  mkRequestRow (req_streetName r) (nullString (req_from r)) (nullString (req_to r))
    (req_district r) (req_rank r).

(** [func (s sqliteStore) loadRequests(reqs []request) error]: the
    table after the transaction. *)
Definition loadRequests (tbl : list requestRow) (reqs : list request) : list requestRow :=
  tbl ++ (requestInsert <$> reqs).

(** [rows.Scan(&req.streetName, &start, &end, &req.district, &req.rank)],
    then [req.from = start.String], [req.to = end.String]. *)
Definition requestScan (row : requestRow) : request :=
  mkRequest (row_street_name row) (default "" (row_start row)) (default "" (row_end row))
    (row_district row) (row_rank row).

Section Requests.

(** [order by rank]: the order in which the database returns the rows. *)
Variable orderByRank : list requestRow -> list requestRow.

(** [func (s sqliteStore) requests() ([]request, error)]. *)
Definition requests (tbl : list requestRow) : list request :=
  requestScan <$> orderByRank tbl.

End Requests.

(** ** Reading the requests file *)

(** [strings.ToLower] on the ASCII letters; no other character is
    mapped to one of the letters of "all" and "end". *)
Definition lowerAscii (c : ascii) : ascii :=
  let n := nat_of_ascii c in
  if ((65 <=? n) && (n <=? 90))%nat then ascii_of_nat (n + 32) else c.

Fixpoint toLower (s : string) : string :=
  match s with
  | EmptyString => EmptyString
  | String c s' => String (lowerAscii c) (toLower s')
  end.

(** [strings.Split(line, "\t")]. *)
Fixpoint splitTabs (line : string) : list string :=
  match line with
  | EmptyString => [EmptyString]
  | String c line' =>
      if Ascii.eqb c "009"%char then EmptyString :: splitTabs line'
      else match splitTabs line' with
           | field :: fields => String c field :: fields
           | [] => [String c EmptyString]
           end
  end.

Section RequestsFile.

(** [strconv.Atoi]. *)
Variable Atoi : string -> option Z.

(** The body of the loop of [loadTSVRequests] for one line after the
    header: an index beyond the fields panics. *)
Definition lineRequest (line : string) : result request :=
  let fields := splitTabs line in
  match fields !! 2%nat with
  | None => Panic
  | Some limitFrom =>
      let start :=
        if negb (String.eqb limitFrom "") && negb (String.eqb (toLower limitFrom) "all")
        then limitFrom else "" in
      match fields !! 3%nat with
      | None => Panic
      | Some limitTo =>
          let end_ :=
            if negb (String.eqb limitTo "") && negb (String.eqb (toLower limitTo) "end")
            then limitTo else "" in
          match fields !! 0%nat with
          | None => Panic
          | Some rankField =>
              match Atoi rankField with
              | None => Err (ErrAtoi rankField)
              | Some rank =>
                  match fields !! 1%nat, fields !! 4%nat with
                  | Some streetName, Some district =>
                      Ok (mkRequest streetName start end_ district rank)
                  | _, _ => Panic
                  end
              end
          end
      end
  end.

(** [for sc.Scan()] after the header line. *)
Fixpoint lineRequests (lines : list string) (reqs : list request) : result (list request) :=
  match lines with
  | [] => Ok reqs
  | line :: lines' =>
      match lineRequest line with
      | Ok r => lineRequests lines' (reqs ++ [r])
      | Err e => Err e
      | Panic => Panic
      | OutOfFuel => OutOfFuel
      end
  end.

(** [func loadTSVRequests(st *sqliteStore, requestReader io.Reader) error]
    on the lines the scanner returns; [scanFailed] says whether it
    stopped on an error. The first line is the header. *)
Definition loadTSVRequests (tbl : list requestRow) (lines : list string) (scanFailed : bool)
    : list requestRow * result unit :=
  match lineRequests (tail lines) [] with
  | Ok reqs =>
      if scanFailed then (tbl, Err ErrScan)
      else (loadRequests tbl reqs, Ok tt)
  | Err e => (tbl, Err e)
  | Panic => (tbl, Panic)
  | OutOfFuel => (tbl, OutOfFuel)
  end.

End RequestsFile.

(** ** Reading the centrelines file *)

(** [type placemark struct], decoded: the [SimpleData] elements, name
    and content, and the text of [coordinates]. *)
Record placemark := mkPlacemark {
  SimpleData : list (string * string);
  LineString : string
}.

(** [func (p placemark) data() map[string]string]. *)
Definition placemarkData (p : placemark) : gmap string string :=
  fold_left (fun out sd => <[sd.1 := sd.2]> out) (SimpleData p) ∅.

Section CentrelinesFile.

(** [strings.Fields]. *)
Variable Fields : string -> list string.

(** [fmt.Sscanf(lsf, "%f,%f", &pt[0], &pt[1])]. *)
Variable Sscanf : string -> option Point.

(** [strconv.Atoi]. *)
Variable Atoi : string -> option Z.

(** [geo.Distance], and the order of [range] over a map. *)
Variable Distance : Point -> Point -> float.
Variable rangeOrder : list (Z * list segment) -> list (Z * list segment).

(** [for _, lsf := range strings.Fields(...)], [ls] being the points
    read so far. *)
Fixpoint scanPoints (fields : list string) (ls : list Point) : result (list Point) :=
  match fields with
  | [] => Ok ls
  | lsf :: fields' =>
      match Sscanf lsf with
      | None => Err ErrScan
      | Some pt => scanPoints fields' (ls ++ [pt])
      end
  end.

(** The body of the loop of [loadKMLSegments]: the segment of one
    placemark. [ls[0]] panics on an empty line string. *)
Definition placemarkSegment (p : placemark) : result segment :=
  match scanPoints (Fields (LineString p)) [] with
  | Ok ls =>
      let data := placemarkData p in
      let field := fun key => default "" (data !! key) in
      match Atoi (field "FDMID") with
      | None => Err (ErrAtoi (field "FDMID"))
      | Some id =>
          match Atoi (field "ROUTE_ID") with
          | None => Err (ErrAtoi (field "ROUTE_ID"))
          | Some routeID =>
              match head ls, last ls with
              | Some firstPoint, Some lastPoint =>
                  Ok (mkSegment id (field "FULL_NAME") (field "FROM_STR") (field "TO_STR")
                        (field "STR_DIR") routeID ls firstPoint lastPoint
                        (field "STR_NAME") (field "STR_TYPE") (field "ST_CLASS"))
              | _, _ => Panic
              end
          end
      end
  | Err e => Err e
  | Panic => Panic
  | OutOfFuel => OutOfFuel
  end.

(** [for _, p := range d.Document.Folder.Placemark]. *)
Fixpoint placemarkSegments (ps : list placemark) (segs : list segment)
    : result (list segment) :=
  match ps with
  | [] => Ok segs
  | p :: ps' =>
      match placemarkSegment p with
      | Ok seg => placemarkSegments ps' (segs ++ [seg])
      | Err e => Err e
      | Panic => Panic
      | OutOfFuel => OutOfFuel
      end
  end.

(** [func loadKMLSegments(st *sqliteStore, kmlReader io.Reader) error]
    on the decoded placemarks. *)
Definition loadKMLSegments (st : store) (ps : list placemark) : store * result unit :=
  match placemarkSegments ps [] with
  | Ok segs => loadSegments Distance rangeOrder st segs
  | Err e => (st, Err e)
  | Panic => (st, Panic)
  | OutOfFuel => (st, OutOfFuel)
  end.

End CentrelinesFile.

(** ** Export *)

(** [strconv.Itoa]. *)
Definition Itoa (n : Z) : string := pretty n.

(** [func (r request) String() string]. *)
Definition requestString (r : request) : string :=
  (Itoa (req_rank r) ++ " " ++ req_streetName r ++ " "
   ++ (if String.eqb (req_from r) "" && String.eqb (req_to r) "" then "(all)"
       else "from " ++ req_from r
            ++ (if String.eqb (req_to r) "" then "" else " to " ++ req_to r)))%string.

(** [colors := grad.Colors(20)]: twenty colours. *)
Definition colorCount : Z := 20.

(** [colorGroup := req.rank / (len(reqs) / len(colors))], capped at
    the last colour; Go's [/] truncates, and panics on a zero divisor. *)
Definition colorGroup (rank : Z) (nreqs : nat) : result Z :=
  let perColor := Z.quot (Z.of_nat nreqs) colorCount in
  if perColor =? 0 then Panic
  else
    let group := Z.quot rank perColor in
    Ok (if colorCount <=? group then colorCount - 1 else group).

(** What [export] puts into a [kml.Placemark]: the name, the style
    URL and the line strings. *)
Record kmlPlacemark := mkKmlPlacemark {
  kml_Name : string;
  kml_StyleURL : string;
  kml_MultiGeometry : list (list Point)
}.

Section ExportFolder.

Variable overrides : Z -> string -> overrideFile.
Variable Atoi : string -> option Z.
Variable orderByRank : list requestRow -> list requestRow.

(** [for _, req := range reqs] of [export]: a request that fails is
    logged and skipped. *)
Fixpoint exportLoop (st : store) (nreqs : nat) (todo : list request)
    (placemarks : list kmlPlacemark) : result (list kmlPlacemark) :=
  match todo with
  | [] => Ok placemarks
  | r :: todo' =>
      match handle (newDefaultRequestHandler overrides Atoi st r) with
      | Err _ => exportLoop st nreqs todo' placemarks
      | Ok res =>
          let lineStrings := seg_lineString <$> res_routeSegments res in
          match colorGroup (req_rank r) nreqs with
          | Ok group =>
              exportLoop st nreqs todo'
                (placemarks
                 ++ [mkKmlPlacemark (requestString r)
                       ("#line-group-" ++ Itoa group)%string lineStrings])
          | Err e => Err e
          | Panic => Panic
          | OutOfFuel => OutOfFuel
          end
      | Panic => Panic
      | OutOfFuel => OutOfFuel
      end
  end.

(** [func export(_ context.Context, st store, args []string) error]:
    the placemarks of the folder it writes. *)
Definition export (st : store) (tbl : list requestRow) : result (list kmlPlacemark) :=
  let reqs := requests orderByRank tbl in
  exportLoop st (length reqs) reqs [].

End ExportFolder.

(** ** Specification-side definitions *)

(** The directionality classes of the specification, and the class a
    [direction] string of the geometry source stands for. *)
Inductive dirClass := Bidirectional | FirstToLast | LastToFirst.

Definition classOf (direction : string) : option dirClass :=
  if String.eqb direction "BOTH" then Some Bidirectional
  else if String.eqb direction "FOTD" then Some FirstToLast
  else if String.eqb direction "FDTO" then Some LastToFirst
  else None.

(** The directionality-pair table as the specification words it, [a ≈ b]
    being [close a b]: [Some b] says whether the edge [cur -> next]
    exists, [None] that the pairing is not enumerated. *)
Definition pairTable (close : Point -> Point -> bool) (cur next : segment) : option bool :=
  match classOf (seg_direction cur), classOf (seg_direction next) with
  | Some Bidirectional, Some Bidirectional =>
      Some (close (seg_firstPoint cur) (seg_firstPoint next)
            || close (seg_firstPoint cur) (seg_lastPoint next)
            || close (seg_lastPoint cur) (seg_firstPoint next)
            || close (seg_lastPoint cur) (seg_lastPoint next))
  | Some Bidirectional, Some FirstToLast =>
      Some (close (seg_firstPoint next) (seg_firstPoint cur)
            || close (seg_firstPoint next) (seg_lastPoint cur))
  | Some Bidirectional, Some LastToFirst => Some false
  | Some FirstToLast, Some FirstToLast =>
      Some (close (seg_firstPoint next) (seg_lastPoint cur))
  | Some FirstToLast, Some Bidirectional =>
      Some (close (seg_lastPoint cur) (seg_firstPoint next)
            || close (seg_lastPoint cur) (seg_lastPoint next))
  | Some LastToFirst, Some Bidirectional => Some false
  | _, _ => None
  end.

(** The ordered pair [(cur, next)] of distinct segments gets an edge. *)
Definition edgeAllowed (close : Point -> Point -> bool) (cur next : segment) : bool :=
  negb (seg_id cur =? seg_id next)
  && match pairTable close cur next with Some b => b | None => false end.

(** The ordered pair is one of distinct segments whose pairing the
    table does not enumerate. *)
Definition unknownPair (close : Point -> Point -> bool) (cur next : segment) : Prop :=
  seg_id cur ≠ seg_id next ∧ pairTable close cur next = None.

(** A string holds a space. *)
Fixpoint hasSpace (s : string) : bool :=
  match s with
  | EmptyString => false
  | String c s' => Ascii.eqb c " "%char || hasSpace s'
  end.

(** Two points are close: their distance is below the threshold, 1. *)
Definition near (Distance : Point -> Point -> float) (a b : Point) : bool :=
  (Distance a b <? 1.0)%float.

(** The rows the table gives the segments [todo] of a route: the
    directed edge [(cur.id, cur.routeID, next.id)] for each ordered
    pair [(cur, next)] that gets an edge, [cur] after [cur] in the
    order of [todo] and, for one [cur], [next] after [next] in the
    order of the route. *)
Definition routeEdges (close : Point -> Point -> bool) (routeSegs todo : list segment)
    : list link :=
  flat_map
    (fun cur =>
       (fun next => mkLink (seg_id cur) (seg_routeID cur) (seg_id next))
         <$> List.filter (edgeAllowed close cur) routeSegs)
    todo.

(** The adjacency relation [route] reads for the route of the segment
    [fromID]: the rows of [segment_links] with that route's id. *)
Definition routeEdge (st : store) (fromID : Z) (a b : Z) : Prop :=
  exists rid, routeIDOf st fromID = Some rid /\ mkLink a rid b ∈ segment_links st.

(** Consecutive elements of [p] are related by [R]. *)
Fixpoint linked (R : Z -> Z -> Prop) (p : list Z) : Prop :=
  match p with
  | a :: ((b :: _) as p') => R a b /\ linked R p'
  | _ => True
  end.

(** [p] is a simple path along [R] that starts at [s]. *)
Definition simpleFrom (R : Z -> Z -> Prop) (s : Z) (p : list Z) : Prop :=
  head p = Some s /\ NoDup p /\ linked R p.

(** [p] is a simple path along [R] from [s] to one of [toIDs]. *)
Definition simplePath (R : Z -> Z -> Prop) (s : Z) (toIDs : list Z) (p : list Z) : Prop :=
  simpleFrom R s p /\ exists t, last p = Some t /\ t ∈ toIDs.

(** The queue of the search holds paths of one length followed by
    paths one longer. *)
Definition layered (q : list (list Z)) : Prop :=
  exists (L : nat) (A B : list (list Z)),
    q = A ++ B /\ Forall (fun p => length p = L) A /\ Forall (fun p => length p = S L) B.

(** The invariant of the search loop: the queue holds simple paths
    from the seed, in layers, and every simple path from the seed to a
    target extends a path of the queue. *)
Record searchInv (R : Z -> Z -> Prop) (s : Z) (toIDs : list Z) (q : list (list Z)) : Prop := {
  inv_simple : Forall (simpleFrom R s) q;
  inv_layered : layered q;
  inv_complete : forall r, simplePath R s toIDs r -> exists p, p ∈ q /\ p `prefix_of` r
}.

(** The measure that bounds the rounds of the search: a path of the
    queue weighs [W ^ (N - length p)]. *)
Definition queueWeight (W N : nat) (q : list (list Z)) : nat :=
  sum_list_with (fun p => W ^ (N - length p))%nat q.

(** An edge of the map [graph]. *)
Definition edge (graph : gmap Z (list Z)) (a b : Z) : Prop := b ∈ graph !!! a.

(** [id] is a key of the graph [route] builds for the route of the
    segment [fromID]: that segment itself, or an end of a row of the
    route. *)
Definition graphNode (st : store) (fromID id : Z) : Prop :=
  id = fromID \/ exists other, routeEdge st fromID id other \/ routeEdge st fromID other id.

(** [t] can be reached from [s] along [R]. *)
Definition reachable (R : Z -> Z -> Prop) (s t : Z) : Prop := rtc R s t.

(** Two requests differ in their rank at most. *)
Definition sameButRank (r1 r2 : request) : Prop :=
  req_streetName r1 = req_streetName r2
  /\ req_from r1 = req_from r2
  /\ req_to r1 = req_to r2
  /\ req_district r1 = req_district r2.

(** The segments start discovery asks the store for: named as the
    request's street, and with the [from] cross-street, when one is
    given, at either end; quotes are dropped and letters raised. *)
Definition startMatch (r : request) (seg : segment) : Prop :=
  seg_name seg = upper (stripQuotes (req_streetName r))
  /\ (req_from r = ""
      \/ upper (stripQuotes (req_from r)) = seg_from seg
      \/ upper (stripQuotes (req_from r)) = seg_to seg).

(** An attempt whose stages after the first all fail with [e]. *)
Definition failedFrom (startSegs : list segment) (startErr : option error) (e : error)
    : requestAttempt :=
  mkAttempt startSegs startErr [] (Some e) [] (Some e).

(** The rows the table gives the routes of a load, route after route. *)
Definition loadEdges (close : Point -> Point -> bool) (routes : list (Z * list segment))
    : list link :=
  flat_map (fun route => routeEdges close route.2 route.2) routes.

(** The order in which SQLite keeps and scans the table [segments]:
    ascending in the integer primary key. *)
Definition tableOrder (tbl : list segment) : Prop :=
  StronglySorted (fun a b => seg_id a < seg_id b) tbl.

(** [tbl'] is the table [tbl] with the rows [segs] added: it holds
    the rows of both, and it is in the order of the table when [tbl]
    is. *)
Definition tableWith (tbl segs tbl' : list segment) : Prop :=
  tbl' ≡ₚ tbl ++ segs /\ (tableOrder tbl -> tableOrder tbl').

(** The segments of a batch that lie on the route [rid], in the order
    of the batch. *)
Definition routeGroup (segs : list segment) (rid : Z) : list segment :=
  List.filter (fun seg => seg_routeID seg =? rid) segs.

(** The rows of [segment_links] join stored segments of one route:
    both ends of a row are rows of [segments] with the row's route id,
    and they differ. *)
Definition links_wf (st : store) : Prop :=
  forall l, l ∈ segment_links st ->
    link_id l ≠ link_next_id l
    /\ exists a b,
         a ∈ segments st /\ b ∈ segments st
         /\ seg_id a = link_id l /\ seg_id b = link_next_id l
         /\ seg_routeID a = link_route_id l /\ seg_routeID b = link_route_id l.

(** [strings.Join(fields, "\t")], the inverse of [splitTabs]. *)
Fixpoint joinTabs (fields : list string) : string :=
  match fields with
  | [] => ""
  | [field] => field
  | field :: fields' => (field ++ String "009"%char (joinTabs fields'))%string
  end.

(** A string holds a tab. *)
Fixpoint hasTab (s : string) : bool :=
  match s with
  | EmptyString => false
  | String c s' => Ascii.eqb c "009"%char || hasTab s'
  end.

(** The cell of a limit column read as "no limit": empty, or the
    given word in any case. *)
Definition noLimit (word cell : string) : Prop :=
  cell = "" \/ toLower cell = word.

(** A request resolves: the pipeline returns its three lists. *)
Definition resolves (overrides : Z -> string -> overrideFile) (Atoi : string -> option Z)
    (st : store) (r : request) : option requestResult :=
  match handle (newDefaultRequestHandler overrides Atoi st r) with
  | Ok res => Some res
  | _ => None
  end.

(** The endpoints of a segment are the two ends of its line. *)
Definition endpoints_ok (seg : segment) : Prop :=
  head (seg_lineString seg) = Some (seg_firstPoint seg)
  /\ last (seg_lineString seg) = Some (seg_lastPoint seg).

(** The limit a cell of the requests file stands for. *)
Definition limitOf (word cell limit : string) : Prop :=
  (noLimit word cell /\ limit = "") \/ (~ noLimit word cell /\ limit = cell).

Definition resolved (overrides : Z -> string -> overrideFile) (Atoi : string -> option Z)
    (st : store) (r : request) : bool :=
  match resolves overrides Atoi st r with
  | Some _ => true
  | None => false
  end.

(** A request fails: the pipeline returns an error. *)
Definition fails (overrides : Z -> string -> overrideFile) (Atoi : string -> option Z)
    (st : store) (r : request) : bool :=
  match handle (newDefaultRequestHandler overrides Atoi st r) with
  | Err _ => true
  | _ => false
  end.

(** * Properties *)

(** ** The adjacency builder *)

Lemma hasSpace_append (a b : string) :
  hasSpace (a ++ " " ++ b)%string = true.
Proof.
  induction a as [|c a IH]; [reflexivity|].
  change (hasSpace (String c (a ++ " " ++ b)%string) = true).
  simpl. rewrite IH. apply orb_true_r.
Qed.

(** The key of the switch determines both directions: neither class
    name holds a space. *)
Lemma key_inj (a b c d : string) :
  hasSpace c = false -> hasSpace d = false ->
  (a ++ " " ++ b)%string = (c ++ " " ++ d)%string -> a = c /\ b = d.
Proof.
  revert a. induction c as [|y c IH]; intros a Hc Hd Heq.
  - destruct a as [|x a]; simpl in Heq.
    + injection Heq as Hrest. auto.
    + injection Heq as Hx Hrest. change (String.append "" d) with d in Hrest.
      rewrite <- Hrest in Hd.
      rewrite hasSpace_append in Hd. discriminate.
  - simpl in Hc. apply orb_false_iff in Hc as [Hy Hc].
    destruct a as [|x a]; simpl in Heq.
    + injection Heq as Hx Hrest. subst y. discriminate.
    + injection Heq as Hx Hrest. subst y.
      destruct (IH a Hc Hd Hrest) as [-> ->]. auto.
Qed.

Lemma key_eqb (a b c d : string) :
  hasSpace c = false -> hasSpace d = false ->
  String.eqb (a ++ " " ++ b) (c ++ " " ++ d) = String.eqb a c && String.eqb b d.
Proof.
  intros Hc Hd. apply eq_true_iff_eq.
  rewrite andb_true_iff, !String.eqb_eq. split.
  - apply key_inj; assumption.
  - intros [-> ->]. reflexivity.
Qed.

(** The switch of [matches] is the table of the specification. *)
Lemma directionSwitch_table (Distance : Point -> Point -> float) (cur next : segment) :
  directionSwitch Distance cur next = pairTable (isClose Distance) cur next.
Proof.
  unfold directionSwitch, pairTable, classOf.
  change "BOTH BOTH" with ("BOTH" ++ " " ++ "BOTH")%string.
  change "BOTH FOTD" with ("BOTH" ++ " " ++ "FOTD")%string.
  change "BOTH FDTO" with ("BOTH" ++ " " ++ "FDTO")%string.
  change "FOTD FOTD" with ("FOTD" ++ " " ++ "FOTD")%string.
  change "FOTD BOTH" with ("FOTD" ++ " " ++ "BOTH")%string.
  change "FDTO BOTH" with ("FDTO" ++ " " ++ "BOTH")%string.
  cbv zeta. rewrite !key_eqb by reflexivity.
  generalize (seg_direction cur) (seg_direction next). intros d1 d2.
  destruct (String.eqb_spec d1 "BOTH") as [->|?];
    [|destruct (String.eqb_spec d1 "FOTD") as [->|?];
      [|destruct (String.eqb_spec d1 "FDTO") as [->|?]]];
  (destruct (String.eqb_spec d2 "BOTH") as [->|?];
    [|destruct (String.eqb_spec d2 "FOTD") as [->|?];
      [|destruct (String.eqb_spec d2 "FDTO") as [->|?]]]);
  reflexivity.
Qed.

Lemma edgeAllowed_same_id (close : Point -> Point -> bool) (cur next : segment) :
  seg_id cur = seg_id next -> edgeAllowed close cur next = false.
Proof. intros H. unfold edgeAllowed. rewrite H, Z.eqb_refl. reflexivity. Qed.

Lemma edgeAllowed_table (close : Point -> Point -> bool) (cur next : segment) (b : bool) :
  seg_id cur ≠ seg_id next -> pairTable close cur next = Some b ->
  edgeAllowed close cur next = b.
Proof.
  intros Hne Ht. unfold edgeAllowed. rewrite Ht.
  apply Z.eqb_neq in Hne. rewrite Hne. reflexivity.
Qed.

(** What the loop of [matches] returns, whatever it started from. *)
Lemma matchesLoop_spec (Distance : Point -> Point -> float) (cur : segment)
    (segs out : list segment) :
  match matchesLoop Distance cur segs out with
  | Ok res =>
      res = out ++ List.filter (edgeAllowed (isClose Distance) cur) segs
      /\ forall next, next ∈ segs -> ~ unknownPair (isClose Distance) cur next
  | Err e =>
      exists next, next ∈ segs /\ unknownPair (isClose Distance) cur next
                   /\ e = ErrUnknownDirectionPair cur next
  | Panic | OutOfFuel => False
  end.
Proof.
  revert out. induction segs as [|next segs IH]; intros out; simpl.
  - split; [by rewrite app_nil_r|]. intros next Hin. by apply elem_of_nil in Hin.
  - destruct (Z.eqb_spec (seg_id cur) (seg_id next)) as [Heq|Hne].
    + specialize (IH out). rewrite (edgeAllowed_same_id _ _ _ Heq).
      destruct (matchesLoop Distance cur segs out) as [res|e| |]; try done.
      * destruct IH as [-> IH]. split; [done|].
        intros n [->|Hin]%elem_of_cons; [|by apply IH].
        intros [Hne _]. by apply Hne.
      * destruct IH as (n & Hin & Hn & ->). exists n.
        split; [by apply elem_of_cons; right|done].
    + rewrite directionSwitch_table.
      destruct (pairTable (isClose Distance) cur next) as [[|]|] eqn:Ht.
      * specialize (IH (out ++ [next])). rewrite (edgeAllowed_table _ _ _ _ Hne Ht).
        destruct (matchesLoop Distance cur segs (out ++ [next])) as [res|e| |]; try done.
        -- destruct IH as [-> IH]. split; [by rewrite <- app_assoc|].
           intros n [->|Hin]%elem_of_cons; [|by apply IH].
           intros [_ Hn]. congruence.
        -- destruct IH as (n & Hin & Hn & ->). exists n.
           split; [by apply elem_of_cons; right|done].
      * specialize (IH out). rewrite (edgeAllowed_table _ _ _ _ Hne Ht).
        destruct (matchesLoop Distance cur segs out) as [res|e| |]; try done.
        -- destruct IH as [-> IH]. split; [done|].
           intros n [->|Hin]%elem_of_cons; [|by apply IH].
           intros [_ Hn]. congruence.
        -- destruct IH as (n & Hin & Hn & ->). exists n.
           split; [by apply elem_of_cons; right|done].
      * exists next. split; [by apply elem_of_cons; left|]. by split.
Qed.

Lemma routeLinkRows_spec (Distance : Point -> Point -> float)
    (routeSegs todo : list segment) (rows0 : list link) :
  match routeLinkRows Distance routeSegs todo rows0 with
  | Ok rows =>
      rows = rows0 ++ routeEdges (isClose Distance) routeSegs todo
      /\ forall cur next, cur ∈ todo -> next ∈ routeSegs ->
           ~ unknownPair (isClose Distance) cur next
  | Err e =>
      exists cur next, cur ∈ todo /\ next ∈ routeSegs
        /\ unknownPair (isClose Distance) cur next
        /\ e = ErrUnknownDirectionPair cur next
  | Panic | OutOfFuel => False
  end.
Proof.
  revert rows0. induction todo as [|seg todo IH]; intros rows0; simpl.
  - split; [by rewrite app_nil_r|]. intros cur next Hin. by apply elem_of_nil in Hin.
  - unfold matches. pose proof (matchesLoop_spec Distance seg routeSegs []) as Hm.
    destruct (matchesLoop Distance seg routeSegs []) as [out|e| |]; try done.
    + destruct Hm as [-> Hm]. simpl.
      specialize (IH (rows0 ++ linkRows seg (List.filter (edgeAllowed (isClose Distance) seg) routeSegs))).
      destruct (routeLinkRows Distance routeSegs todo _) as [rows|e| |]; try done.
      * destruct IH as [-> IH]. split; [by rewrite <- app_assoc|].
        intros cur next [->|Hin]%elem_of_cons Hnext; [by apply Hm|by apply IH].
      * destruct IH as (cur & next & Hc & Hn & Hu & ->). exists cur, next.
        split; [by apply elem_of_cons; right|done].
    + destruct Hm as (next & Hin & Hu & ->). exists seg, next.
      split; [by apply elem_of_cons; left|done].
Qed.

(** C1. For every route and every segment [cur] of it, [matches]
    returns exactly the segments [next] of the route, in order, that
    are distinct from [cur] (by id) and that the directionality-pair
    table gives an edge, two endpoints [a], [b] being close when
    [Distance a b < 1]; it fails, naming the pair, exactly when the
    route holds a distinct [next] whose pairing with [cur] the table
    does not enumerate. The rows the builder inserts for the route
    are the directed edges [(cur.id, cur.routeID, next.id)] of the
    pairs so found, after the rows that were there, and none when
    some pairing of the route is not enumerated. *)
Theorem adjacency_follows_pair_table (Distance : Point -> Point -> float)
    (routeSegs : list segment) :
  (forall cur,
     match matches Distance routeSegs cur with
     | Ok out =>
         out = List.filter (edgeAllowed (near Distance) cur) routeSegs
         /\ forall next, next ∈ routeSegs -> ~ unknownPair (near Distance) cur next
     | Err e =>
         exists next, next ∈ routeSegs /\ unknownPair (near Distance) cur next
                      /\ e = ErrUnknownDirectionPair cur next
     | Panic | OutOfFuel => False
     end)
  /\ (forall rows0,
        match routeLinkRows Distance routeSegs routeSegs rows0 with
        | Ok rows =>
            rows = rows0
                   ++ flat_map
                        (fun cur =>
                           (fun next => mkLink (seg_id cur) (seg_routeID cur) (seg_id next))
                             <$> List.filter (edgeAllowed (near Distance) cur) routeSegs)
                        routeSegs
            /\ forall cur next, cur ∈ routeSegs -> next ∈ routeSegs ->
                 ~ unknownPair (near Distance) cur next
        | Err e =>
            exists cur next, cur ∈ routeSegs /\ next ∈ routeSegs
              /\ unknownPair (near Distance) cur next
              /\ e = ErrUnknownDirectionPair cur next
        | Panic | OutOfFuel => False
        end).
Proof.
  split.
  - intros cur. unfold matches.
    pose proof (matchesLoop_spec Distance cur routeSegs []) as Hm.
    destruct (matchesLoop Distance cur routeSegs []) as [out|e| |]; exact Hm.
  - intros rows0.
    pose proof (routeLinkRows_spec Distance routeSegs routeSegs rows0) as Hr.
    destruct (routeLinkRows Distance routeSegs routeSegs rows0) as [rows|e| |]; exact Hr.
Qed.

(** On the fixtures: [s2] touches [s1] and [s3] and not [s4]; two
    segments that are both "last to first" make [matches] fail. *)
Example matches_chain :
  matches planarDistance [s1; s2; s3; s4] s2 = Ok [s1; s3]
  /\ matches planarDistance [u1; u2] u1 = Err (ErrUnknownDirectionPair u1 u2).
Proof. split; vm_compute; reflexivity. Qed.

(** ** The graph of a route *)

Lemma contains_elem_of (x : list Z) (y : Z) : contains x y = true <-> y ∈ x.
Proof.
  induction x as [|z x IH]; simpl.
  - split; [discriminate|]. intros H. by apply elem_of_nil in H.
  - rewrite elem_of_cons. destruct (Z.eqb_spec z y) as [->|Hne].
    + split; auto.
    + rewrite IH. split; [auto|]. intros [->|H]; [done|exact H].
Qed.

Lemma contains_not_elem_of (x : list Z) (y : Z) : contains x y = false <-> y ∉ x.
Proof.
  rewrite <- contains_elem_of. destruct (contains x y); split; done.
Qed.

Lemma addRow_lookup_total (graph : gmap Z (list Z)) (row : Z * Z) (k : Z) :
  addRow graph row !!! k = (graph !!! k) ++ (if decide (row.1 = k) then [row.2] else []).
Proof.
  unfold addRow. destruct row as [id nextID]; simpl.
  destruct (<[id:=(graph !!! id) ++ [nextID]]> graph !! nextID) as [l|] eqn:Hnext.
  - destruct (decide (id = k)) as [->|Hne].
    + by rewrite lookup_total_insert_eq.
    + by rewrite lookup_total_insert_ne, app_nil_r.
  - assert (id ≠ nextID) as Hin.
    { intros ->. by rewrite lookup_insert_eq in Hnext. }
    rewrite lookup_insert_ne in Hnext by done.
    destruct (decide (nextID = k)) as [->|Hk].
    + rewrite lookup_total_insert_eq. rewrite decide_False by done.
      rewrite lookup_total_alt, Hnext. done.
    + rewrite lookup_total_insert_ne by done.
      destruct (decide (id = k)) as [->|Hne].
      * by rewrite lookup_total_insert_eq.
      * by rewrite lookup_total_insert_ne, app_nil_r.
Qed.

Lemma addRow_dom (graph : gmap Z (list Z)) (row : Z * Z) :
  dom (addRow graph row) = {[row.1; row.2]} ∪ dom graph.
Proof.
  unfold addRow. destruct row as [id nextID]; simpl.
  destruct (<[id:=(graph !!! id) ++ [nextID]]> graph !! nextID) as [l|] eqn:Hnext.
  - rewrite dom_insert_L.
    assert (nextID ∈ dom (<[id:=(graph !!! id) ++ [nextID]]> graph)) as Hin.
    { apply elem_of_dom. by exists l. }
    rewrite dom_insert_L in Hin. set_solver.
  - rewrite !dom_insert_L. set_solver.
Qed.

Lemma fold_addRow_lookup_total (rows : list (Z * Z)) (graph : gmap Z (list Z)) (k : Z) :
  fold_left addRow rows graph !!! k
  = (graph !!! k) ++ (snd <$> List.filter (fun row => row.1 =? k) rows).
Proof.
  revert graph. induction rows as [|row rows IH]; intros graph; simpl.
  - by rewrite app_nil_r.
  - rewrite IH, addRow_lookup_total, <- app_assoc. f_equal.
    destruct (decide (row.1 = k)) as [->|Hne].
    + by rewrite Z.eqb_refl.
    + apply Z.eqb_neq in Hne. by rewrite Hne.
Qed.

Lemma fold_addRow_dom (rows : list (Z * Z)) (graph : gmap Z (list Z)) :
  dom (fold_left addRow rows graph)
  = dom graph ∪ list_to_set (fst <$> rows) ∪ list_to_set (snd <$> rows).
Proof.
  revert graph. induction rows as [|row rows IH]; intros graph; simpl.
  - set_solver.
  - rewrite IH, addRow_dom. set_solver.
Qed.

(** The successors of a key are the [next_id]s of its rows, in order. *)
Lemma buildGraph_lookup_total (fromID : Z) (rows : list (Z * Z)) (k : Z) :
  buildGraph fromID rows !!! k = snd <$> List.filter (fun row => row.1 =? k) rows.
Proof.
  unfold buildGraph. rewrite fold_addRow_lookup_total.
  destruct (decide (fromID = k)) as [->|Hne].
  - by rewrite lookup_total_singleton_eq.
  - by rewrite lookup_total_singleton_ne.
Qed.

(** The keys are the first [from] segment and the ends of the rows. *)
Lemma buildGraph_dom (fromID : Z) (rows : list (Z * Z)) :
  dom (buildGraph fromID rows)
  = {[fromID]} ∪ list_to_set (fst <$> rows) ∪ list_to_set (snd <$> rows).
Proof. unfold buildGraph. by rewrite fold_addRow_dom, dom_singleton_L. Qed.

Lemma buildGraph_edge (fromID : Z) (rows : list (Z * Z)) (a b : Z) :
  edge (buildGraph fromID rows) a b <-> (a, b) ∈ rows.
Proof.
  unfold edge. rewrite buildGraph_lookup_total, list_elem_of_fmap. split.
  - intros ([a' b'] & -> & Hin). apply list_elem_of_In, filter_In in Hin as [Hin Ha].
    simpl in Ha. apply Z.eqb_eq in Ha as ->. by apply list_elem_of_In.
  - intros Hin. exists (a, b). split; [done|].
    apply list_elem_of_In, filter_In. split; [by apply list_elem_of_In|].
    simpl. apply Z.eqb_refl.
Qed.

Lemma buildGraph_seed (fromID : Z) (rows : list (Z * Z)) :
  fromID ∈ dom (buildGraph fromID rows).
Proof. rewrite buildGraph_dom. set_solver. Qed.

Lemma buildGraph_closed (fromID : Z) (rows : list (Z * Z)) (a b : Z) :
  edge (buildGraph fromID rows) a b -> b ∈ dom (buildGraph fromID rows).
Proof.
  rewrite buildGraph_edge, buildGraph_dom. intros Hin.
  apply elem_of_union_r, elem_of_list_to_set, list_elem_of_fmap.
  by exists (a, b).
Qed.

Lemma buildGraph_degree (fromID : Z) (rows : list (Z * Z)) (a : Z) :
  (length (buildGraph fromID rows !!! a) <= length rows)%nat.
Proof.
  rewrite buildGraph_lookup_total, length_fmap. apply filter_length_le.
Qed.

(** The edges of the graph [route] builds are the rows of
    [segment_links] of the route of the first [from] segment. *)
Lemma queryLinks_edge (st : store) (fromID a b : Z) :
  (a, b) ∈ queryLinks st fromID <-> routeEdge st fromID a b.
Proof.
  unfold queryLinks, routeEdge. destruct (routeIDOf st fromID) as [rid|].
  - rewrite list_elem_of_fmap. split.
    + intros ([a' r b'] & [= -> ->] & Hin). exists rid. split; [done|].
      apply list_elem_of_In, filter_In in Hin as [Hin Hr]. simpl in Hr.
      apply Z.eqb_eq in Hr as ->. by apply list_elem_of_In.
    + intros (rid' & [= <-] & Hin). exists (mkLink a rid b). split; [done|].
      apply list_elem_of_In, filter_In. split; [by apply list_elem_of_In|].
      simpl. apply Z.eqb_refl.
  - split; [intros H; by apply elem_of_nil in H|]. by intros (rid & ? & _).
Qed.

Lemma route_graph_edge (st : store) (fromID a b : Z) :
  edge (buildGraph fromID (queryLinks st fromID)) a b <-> routeEdge st fromID a b.
Proof. by rewrite buildGraph_edge, queryLinks_edge. Qed.

(** ** The search loop *)

Lemma linked_snoc (R : Z -> Z -> Prop) (p : list Z) (l n : Z) :
  linked R p -> last p = Some l -> R l n -> linked R (p ++ [n]).
Proof.
  induction p as [|a [|b p] IH]; intros Hp Hl Hn.
  - discriminate.
  - injection Hl as ->. simpl. auto.
  - destruct Hp as [Hab Hp]. split; [exact Hab|]. by apply IH.
Qed.

Lemma linked_app_step (R : Z -> Z -> Prop) (p k : list Z) (l n : Z) :
  linked R (p ++ n :: k) -> last p = Some l -> R l n.
Proof.
  induction p as [|a [|b p] IH]; intros Hp Hl.
  - discriminate.
  - injection Hl as ->. by destruct Hp.
  - destruct Hp as [_ Hp]. by apply IH.
Qed.

Lemma linked_app_l (R : Z -> Z -> Prop) (p k : list Z) :
  linked R (p ++ k) -> linked R p.
Proof.
  induction p as [|a [|b p] IH]; intros Hp; try done.
  destruct Hp as [Hab Hp]. split; [exact Hab|]. by apply IH.
Qed.

Lemma linked_impl (R R' : Z -> Z -> Prop) (p : list Z) :
  (forall a b, R a b -> R' a b) -> linked R p -> linked R' p.
Proof.
  intros HR. induction p as [|a [|b p] IH]; intros Hp; try done.
  destruct Hp as [Hab Hp]. split; [by apply HR|by apply IH].
Qed.

Lemma simpleFrom_nonempty (R : Z -> Z -> Prop) (s : Z) (p : list Z) :
  simpleFrom R s p -> exists l, last p = Some l.
Proof.
  intros [Hh _]. destruct p as [|a p]; [discriminate|].
  destruct (last (a :: p)) eqn:Hl; [eauto|]. by apply last_None in Hl.
Qed.

Lemma extend_spec (graph : gmap Z (list Z)) (p : list Z) (lid : Z) (p' : list Z) :
  p' ∈ extend graph p lid <-> exists nid, p' = p ++ [nid] /\ edge graph lid nid /\ nid ∉ p.
Proof.
  unfold extend, edge. rewrite list_elem_of_fmap. split.
  - intros (nid & -> & Hin). exists nid. split; [done|].
    apply list_elem_of_In, filter_In in Hin as [Hin Hc].
    split; [by apply list_elem_of_In|].
    apply contains_not_elem_of. by destruct (contains p nid).
  - intros (nid & -> & Hin & Hp). exists nid. split; [done|].
    apply list_elem_of_In, filter_In. split; [by apply list_elem_of_In|].
    apply contains_not_elem_of in Hp. by rewrite Hp.
Qed.

Lemma extend_simple (graph : gmap Z (list Z)) (s : Z) (p : list Z) (lid : Z) :
  simpleFrom (edge graph) s p -> last p = Some lid ->
  Forall (fun p' => simpleFrom (edge graph) s p' /\ length p' = S (length p))
    (extend graph p lid).
Proof.
  intros (Hh & Hnd & Hl) Hlast. apply Forall_forall. intros p' Hp'.
  apply extend_spec in Hp' as (nid & -> & He & Hnot).
  split; [|rewrite length_app; simpl; lia].
  split; [|split].
  - destruct p; [discriminate|done].
  - apply NoDup_app. split; [done|]. split; [|apply NoDup_singleton].
    intros x Hx ->%list_elem_of_singleton. done.
  - by apply linked_snoc with lid.
Qed.

Lemma extend_length (graph : gmap Z (list Z)) (p : list Z) (lid : Z) :
  (length (extend graph p lid) <= length (graph !!! lid))%nat.
Proof. unfold extend. rewrite length_fmap. apply filter_length_le. Qed.

(** A path of the queue that is no target yet is extended towards
    every target it is a prefix of. *)
Lemma extend_complete (graph : gmap Z (list Z)) (s : Z) (toIDs : list Z)
    (p r : list Z) (lid : Z) :
  simplePath (edge graph) s toIDs r -> p `prefix_of` r ->
  last p = Some lid -> lid ∉ toIDs ->
  exists p', p' ∈ extend graph p lid /\ p' `prefix_of` r.
Proof.
  intros [(Hh & Hnd & Hl) (t & Ht & Hin)] [k ->] Hlast Hnot.
  destruct k as [|n k].
  - rewrite app_nil_r in Ht. congruence.
  - exists (p ++ [n]). split.
    + apply extend_spec. exists n. split; [done|]. split.
      * by apply linked_app_step with p k.
      * apply NoDup_app in Hnd as (_ & Hdisj & _). intros Hn.
        apply (Hdisj n Hn). by apply elem_of_cons; left.
    + exists k. by rewrite <- app_assoc.
Qed.

Lemma layered_head_min (p : list Z) (q : list (list Z)) (p' : list Z) :
  layered (p :: q) -> p' ∈ p :: q -> (length p <= length p')%nat.
Proof.
  intros (L & A & B & Hq & HA & HB) Hin.
  rewrite Hq in Hin. apply elem_of_app in Hin.
  rewrite Forall_forall in HA, HB.
  destruct A as [|a A]; simpl in Hq.
  - subst B. rewrite (HB p) by (by apply elem_of_cons; left).
    destruct Hin as [Hin|Hin]; [by apply elem_of_nil in Hin|].
    by rewrite (HB p' Hin).
  - injection Hq as <- Hq. rewrite (HA p) by (by apply elem_of_cons; left).
    destruct Hin as [Hin|Hin]; [by rewrite (HA p' Hin)|].
    rewrite (HB p' Hin). lia.
Qed.

Lemma layered_step (p : list Z) (q ext : list (list Z)) :
  layered (p :: q) -> Forall (fun p' => length p' = S (length p)) ext ->
  layered (q ++ ext).
Proof.
  intros (L & A & B & Hq & HA & HB) Hext.
  destruct A as [|a A]; simpl in Hq.
  - subst B. apply Forall_cons in HB as [Hp HB].
    exists (S L), q, ext. split; [done|]. split; [done|].
    by rewrite <- Hp.
  - injection Hq as <- ->. apply Forall_cons in HA as [Hp HA].
    exists L, A, (B ++ ext). split; [by rewrite app_assoc|]. split; [done|].
    apply Forall_app. split; [done|]. by rewrite <- Hp.
Qed.

(** One round of the loop keeps the invariant. *)
Lemma searchInv_step (graph : gmap Z (list Z)) (s : Z) (toIDs : list Z)
    (p : list Z) (q : list (list Z)) (lid : Z) :
  searchInv (edge graph) s toIDs (p :: q) ->
  last p = Some lid -> lid ∉ toIDs ->
  searchInv (edge graph) s toIDs (q ++ extend graph p lid).
Proof.
  intros [Hs Hl Hc] Hlast Hnot.
  apply Forall_cons in Hs as [Hp Hs].
  pose proof (extend_simple graph s p lid Hp Hlast) as Hext.
  split.
  - apply Forall_app. split; [done|]. eapply Forall_impl; [exact Hext|].
    by intros p' [? _].
  - apply layered_step with p; [done|]. eapply Forall_impl; [exact Hext|].
    by intros p' [_ ?].
  - intros r Hr. destruct (Hc r Hr) as (p' & [->|Hin]%elem_of_cons & Hpre).
    + destruct (extend_complete graph s toIDs p r lid Hr Hpre Hlast Hnot)
        as (p'' & Hin & Hpre').
      exists p''. split; [by apply elem_of_app; right|done].
    + exists p'. split; [by apply elem_of_app; left|done].
Qed.

Lemma searchInv_init (R : Z -> Z -> Prop) (s : Z) (toIDs : list Z) :
  searchInv R s toIDs [[s]].
Proof.
  split.
  - apply Forall_singleton. split; [done|]. split; [apply NoDup_singleton|done].
  - exists 1%nat, [[s]], []. split; [done|]. split; [by apply Forall_singleton|done].
  - intros r [(Hh & _) _]. exists [s]. split; [by apply elem_of_cons; left|].
    destruct r as [|a r]; [discriminate|]. injection Hh as ->. by exists r.
Qed.

(** What the loop ends in, from a queue that meets the invariant: a
    simple path to a target that is as short as any, or no path when
    there is none; it never indexes an empty path. *)
Lemma bfs_spec (graph : gmap Z (list Z)) (s : Z) (toIDs : list Z)
    (fuel : nat) (q : list (list Z)) :
  searchInv (edge graph) s toIDs q ->
  match bfs fuel graph toIDs q with
  | Ok (Some p) =>
      simplePath (edge graph) s toIDs p
      /\ forall r, simplePath (edge graph) s toIDs r -> (length p <= length r)%nat
  | Ok None => forall r, ~ simplePath (edge graph) s toIDs r
  | Err _ | Panic => False
  | OutOfFuel => True
  end.
Proof.
  revert q. induction fuel as [|fuel IH]; intros q Hinv.
  - destruct q as [|p q]; simpl; [|done].
    intros r Hr. destruct (inv_complete _ _ _ _ Hinv r Hr) as (p & Hin & _).
    by apply elem_of_nil in Hin.
  - destruct q as [|p q]; simpl.
    + intros r Hr. destruct (inv_complete _ _ _ _ Hinv r Hr) as (p & Hin & _).
      by apply elem_of_nil in Hin.
    + assert (simpleFrom (edge graph) s p) as Hp.
      { pose proof (inv_simple _ _ _ _ Hinv) as Hs. by apply Forall_cons in Hs as [? _]. }
      destruct (simpleFrom_nonempty _ _ _ Hp) as [lid Hlast]. rewrite Hlast.
      destruct (contains toIDs lid) eqn:Hc.
      * apply contains_elem_of in Hc. split.
        -- split; [done|]. by exists lid.
        -- intros r Hr. destruct (inv_complete _ _ _ _ Hinv r Hr) as (p' & Hin & Hpre).
           apply prefix_length in Hpre.
           pose proof (layered_head_min p q p' (inv_layered _ _ _ _ Hinv) Hin). lia.
      * apply contains_not_elem_of in Hc. apply IH.
        by apply searchInv_step.
Qed.

(** ** The search loop ends *)

Lemma linked_dom (graph : gmap Z (list Z)) (p : list Z) (s : Z) :
  (forall a b, edge graph a b -> b ∈ dom graph) ->
  linked (edge graph) p -> head p = Some s -> s ∈ dom graph ->
  forall x, x ∈ p -> x ∈ dom graph.
Proof.
  intros Hclosed. revert s. induction p as [|a [|b p] IH]; intros s Hl Hh Hs x Hx.
  - by apply elem_of_nil in Hx.
  - injection Hh as ->. by apply list_elem_of_singleton in Hx as ->.
  - injection Hh as ->. destruct Hl as [Hab Hl].
    apply elem_of_cons in Hx as [->|Hx]; [done|].
    apply (IH b); [done|done| |done]. by apply Hclosed with s.
Qed.

(** A simple path is no longer than the graph has keys. *)
Lemma simpleFrom_length (graph : gmap Z (list Z)) (s : Z) (p : list Z) :
  s ∈ dom graph -> (forall a b, edge graph a b -> b ∈ dom graph) ->
  simpleFrom (edge graph) s p -> (length p <= size graph)%nat.
Proof.
  intros Hs Hclosed (Hh & Hnd & Hl).
  rewrite <- (size_list_to_set (C := gset Z) p Hnd), <- (size_dom (D := gset Z) graph).
  apply subseteq_size. intros x Hx%elem_of_list_to_set.
  by apply (linked_dom graph p s).
Qed.

Lemma queueWeight_app (W N : nat) (q q' : list (list Z)) :
  queueWeight W N (q ++ q') = (queueWeight W N q + queueWeight W N q')%nat.
Proof. apply sum_list_with_app. Qed.

Lemma queueWeight_cons (W N : nat) (p : list Z) (q : list (list Z)) :
  queueWeight W N (p :: q) = (W ^ (N - length p) + queueWeight W N q)%nat.
Proof. reflexivity. Qed.

Lemma queueWeight_layer (W N m : nat) (q : list (list Z)) :
  Forall (fun p => length p = m) q ->
  queueWeight W N q = (length q * W ^ (N - m))%nat.
Proof.
  induction 1 as [|p q Hp _ IH]; [done|].
  rewrite queueWeight_cons, IH, Hp. simpl. lia.
Qed.

(** A round of the loop takes the weight of the queue down. *)
Lemma queueWeight_step (graph : gmap Z (list Z)) (s : Z) (W N : nat)
    (p : list Z) (lid : Z) :
  (forall a, (length (graph !!! a) < W)%nat) ->
  (forall p', simpleFrom (edge graph) s p' -> (length p' <= N)%nat) ->
  simpleFrom (edge graph) s p -> last p = Some lid ->
  (S (queueWeight W N (extend graph p lid)) <= W ^ (N - length p))%nat.
Proof.
  intros Hdeg Hlen Hp Hlast.
  pose proof (extend_simple graph s p lid Hp Hlast) as Hext.
  rewrite (queueWeight_layer W N (S (length p))).
  2:{ eapply Forall_impl; [exact Hext|]. by intros p' [_ ?]. }
  pose proof (extend_length graph p lid) as Hc.
  pose proof (Hdeg lid) as Hd.
  destruct (extend graph p lid) as [|p' ext] eqn:He.
  - simpl. assert (W ≠ 0)%nat by lia.
    pose proof (Nat.pow_nonzero W (N - length p)). lia.
  - apply Forall_cons in Hext as [[Hp' Hlp'] _].
    apply Hlen in Hp'.
    replace (N - length p)%nat with (S (N - S (length p))) by lia.
    rewrite Nat.pow_succ_r'.
    assert (W ≠ 0)%nat as HW by lia.
    pose proof (Nat.pow_nonzero W (N - S (length p)) HW).
    simpl length in *. nia.
Qed.

Lemma bfs_fuel_enough (graph : gmap Z (list Z)) (s : Z) (toIDs : list Z) (W N : nat) :
  (forall a, (length (graph !!! a) < W)%nat) ->
  (forall p, simpleFrom (edge graph) s p -> (length p <= N)%nat) ->
  forall (fuel : nat) (q : list (list Z)),
    Forall (simpleFrom (edge graph) s) q ->
    (queueWeight W N q <= fuel)%nat ->
    bfs fuel graph toIDs q <> OutOfFuel.
Proof.
  intros Hdeg Hlen fuel. induction fuel as [|fuel IH]; intros q Hq Hw.
  - destruct q as [|p q]; [done|]. exfalso.
    rewrite queueWeight_cons in Hw.
    assert (W ≠ 0)%nat as HW by (pose proof (Hdeg 0); lia).
    pose proof (Nat.pow_nonzero W (N - length p) HW). lia.
  - destruct q as [|p q]; [done|]. simpl.
    apply Forall_cons in Hq as [Hp Hq].
    destruct (simpleFrom_nonempty _ _ _ Hp) as [lid Hlast]. rewrite Hlast.
    destruct (contains toIDs lid); [done|].
    apply IH.
    + apply Forall_app. split; [done|].
      eapply Forall_impl; [exact (extend_simple graph s p lid Hp Hlast)|].
      by intros p' [? _].
    + rewrite queueWeight_app.
      pose proof (queueWeight_step graph s W N p lid Hdeg Hlen Hp Hlast).
      rewrite queueWeight_cons in Hw. lia.
Qed.

(** The fuel [route] gives the loop is enough. *)
Lemma route_bfs_fuel (fromID : Z) (rows : list (Z * Z)) (toIDs : list Z) :
  let graph := buildGraph fromID rows in
  bfs (bfsFuel graph rows) graph toIDs [[fromID]] <> OutOfFuel.
Proof.
  intros graph.
  apply (bfs_fuel_enough graph fromID toIDs (S (length rows)) (size graph)).
  - intros a. pose proof (buildGraph_degree fromID rows a). unfold graph. lia.
  - intros p. apply simpleFrom_length; [apply buildGraph_seed|apply buildGraph_closed].
  - apply (inv_simple _ _ toIDs), searchInv_init.
  - rewrite queueWeight_cons. unfold queueWeight, bfsFuel. simpl sum_list_with.
    rewrite Nat.add_0_r. apply Nat.pow_le_mono_r; lia.
Qed.

(** ** The segments of the path found *)

Lemma existsb_id (seg : segment) (path : list Z) :
  existsb (fun id => seg_id seg =? id) path = true <-> seg_id seg ∈ path.
Proof.
  rewrite existsb_exists. split.
  - intros (id & Hin & ->%Z.eqb_eq). by apply list_elem_of_In.
  - intros Hin. exists (seg_id seg). split; [by apply list_elem_of_In|apply Z.eqb_refl].
Qed.

(** [filterSegments(segmentFilter{ids: path})]: the rows whose id is on
    the path. *)
Lemma filterSegments_ids (st : store) (path : list Z) (seg : segment) :
  path ≠ [] ->
  seg ∈ filterSegments st (mkFilter path [] [] []) <-> seg ∈ segments st /\ seg_id seg ∈ path.
Proof.
  intros Hne. unfold filterSegments. rewrite list_elem_of_In, filter_In, <- list_elem_of_In.
  unfold filterWhere; simpl. rewrite !andb_true_r.
  destruct path as [|id path]; [done|]. unfold dimension. by rewrite existsb_id.
Qed.

Lemma NoDup_fmap_filter {A B} (g : A -> B) (f : A -> bool) (l : list A) :
  NoDup (g <$> l) -> NoDup (g <$> List.filter f l).
Proof.
  induction l as [|a l IH]; simpl; [done|].
  intros [Ha Hl]%NoDup_cons. destruct (f a); [|by apply IH].
  simpl. apply NoDup_cons. split; [|by apply IH].
  intros (x & Hx & Hin)%list_elem_of_fmap. apply Ha, list_elem_of_fmap.
  exists x. split; [done|]. apply list_elem_of_In, filter_In in Hin as [Hin _].
  by apply list_elem_of_In.
Qed.

Lemma fold_bySegmentID_lookup (segs : list segment) (m : gmap Z segment) (id : Z) (seg : segment) :
  fold_left (fun m seg => <[seg_id seg := seg]> m) segs m !! id = Some seg ->
  (seg ∈ segs /\ seg_id seg = id) \/ m !! id = Some seg.
Proof.
  revert m. induction segs as [|a segs IH]; intros m; simpl; [auto|].
  intros [[Hin Hid]|Hm]%IH.
  - left. split; [by apply elem_of_cons; right|done].
  - destruct (decide (seg_id a = id)) as [Ha|Ha].
    + rewrite Ha, lookup_insert_eq in Hm. injection Hm as <-. left.
      split; [by apply elem_of_cons; left|done].
    + rewrite lookup_insert_ne in Hm by done. by right.
Qed.

Lemma fold_bySegmentID_is_Some (segs : list segment) (m : gmap Z segment) (id : Z) :
  id ∈ seg_id <$> segs \/ is_Some (m !! id) ->
  is_Some (fold_left (fun m seg => <[seg_id seg := seg]> m) segs m !! id).
Proof.
  revert m. induction segs as [|a segs IH]; intros m; simpl.
  - intros [Hin|Hm]; [by apply elem_of_nil in Hin|done].
  - intros [[->|Hin]%elem_of_cons|Hm]; apply IH.
    + right. rewrite lookup_insert_eq. by eexists.
    + by left.
    + right. destruct (decide (seg_id a = id)) as [->|Ha].
      * rewrite lookup_insert_eq. by eexists.
      * by rewrite lookup_insert_ne.
Qed.

(** With enough segments the loop writes the path's segments over the
    first [length path] of them; with too few it indexes out of range. *)
Lemma reorder_ok (m : gmap Z segment) (path : list Z) (i : nat) (segs : list segment) :
  (i + length path <= length segs)%nat ->
  reorder m i path segs
  = Ok (take i segs ++ ((fun id => m !!! id) <$> path) ++ drop (i + length path) segs).
Proof.
  revert i segs. induction path as [|id path IH]; intros i segs Hlen; simpl.
  - by rewrite Nat.add_0_r, take_drop.
  - simpl in Hlen. destruct (Nat.ltb_spec i (length segs)) as [Hi|Hi]; [|lia].
    rewrite IH by (rewrite length_insert; lia).
    f_equal. rewrite (take_S_r _ _ (m !!! id)) by (by apply list_lookup_insert_eq).
    rewrite take_insert_ge by lia. rewrite drop_insert_lt by lia.
    rewrite <- app_assoc. simpl.
    by replace (i + S (length path))%nat with (S (i + length path)) by lia.
Qed.

Lemma reorder_panic (m : gmap Z segment) (path : list Z) (i : nat) (segs : list segment) :
  path ≠ [] -> (length segs < i + length path)%nat ->
  reorder m i path segs = Panic.
Proof.
  revert i segs. induction path as [|id path IH]; intros i segs Hne Hlen; [done|].
  simpl in *. destruct (Nat.ltb_spec i (length segs)) as [Hi|Hi]; [|done].
  destruct path as [|id' path]; [simpl in Hlen; lia|].
  apply IH; [done|]. rewrite length_insert. simpl in *. lia.
Qed.

Lemma reorder_kind (m : gmap Z segment) (path : list Z) (i : nat) (segs : list segment) :
  match reorder m i path segs with
  | Ok _ | Panic => True
  | Err _ | OutOfFuel => False
  end.
Proof.
  revert i segs. induction path as [|id path IH]; intros i segs; simpl; [done|].
  destruct (i <? length segs)%nat; [apply IH|done].
Qed.

Lemma lookup_path (st : store) (m : gmap Z segment) (path : list Z) :
  (forall id, id ∈ path ->
     exists seg, m !! id = Some seg /\ seg ∈ segments st /\ seg_id seg = id) ->
  seg_id <$> ((fun id => m !!! id) <$> path) = path
  /\ Forall (fun seg => seg ∈ segments st) ((fun id => m !!! id) <$> path).
Proof.
  induction path as [|id path IH]; intros Hm; simpl; [by split|].
  destruct (Hm id) as (seg & Hseg & Hin & Hid); [by apply elem_of_cons; left|].
  destruct IH as [IH1 IH2]; [intros id' Hid'; apply Hm; by apply elem_of_cons; right|].
  rewrite lookup_total_alt, Hseg. simpl. split; [rewrite Hid; f_equal; exact IH1|].
  apply Forall_cons. by split.
Qed.

(** In a store whose ids are unique, the segments found for a
    duplicate-free path are as many as the path is long exactly when
    every id of the path is a row; [route] then returns the rows of the
    path's ids, in the order of the path. *)
Lemma route_segments (st : store) (path : list Z) (res : list segment) :
  store_wf st -> NoDup path -> path ≠ [] ->
  let segs := filterSegments st (mkFilter path [] [] []) in
  reorder (bySegmentID segs) 0 path segs = Ok res ->
  seg_id <$> res = path /\ Forall (fun seg => seg ∈ segments st) res.
Proof.
  intros Hwf Hnd Hne segs Hres.
  assert (NoDup (seg_id <$> segs)) as Hsegs by (by apply NoDup_fmap_filter).
  assert (forall x, x ∈ seg_id <$> segs -> x ∈ path) as Hsub.
  { intros x (seg & -> & Hin)%list_elem_of_fmap.
    by apply filterSegments_ids in Hin as [_ ?]. }
  pose proof (NoDup_submseteq _ _ Hsegs Hsub) as Hms.
  pose proof (submseteq_length _ _ Hms) as Hle. rewrite length_fmap in Hle.
  destruct (decide (length segs < length path)%nat) as [Hlt|Hge].
  { rewrite reorder_panic in Hres by (simpl; done || lia). discriminate. }
  assert (seg_id <$> segs ≡ₚ path) as Hperm.
  { apply submseteq_length_Permutation; [done|]. rewrite length_fmap. lia. }
  rewrite reorder_ok in Hres by (simpl; lia). injection Hres as <-.
  rewrite drop_ge, app_nil_r by lia.
  assert (forall id, id ∈ path ->
            exists seg, bySegmentID segs !! id = Some seg /\ seg ∈ segs /\ seg_id seg = id) as Hm.
  { intros id Hid. rewrite <- Hperm in Hid.
    destruct (fold_bySegmentID_is_Some segs ∅ id (or_introl Hid)) as [seg Hseg].
    exists seg. split; [done|].
    destruct (fold_bySegmentID_lookup segs ∅ id seg Hseg) as [?|Hempty]; [done|].
    by rewrite lookup_empty in Hempty. }
  apply lookup_path. intros id Hid.
  destruct (Hm id Hid) as (seg & Hseg & Hin & Hseg_id). exists seg.
  split; [done|]. split; [|done].
  by apply filterSegments_ids in Hin as [? _].
Qed.

(** ** The path finder *)

Lemma simplePath_iff (R R' : Z -> Z -> Prop) (s : Z) (toIDs p : list Z) :
  (forall a b, R a b <-> R' a b) -> simplePath R s toIDs p <-> simplePath R' s toIDs p.
Proof.
  intros HR. unfold simplePath, simpleFrom.
  assert (linked R p <-> linked R' p) as ->; [|done].
  split; apply linked_impl; intros a b; apply HR.
Qed.

Lemma route_graph_dom (st : store) (fromID id : Z) :
  id ∈ dom (buildGraph fromID (queryLinks st fromID)) <-> graphNode st fromID id.
Proof.
  rewrite buildGraph_dom, !elem_of_union, !elem_of_list_to_set, !list_elem_of_fmap.
  rewrite elem_of_singleton. unfold graphNode. split.
  - intros [[->|([a b] & -> & Hin)]|([a b] & -> & Hin)]; [by left|right..].
    + exists b. left. by apply queryLinks_edge.
    + exists a. right. by apply queryLinks_edge.
  - intros [->|(other & [He|He])]; [by left; left|..].
    + left; right. exists (id, other). split; [done|]. by apply queryLinks_edge.
    + right. exists (other, id). split; [done|]. by apply queryLinks_edge.
Qed.

Lemma checkTo_None (graph : gmap Z (list Z)) (toSegments : list segment) :
  checkTo graph toSegments = None <->
  forall t, t ∈ toSegments -> seg_id t ∈ dom graph.
Proof.
  induction toSegments as [|seg tos IH]; simpl.
  - split; [|done]. intros _ t Ht. by apply elem_of_nil in Ht.
  - destruct (graph !! seg_id seg) as [l|] eqn:Hl.
    + rewrite IH. split.
      * intros H t [->|Ht]%elem_of_cons; [|by apply H]. apply elem_of_dom. by exists l.
      * intros H t Ht. apply H. by apply elem_of_cons; right.
    + split; [done|]. intros H. exfalso.
      assert (seg_id seg ∈ dom graph) as [l Hl']%elem_of_dom
        by (apply H; by apply elem_of_cons; left).
      congruence.
Qed.

Lemma checkTo_Some (graph : gmap Z (list Z)) (toSegments : list segment) (e : error) :
  checkTo graph toSegments = Some e ->
  exists t, t ∈ toSegments /\ (seg_id t ∉ dom graph) /\ e = ErrToNotInGraph (seg_id t).
Proof.
  induction toSegments as [|seg tos IH]; simpl; [done|].
  destruct (graph !! seg_id seg) as [l|] eqn:Hl.
  - intros (t & Ht & Hn & ->)%IH. exists t. split; [by apply elem_of_cons; right|done].
  - intros [= <-]. exists seg. split; [by apply elem_of_cons; left|]. split; [|done].
    by apply not_elem_of_dom.
Qed.

(** What [route] ends in, on non-empty candidate lists. *)
Lemma route_spec (st : store) (from0 : segment) (froms : list segment)
    (to0 : segment) (tos : list segment) :
  let fromID := seg_id from0 in
  let toIDs := seg_id <$> to0 :: tos in
  match route st (from0 :: froms) (to0 :: tos) with
  | Ok res =>
      exists path,
        simplePath (routeEdge st fromID) fromID toIDs path
        /\ (forall r, simplePath (routeEdge st fromID) fromID toIDs r ->
              (length path <= length r)%nat)
        /\ (forall id, id ∈ toIDs -> graphNode st fromID id)
        /\ let segs := filterSegments st (mkFilter path [] [] []) in
           reorder (bySegmentID segs) 0 path segs = Ok res
  | Err e =>
      (e = ErrCouldNotFindPath
       /\ (forall id, id ∈ toIDs -> graphNode st fromID id)
       /\ forall r, ~ simplePath (routeEdge st fromID) fromID toIDs r)
      \/ (exists t, t ∈ to0 :: tos /\ ~ graphNode st fromID (seg_id t)
                    /\ e = ErrToNotInGraph (seg_id t))
  | Panic =>
      exists path,
        simplePath (routeEdge st fromID) fromID toIDs path
        /\ (forall id, id ∈ toIDs -> graphNode st fromID id)
        /\ let segs := filterSegments st (mkFilter path [] [] []) in
           reorder (bySegmentID segs) 0 path segs = Panic
  | OutOfFuel => False
  end.
Proof.
  intros fromID toIDs. unfold route. fold fromID.
  set (rows := queryLinks st fromID). set (graph := buildGraph fromID rows).
  assert (forall p, simplePath (edge graph) fromID toIDs p
                    <-> simplePath (routeEdge st fromID) fromID toIDs p) as Hiff.
  { intros p. apply simplePath_iff. intros a b. apply route_graph_edge. }
  destruct (checkTo graph (to0 :: tos)) as [e|] eqn:Hcheck.
  { right. apply checkTo_Some in Hcheck as (t & Ht & Hn & ->).
    exists t. split; [done|]. split; [|done]. by rewrite <- route_graph_dom. }
  assert (forall id, id ∈ toIDs -> graphNode st fromID id) as Hnodes.
  { intros id (t & -> & Ht)%list_elem_of_fmap. apply route_graph_dom.
    by apply (proj1 (checkTo_None graph (to0 :: tos)) Hcheck). }
  fold toIDs.
  pose proof (bfs_spec graph fromID toIDs (bfsFuel graph rows) [[fromID]]
                (searchInv_init _ _ _)) as Hbfs.
  pose proof (route_bfs_fuel fromID rows toIDs) as Hfuel. cbv zeta in Hfuel.
  fold graph in Hfuel.
  destruct (bfs (bfsFuel graph rows) graph toIDs [[fromID]]) as [[path|]|e| |];
    try done.
  - destruct Hbfs as [Hpath Hmin].
    pose proof (reorder_kind
                  (bySegmentID (filterSegments st (mkFilter path [] [] []))) path 0
                  (filterSegments st (mkFilter path [] [] []))) as Hkind.
    destruct (reorder _ 0 path _) as [res|e| |] eqn:Hres; try done.
    + exists path. split; [by apply Hiff|]. split; [|done].
      intros r Hr. by apply Hmin, Hiff.
    + exists path. split; [by apply Hiff|]. by split.
  - left. split; [done|]. split; [done|]. intros r Hr. by apply (Hbfs r), Hiff.
Qed.

(** Reachability along [R] is the existence of a simple path. *)
Lemma simpleFrom_reachable (R : Z -> Z -> Prop) (p : list Z) (s t : Z) :
  simpleFrom R s p -> last p = Some t -> reachable R s t.
Proof.
  intros (Hh & _ & Hl). revert s Hh Hl.
  induction p as [|a [|b p] IH]; intros s Hh Hl Ht; [done|..].
  - injection Hh as ->. injection Ht as ->. apply rtc_refl.
  - injection Hh as ->. destruct Hl as [Hab Hl].
    apply rtc_l with b; [done|]. by apply IH.
Qed.

Lemma reachable_simpleFrom (R : Z -> Z -> Prop) (s t : Z) :
  reachable R s t -> exists p, simpleFrom R s p /\ last p = Some t.
Proof.
  unfold reachable. revert t. apply rtc_ind_r.
  2: intros y z Hsy Hyz (p & (Hh & Hnd & Hl) & Hlast).
  - exists [s]. split; [|done]. split; [done|]. split; [apply NoDup_singleton|done].
  - destruct (decide (z ∈ p)) as [Hin|Hnot].
    + apply list_elem_of_split in Hin as (p1 & p2 & ->).
      exists (p1 ++ [z]). split; [|apply last_snoc].
      rewrite (cons_middle z p1 p2), app_assoc in Hh, Hnd, Hl.
      split; [|split].
      * destruct p1; done.
      * by apply NoDup_app in Hnd as [? _].
      * by apply linked_app_l in Hl.
    + exists (p ++ [z]). split; [|apply last_snoc].
      split; [|split].
      * destruct p; [discriminate|done].
      * apply NoDup_app. split; [done|]. split; [|apply NoDup_singleton].
        by intros x Hx ->%list_elem_of_singleton.
      * by apply linked_snoc with y.
Qed.

Lemma no_simplePath_unreachable (R : Z -> Z -> Prop) (s : Z) (toIDs : list Z) :
  (forall r, ~ simplePath R s toIDs r) <-> (forall t, t ∈ toIDs -> ~ reachable R s t).
Proof.
  split.
  - intros Hno t Ht (p & Hp & Hlast)%reachable_simpleFrom.
    apply (Hno p). split; [done|]. by exists t.
  - intros Hno r [Hr (t & Hlast & Ht)]. apply (Hno t Ht).
    by apply simpleFrom_reachable with r.
Qed.

(** The primary key: a row is determined by its id. *)
Lemma store_wf_inj (st : store) (a b : segment) :
  store_wf st -> a ∈ segments st -> b ∈ segments st -> seg_id a = seg_id b -> a = b.
Proof.
  unfold store_wf. induction (segments st) as [|x l IH]; simpl.
  - intros _ Ha. by apply elem_of_nil in Ha.
  - intros [Hx Hl]%NoDup_cons [->|Ha]%elem_of_cons [->|Hb]%elem_of_cons Hid; [done|..].
    + exfalso. apply Hx, list_elem_of_fmap. by exists b.
    + exfalso. apply Hx, list_elem_of_fmap. by exists a.
    + by apply IH.
Qed.

(** A successful call, in a store whose ids are unique. *)
Lemma route_Ok (st : store) (from0 : segment) (froms : list segment)
    (to0 : segment) (tos : list segment) (res : list segment) :
  store_wf st ->
  route st (from0 :: froms) (to0 :: tos) = Ok res ->
  simplePath (routeEdge st (seg_id from0)) (seg_id from0) (seg_id <$> to0 :: tos)
    (seg_id <$> res)
  /\ (forall r, simplePath (routeEdge st (seg_id from0)) (seg_id from0)
                  (seg_id <$> to0 :: tos) r -> (length res <= length r)%nat)
  /\ Forall (fun seg => seg ∈ segments st) res.
Proof.
  intros Hwf Hroute.
  pose proof (route_spec st from0 froms to0 tos) as Hspec. cbv zeta in Hspec.
  rewrite Hroute in Hspec. destruct Hspec as (path & Hpath & Hmin & _ & Hres).
  assert (path ≠ []) as Hne.
  { destruct Hpath as [(Hh & _) _]. by destruct path. }
  destruct (route_segments st path res Hwf) as [Hids Hin]; [|done|done|].
  { by destruct Hpath as [(_ & Hnd & _) _]. }
  rewrite Hids. split; [done|]. split; [|done].
  intros r Hr. rewrite <- (length_fmap seg_id res), Hids. by apply Hmin.
Qed.

(** The search of [route] ends within the rounds it is given: a call
    returns segments or an error, or panics on a path whose segments
    the store does not hold. *)
Lemma route_never_out_of_fuel (st : store) (fromSegments toSegments : list segment) :
  route st fromSegments toSegments <> OutOfFuel.
Proof.
  destruct fromSegments as [|from0 froms]; [by destruct toSegments|].
  destruct toSegments as [|to0 tos]; [done|].
  pose proof (route_spec st from0 froms to0 tos) as Hspec. cbv zeta in Hspec.
  by destruct (route st (from0 :: froms) (to0 :: tos)).
Qed.

(** C10. In a store whose segment ids are unique (the primary key), a
    successful call of [route] with non-empty candidate lists returns
    segments of the store whose ids form a simple path along the
    adjacency rows of the route of the first [from] candidate: it
    starts at that candidate's id, ends at the id of a [to] candidate,
    repeats no id, and every consecutive pair is a row of
    [segment_links] of that route. It has one element exactly when
    the first [from] candidate is itself a [to] candidate. When the
    candidates are rows of the store, the first element is the first
    [from] candidate and the last is a [to] candidate. *)
Theorem route_returns_simple_path (st : store) (from0 : segment) (froms : list segment)
    (to0 : segment) (tos : list segment) (res : list segment) :
  store_wf st ->
  route st (from0 :: froms) (to0 :: tos) = Ok res ->
  (head (seg_id <$> res) = Some (seg_id from0)
   /\ NoDup (seg_id <$> res)
   /\ linked (routeEdge st (seg_id from0)) (seg_id <$> res)
   /\ exists t, last (seg_id <$> res) = Some t /\ t ∈ seg_id <$> to0 :: tos)
  /\ Forall (fun seg => seg ∈ segments st) res
  /\ (length res = 1%nat <-> seg_id from0 ∈ seg_id <$> to0 :: tos)
  /\ (from0 ∈ segments st -> head res = Some from0)
  /\ (Forall (fun t => t ∈ segments st) (to0 :: tos) ->
      exists t, last res = Some t /\ t ∈ to0 :: tos).
Proof.
  intros Hwf Hroute.
  destruct (route_Ok st from0 froms to0 tos res Hwf Hroute) as (Hpath & Hmin & Hin).
  pose proof Hpath as [(Hh & Hnd & Hl) (t & Hlast & Ht)].
  split; [by eauto 10|]. split; [done|]. split; [|split].
  - split.
    + intros Hlen. destruct res as [|seg [|? ?]]; try done.
      injection Hh as Hh. injection Hlast as Hlast. by rewrite <- Hh, Hlast.
    + intros Hfrom.
      assert (simplePath (routeEdge st (seg_id from0)) (seg_id from0)
                (seg_id <$> to0 :: tos) [seg_id from0]) as Hone.
      { split; [|by exists (seg_id from0)].
        split; [done|]. split; [apply NoDup_singleton|done]. }
      apply Hmin in Hone. simpl in Hone.
      destruct res as [|seg [|? ?]]; simpl in *; [done|done|lia].
  - intros Hfrom. destruct res as [|seg res]; [done|].
    injection Hh as Hh. apply Forall_cons in Hin as [Hseg _].
    simpl. f_equal. by apply (store_wf_inj st).
  - intros Htos. rewrite fmap_last in Hlast.
    destruct (last res) as [seg|] eqn:Hseg; [|done]. injection Hlast as Hlast.
    apply list_elem_of_fmap in Ht as (t' & -> & Ht').
    exists seg. split; [done|].
    rewrite Forall_forall in Hin, Htos.
    assert (seg = t') as ->; [|done].
    apply (store_wf_inj st); [done| |by apply Htos|done].
    apply Hin. by apply last_Some_elem_of.
Qed.

(** The primary key holds in the stores of the fixtures. *)
Lemma loaded_test_wf : store_wf (loaded [s1; s2; s3; s4; irr]).
Proof. apply (bool_decide_unpack _). vm_compute. exact I. Defined.

Lemma route_returns_simple_path_witness :
  (head (seg_id <$> [s1; s2; s3; s4]) = Some 1
   /\ NoDup (seg_id <$> [s1; s2; s3; s4])
   /\ linked (routeEdge (loaded [s1; s2; s3; s4; irr]) 1) (seg_id <$> [s1; s2; s3; s4])
   /\ exists t, last (seg_id <$> [s1; s2; s3; s4]) = Some t /\ t ∈ seg_id <$> [s4])
  /\ Forall (fun seg => seg ∈ segments (loaded [s1; s2; s3; s4; irr])) [s1; s2; s3; s4]
  /\ (length [s1; s2; s3; s4] = 1%nat <-> 1 ∈ seg_id <$> [s4])
  /\ (s1 ∈ segments (loaded [s1; s2; s3; s4; irr]) -> head [s1; s2; s3; s4] = Some s1)
  /\ (Forall (fun t => t ∈ segments (loaded [s1; s2; s3; s4; irr])) [s4] ->
      exists t, last [s1; s2; s3; s4] = Some t /\ t ∈ [s4]).
Proof.
  apply (route_returns_simple_path (loaded [s1; s2; s3; s4; irr]) s1 [] s4 [] [s1; s2; s3; s4]).
  - exact loaded_test_wf.
  - vm_compute. reflexivity.
Defined.

(** C2. For non-empty candidate lists, [route] searches from the first
    [from] candidate alone: the other [from] candidates do not change
    what it returns. In a store whose ids are unique, a path it returns
    is a simple path from that seed to a [to] candidate and no simple
    path from the seed to a [to] candidate along the route's adjacency
    rows has fewer segments (so none has fewer edges). When no [to]
    candidate can be reached from the seed, it returns an error and no
    path: "could not find path" when every [to] candidate is a node of
    the graph, else "to segment ... not found in route graph"; and it
    returns "could not find path" only when no [to] candidate can be
    reached. *)
Theorem route_shortest_from_first (st : store) (from0 : segment) (froms : list segment)
    (to0 : segment) (tos : list segment) :
  store_wf st ->
  route st (from0 :: froms) (to0 :: tos) = route st [from0] (to0 :: tos)
  /\ (forall res,
        route st (from0 :: froms) (to0 :: tos) = Ok res ->
        simplePath (routeEdge st (seg_id from0)) (seg_id from0) (seg_id <$> to0 :: tos)
          (seg_id <$> res)
        /\ forall r,
             simplePath (routeEdge st (seg_id from0)) (seg_id from0)
               (seg_id <$> to0 :: tos) r ->
             (length res <= length r)%nat)
  /\ ((forall t, t ∈ seg_id <$> to0 :: tos ->
         ~ reachable (routeEdge st (seg_id from0)) (seg_id from0) t) ->
      exists e,
        route st (from0 :: froms) (to0 :: tos) = Err e
        /\ (e = ErrCouldNotFindPath \/ exists id, e = ErrToNotInGraph id)
        /\ ((forall id, id ∈ seg_id <$> to0 :: tos -> graphNode st (seg_id from0) id) ->
            e = ErrCouldNotFindPath))
  /\ (route st (from0 :: froms) (to0 :: tos) = Err ErrCouldNotFindPath ->
      forall t, t ∈ seg_id <$> to0 :: tos ->
        ~ reachable (routeEdge st (seg_id from0)) (seg_id from0) t).
Proof.
  intros Hwf. split; [done|]. split; [|split].
  - intros res Hres.
    destruct (route_Ok st from0 froms to0 tos res Hwf Hres) as (Hpath & Hmin & _).
    by split.
  - intros Hno'. pose proof (proj2 (no_simplePath_unreachable _ _ _) Hno') as Hno.
    pose proof (route_spec st from0 froms to0 tos) as Hspec. cbv zeta in Hspec.
    destruct (route st (from0 :: froms) (to0 :: tos)) as [res|e| |]; try done.
    + destruct Hspec as (path & Hpath & _). by destruct (Hno path).
    + exists e. split; [done|].
      destruct Hspec as [(-> & _ & _)|(t & Ht & Hn & ->)].
      * split; [by left|done].
      * split; [right; by eexists|]. intros Hnodes. exfalso. apply Hn, Hnodes.
        apply list_elem_of_fmap. by exists t.
    + destruct Hspec as (path & Hpath & _). by destruct (Hno path).
  - intros Herr. apply no_simplePath_unreachable.
    pose proof (route_spec st from0 froms to0 tos) as Hspec. cbv zeta in Hspec.
    rewrite Herr in Hspec. destruct Hspec as [(_ & _ & Hno)|(t & _ & _ & [=])]. done.
Qed.

Lemma route_shortest_from_first_witness :
  route (loaded [s1; s2; s3; s4; irr]) [s2; s1] [s4; s3]
  = route (loaded [s1; s2; s3; s4; irr]) [s2] [s4; s3]
  /\ route (loaded [s1; s2; s3; s4; irr]) [s2; s1] [s4; s3] = Ok [s2; s3].
Proof.
  split.
  - exact (proj1 (route_shortest_from_first (loaded [s1; s2; s3; s4; irr])
                    s2 [s1] s4 [s3] loaded_test_wf)).
  - vm_compute. reflexivity.
Defined.

(** C8, as the code has it. A call of [route] with non-empty candidate
    lists fails with "to segment ... not found in route graph" exactly
    when the id of some [to] candidate is neither the id of the first
    [from] candidate nor an end of an adjacency row of that
    candidate's route. Only the first [from] candidate is a node of
    the graph whatever its rows: a [to] candidate with another id that
    no adjacency row mentions is rejected, on the same route or not. *)
Theorem route_to_membership (st : store) (from0 : segment) (froms : list segment)
    (to0 : segment) (tos : list segment) :
  ((exists id, route st (from0 :: froms) (to0 :: tos) = Err (ErrToNotInGraph id))
   <-> exists t, t ∈ to0 :: tos /\ ~ graphNode st (seg_id from0) (seg_id t))
  /\ (forall t, t ∈ to0 :: tos -> seg_id t = seg_id from0 ->
        graphNode st (seg_id from0) (seg_id t))
  /\ (forall t, t ∈ to0 :: tos -> seg_id t ≠ seg_id from0 ->
        (forall l, l ∈ segment_links st ->
           link_id l ≠ seg_id t /\ link_next_id l ≠ seg_id t) ->
        exists id, route st (from0 :: froms) (to0 :: tos) = Err (ErrToNotInGraph id)).
Proof.
  assert ((exists id, route st (from0 :: froms) (to0 :: tos) = Err (ErrToNotInGraph id))
          <-> exists t, t ∈ to0 :: tos /\ ~ graphNode st (seg_id from0) (seg_id t)) as Hiff.
  { pose proof (route_spec st from0 froms to0 tos) as Hspec. cbv zeta in Hspec. split.
    - intros [id Hid]. rewrite Hid in Hspec.
      destruct Hspec as [([=] & _)|(t & Ht & Hn & _)]. by exists t.
    - intros (t & Ht & Hn).
      assert (seg_id t ∈ seg_id <$> to0 :: tos) as Hin
        by (apply list_elem_of_fmap; by exists t).
      destruct (route st (from0 :: froms) (to0 :: tos)) as [res|e| |]; try done.
      + destruct Hspec as (path & _ & _ & Hnodes & _). by destruct (Hn (Hnodes _ Hin)).
      + destruct Hspec as [(_ & Hnodes & _)|(t' & _ & _ & ->)]; [|by eexists].
        by destruct (Hn (Hnodes _ Hin)).
      + destruct Hspec as (path & _ & Hnodes & _). by destruct (Hn (Hnodes _ Hin)). }
  split; [done|]. split.
  - intros t _ Hid. by left.
  - intros t Ht Hid Hrows. apply Hiff. exists t. split; [done|].
    intros [?|(other & [(rid & _ & Hl)|(rid & _ & Hl)])]; [done|..].
    + by destruct (Hrows _ Hl) as [? _].
    + by destruct (Hrows _ Hl) as [_ ?].
Qed.

(** C8, as stated, fails: [s1] and [s3] lie on route 1 and do not
    touch, so the load adds no row; [s3], a segment of the same route
    without edges, is rejected as a [to] candidate by the membership
    check. *)
Lemma isolated_to_candidate_rejected :
  ~ (forall (st : store) (from0 to0 : segment),
       to0 ∈ segments st ->
       routeIDOf st (seg_id to0) = routeIDOf st (seg_id from0) ->
       (forall l, l ∈ segment_links st ->
          link_id l ≠ seg_id to0 /\ link_next_id l ≠ seg_id to0) ->
       forall id, route st [from0] [to0] <> Err (ErrToNotInGraph id)).
Proof.
  intros H.
  apply (H (loaded [s1; s3]) s1 s3) with 3.
  - vm_compute. apply elem_of_cons; right. apply elem_of_cons; left. reflexivity.
  - vm_compute. reflexivity.
  - vm_compute. intros l Hl. by apply elem_of_nil in Hl.
  - vm_compute. reflexivity.
Qed.

(** ** Route discovery *)

Lemma route_Ok_nonempty (st : store) (fromSegments toSegments res : list segment) :
  route st fromSegments toSegments = Ok res -> res ≠ [].
Proof.
  destruct fromSegments as [|from0 froms]; [by destruct toSegments|].
  destruct toSegments as [|to0 tos]; [done|]. intros Hroute.
  pose proof (route_spec st from0 froms to0 tos) as Hspec. cbv zeta in Hspec.
  rewrite Hroute in Hspec. destruct Hspec as (path & [(Hh & _) _] & _ & _ & Hres).
  cbv zeta in Hres.
  set (segs := filterSegments st (mkFilter path [] [] [])) in Hres.
  destruct (decide (length segs < length path)%nat) as [Hlt|Hge].
  - rewrite reorder_panic in Hres; [done|by destruct path|simpl; lia].
  - rewrite reorder_ok in Hres by (simpl; lia). injection Hres as <-.
    destruct path; [done|]. simpl. done.
Qed.

Lemma trimStart_nonempty (startIDs : list Z) (route1 : list segment) :
  route1 ≠ [] -> trimStart startIDs route1 ≠ [].
Proof.
  induction route1 as [|a [|b [|c l]] IH]; intros Hne; simpl; try done.
  destruct (contains startIDs (seg_id b)); [|done]. by apply IH.
Qed.

(** The result of the trimming is a suffix of the path. *)
Lemma trimStart_suffix (startIDs : list Z) (route1 : list segment) :
  trimStart startIDs route1 `suffix_of` route1.
Proof.
  induction route1 as [|a [|b [|c l]] IH]; simpl; try done.
  destruct (contains startIDs (seg_id b)); [|done].
  by apply suffix_cons_r.
Qed.

(** What the loop over the end candidates returns: every search from
    [route[0]] succeeded and none found a longer route, or one of the
    searches ended otherwise and the loop with it. *)
Lemma longestRoute_spec (st : store) (route0 : segment) (route1 ends path : list segment) :
  match longestRoute st (route0 :: route1) ends path with
  | Ok res =>
      (forall e, e ∈ ends ->
         exists c, route st [route0] [e] = Ok c /\ (length c <= length res)%nat)
      /\ (length path <= length res)%nat
      /\ (res = path \/ exists e, e ∈ ends /\ route st [route0] [e] = Ok res)
  | other =>
      exists e, e ∈ ends /\ route st [route0] [e] = other
  end.
Proof.
  revert path. induction ends as [|e ends IH]; intros path; cbn [longestRoute].
  - split; [|by split; [|left]]. intros e He. by apply elem_of_nil in He.
  - destruct (route st [route0] [e]) as [c|err| |] eqn:Hc;
      try (exists e; split; [by apply elem_of_cons; left|done]).
    set (path' := if (length path <? length c)%nat then c else path).
    specialize (IH path').
    assert (length path <= length path' /\ length c <= length path')%nat as [Hp' Hc'].
    { unfold path'. destruct (Nat.ltb_spec (length path) (length c)); lia. }
    assert (path' = path \/ path' = c) as Hsel.
    { unfold path'. destruct (length path <? length c)%nat; auto. }
    destruct (longestRoute st (route0 :: route1) ends path') as [res|err| |].
    + destruct IH as (Hall & Hlen & Hres).
      split; [|split; [lia|]].
      * intros e' [->|He']%elem_of_cons; [|by apply Hall].
        exists c. split; [done|lia].
      * destruct Hres as [->|(e' & He' & Hres)].
        -- destruct Hsel as [->| ->]; [by left|right].
           exists e. split; [by apply elem_of_cons; left|done].
        -- right. exists e'. split; [by apply elem_of_cons; right|done].
    + destruct IH as (e' & He' & Hres). exists e'. split; [by apply elem_of_cons; right|done].
    + destruct IH as (e' & He' & Hres). exists e'. split; [by apply elem_of_cons; right|done].
    + destruct IH as (e' & He' & Hres). exists e'. split; [by apply elem_of_cons; right|done].
Qed.

(** C3, as the code has it. Take a request whose [to] is empty or
    equal to [from], and start and end sets for which the path finder
    returns a path. With an empty [from] (so that [to] is empty too)
    route discovery returns all the segments of the route of the first
    start segment and searches nothing. With a non-empty [from] it
    searches, for every end candidate, a path from the first segment
    of the front-trimmed path (not from the first start segment) to
    that candidate. When all these searches succeed it returns a
    longest among the trimmed path and the paths found: none of them
    has more segments, and the trimmed path is kept unless a search
    found a longer one. When a search fails, route discovery ends as
    that search did and returns no path. *)
Theorem longest_route_from_trimmed_head (st : store) (r : request)
    (starts ends route1 : list segment) :
  req_to r = "" \/ req_to r = req_from r ->
  route st starts ends = Ok route1 ->
  (req_from r = "" ->
   exists start0 rest,
     starts = start0 :: rest
     /\ routeDiscovery st (mkProcessing r starts ends)
        = Ok (filterSegments st (mkFilter [] [] [seg_routeID start0] [])))
  /\ (req_from r ≠ "" ->
      exists route0 rest,
        trimStart (startIDsOf starts) route1 = route0 :: rest
        /\ match routeDiscovery st (mkProcessing r starts ends) with
           | Ok res =>
               (forall e, e ∈ ends ->
                  exists c, route st [route0] [e] = Ok c /\ (length c <= length res)%nat)
               /\ (length (route0 :: rest) <= length res)%nat
               /\ (res = route0 :: rest
                   \/ exists e, e ∈ ends /\ route st [route0] [e] = Ok res)
           | other => exists e, e ∈ ends /\ route st [route0] [e] = other
           end).
Proof.
  intros Hto Hroute. split.
  - intros Hfrom. destruct starts as [|start0 rest]; [by destruct ends|].
    exists start0, rest. split; [done|].
    unfold routeDiscovery. cbn [req startSegments].
    assert (req_to r = "") as -> by (destruct Hto; congruence).
    by rewrite Hfrom.
  - intros Hfrom.
    pose proof (trimStart_nonempty (startIDsOf starts) route1
                  (route_Ok_nonempty _ _ _ _ Hroute)) as Hne.
    destruct (trimStart (startIDsOf starts) route1) as [|route0 rest] eqn:Htrim; [done|].
    exists route0, rest. split; [done|].
    unfold routeDiscovery. simpl.
    apply String.eqb_neq in Hfrom. rewrite Hfrom, Hroute. simpl. rewrite Htrim.
    assert (String.eqb (req_to r) "" || String.eqb (req_to r) (req_from r) = true) as ->.
    { apply orb_true_iff. destruct Hto as [Hto|Hto]; [left|right]; by apply String.eqb_eq. }
    apply longestRoute_spec.
Qed.

Lemma longest_route_from_trimmed_head_witness :
  exists route0 rest,
    trimStart (startIDsOf [s2]) [s2; s3] = route0 :: rest
    /\ match routeDiscovery (loaded [s1; s2; s3; s4; s5; irr])
               (mkProcessing (testRequest "A St" "" 0) [s2] [s3; s4; s5]) with
       | Ok res =>
           (forall e, e ∈ [s3; s4; s5] ->
              exists c, route (loaded [s1; s2; s3; s4; s5; irr]) [route0] [e] = Ok c
                        /\ (length c <= length res)%nat)
           /\ (length (route0 :: rest) <= length res)%nat
           /\ (res = route0 :: rest
               \/ exists e, e ∈ [s3; s4; s5]
                            /\ route (loaded [s1; s2; s3; s4; s5; irr]) [route0] [e] = Ok res)
       | other =>
           exists e, e ∈ [s3; s4; s5]
                     /\ route (loaded [s1; s2; s3; s4; s5; irr]) [route0] [e] = other
       end.
Proof.
  refine (proj2 (longest_route_from_trimmed_head (loaded [s1; s2; s3; s4; s5; irr])
                   (testRequest "A St" "" 0) [s2] [s3; s4; s5] [s2; s3] _ _) _).
  - left. reflexivity.
  - vm_compute. reflexivity.
  - simpl. discriminate.
Defined.

(** C3, as stated, fails. With start candidates [s1], [s2] and the end
    candidate [s4] on the chain [s1 - s2 - s3 - s4], the request "from
    B St" without [to] gets the path [s1 s2 s3 s4] trimmed to
    [s2 s3 s4], and the further search runs from [s2]: route discovery
    returns three segments although the path from the original first
    start segment [s1] to the end candidate has four. *)
Lemma longest_search_not_from_first_start :
  ~ (forall (st : store) (r : request) (start0 : segment) (starts ends res : list segment),
       req_to r = "" \/ (req_to r = req_from r /\ req_from r ≠ "") ->
       routeDiscovery st (mkProcessing r (start0 :: starts) ends) = Ok res ->
       forall e c, e ∈ ends -> route st [start0] [e] = Ok c ->
                   (length c <= length res)%nat).
Proof.
  intros H.
  specialize (H (loaded [s1; s2; s3; s4; irr]) (testRequest "B St" "" 0)
                s1 [s2] [s4] [s2; s3; s4] (or_introl eq_refl)).
  specialize (H ltac:(vm_compute; reflexivity) s4 [s1; s2; s3; s4]).
  specialize (H ltac:(apply elem_of_cons; by left) ltac:(vm_compute; reflexivity)).
  simpl in H. lia.
Qed.

(** ** Trimming the start of the path *)

Lemma contains_app (x x' : list Z) (y : Z) :
  contains (x ++ x') y = contains x y || contains x' y.
Proof.
  induction x as [|z x IH]; simpl; [done|]. destruct (z =? y); [done|exact IH].
Qed.

Lemma contains_replicate_0 (n : nat) (y : Z) :
  y ≠ 0 -> contains (replicate n 0) y = false.
Proof.
  intros Hy. induction n as [|n IH]; [done|].
  cbn [replicate contains]. destruct (Z.eqb_spec 0 y) as [<-|_]; [done|exact IH].
Qed.

(** The slice the code tests against holds, besides the ids of the
    start segments, as many zeros: it agrees with the ids of the start
    segments on every id but 0. *)
Lemma contains_startIDsOf (startSegs : list segment) (y : Z) :
  y ≠ 0 -> contains (startIDsOf startSegs) y = contains (seg_id <$> startSegs) y.
Proof.
  intros Hy. unfold startIDsOf. by rewrite contains_app, contains_replicate_0.
Qed.

Lemma contains_startIDsOf_0 (start0 : segment) (startSegs : list segment) :
  contains (startIDsOf (start0 :: startSegs)) 0 = true.
Proof. reflexivity. Qed.

Lemma trimStart_no_zero (startSegs route1 : list segment) :
  Forall (fun seg => seg_id seg ≠ 0) route1 ->
  trimStart (startIDsOf startSegs) route1 = trimStart (seg_id <$> startSegs) route1.
Proof.
  induction route1 as [|a [|b [|c l]] IH]; intros Hall; simpl; try done.
  apply Forall_cons in Hall as [_ Hall]. pose proof Hall as [Hb _]%Forall_cons.
  rewrite contains_startIDsOf by done.
  destruct (contains (seg_id <$> startSegs) (seg_id b)); [|done]. by apply IH.
Qed.

(** C7 fails on the code at the id 0. The start candidate [z5] is
    followed on its route by [z0], whose id is 0, and [z7]; the path
    finder returns [z5 z0 z7] for the request from "A St" to "D St".
    The second segment's id, 0, is no start-candidate id, yet the
    trimming drops [z5]: [startIDs] is made with [len] zeros before the
    ids are appended, so the id 0 always passes the test. Route
    discovery, and the pipeline with it, returns [z0 z7]. On paths
    that hold no segment of id 0 the trimming is the claim's. *)
Theorem trim_drops_start_before_id_zero :
  route (loaded [z5; z0; z7]) [z5] [z7] = Ok [z5; z0; z7]
  /\ contains (seg_id <$> [z5]) (seg_id z0) = false
  /\ trimStart (seg_id <$> [z5]) [z5; z0; z7] = [z5; z0; z7]
  /\ startIDsOf [z5] = [0; 5]
  /\ routeDiscovery (loaded [z5; z0; z7])
       (mkProcessing (testRequest "A St" "D St" 1) [z5] [z7]) = Ok [z0; z7]
  /\ handle (newDefaultRequestHandler noOverrides digitAtoi (loaded [z5; z0; z7])
               (testRequest "A St" "D St" 1))
     = Ok (mkRequestResult [z5] [z7] [z0; z7])
  /\ (forall startSegs route1,
        Forall (fun seg => seg_id seg ≠ 0) route1 ->
        trimStart (startIDsOf startSegs) route1 = trimStart (seg_id <$> startSegs) route1).
Proof.
  repeat split; try (vm_compute; reflexivity).
  apply trimStart_no_zero.
Qed.

(** ** Start discovery *)

Lemma routeIDs_fold (segs : list segment) (ids : gset Z) :
  fold_left (fun ids seg => {[seg_routeID seg]} ∪ ids) segs ids
  = list_to_set (seg_routeID <$> segs) ∪ ids.
Proof.
  revert ids. induction segs as [|seg segs IH]; intros ids; simpl; [set_solver|].
  rewrite IH. set_solver.
Qed.

Lemma dimension_spec {A} (xs : list A) (test : A -> bool) :
  dimension xs test = true <-> xs = [] \/ exists x, x ∈ xs /\ test x = true.
Proof.
  destruct xs as [|x xs]; simpl.
  - split; auto.
  - rewrite orb_true_iff, existsb_exists. split.
    + intros [Hx|(y & Hy & Hty)]; right.
      * exists x. split; [by apply elem_of_cons; left|done].
      * exists y. split; [apply elem_of_cons; right; by apply list_elem_of_In|done].
    + intros [[=]|(y & [->|Hy]%elem_of_cons & Hty)]; [by left|right].
      exists y. split; [by apply list_elem_of_In|done].
Qed.

Lemma startFilter_spec (st : store) (r : request) (seg : segment) :
  seg ∈ filterSegments st (startFilter r) <-> seg ∈ segments st /\ startMatch r seg.
Proof.
  unfold filterSegments. rewrite list_elem_of_In, filter_In, <- list_elem_of_In.
  unfold filterWhere, startFilter, startMatch, dimension; cbn [ids fullNames routeIDs endStreets existsb].
  destruct (String.eqb_spec (req_from r) "") as [Hf|Hf].
  - rewrite !andb_true_r, andb_true_l, orb_false_r, String.eqb_eq. intuition.
  - cbn [existsb]. rewrite !orb_false_r, andb_true_r, andb_true_l.
    rewrite andb_true_iff, orb_true_iff, !String.eqb_eq. intuition.
Qed.

(** C6. Start discovery asks the store for the segments named as the
    request's street that have the [from] cross-street, when one is
    given, at either end. When two of them differ in their route
    identifier it returns an error (that counts the route identifiers,
    more than one) and no segments; when they all share one route
    identifier it returns all of them, however many. *)
Theorem start_discovery_single_route (st : store) (preq : processingRequest) :
  let segs := filterSegments st (startFilter (req preq)) in
  (forall seg, seg ∈ segs <-> seg ∈ segments st /\ startMatch (req preq) seg)
  /\ ((exists a b, a ∈ segs /\ b ∈ segs /\ seg_routeID a ≠ seg_routeID b) ->
      exists n, (1 < n)%nat /\ startDiscovery st preq = Err (ErrRouteIDs n))
  /\ ((forall a b, a ∈ segs -> b ∈ segs -> seg_routeID a = seg_routeID b) ->
      startDiscovery st preq = Ok segs).
Proof.
  intros segs. split; [intros seg; apply startFilter_spec|].
  unfold startDiscovery. cbv zeta. fold segs. rewrite !routeIDs_fold, !union_empty_r_L.
  set (routeIDs := list_to_set (seg_routeID <$> segs) : gset Z).
  split.
  - intros (a & b & Ha & Hb & Hne).
    assert ({[seg_routeID a; seg_routeID b]} ⊆ routeIDs) as Hsub.
    { intros x [Hx|Hx]%elem_of_union; apply elem_of_singleton in Hx as ->;
        apply elem_of_list_to_set, list_elem_of_fmap; eauto. }
    apply subseteq_size in Hsub.
    rewrite size_union, !size_singleton in Hsub by set_solver.
    exists (size routeIDs). split; [lia|].
    destruct (Nat.ltb_spec 1 (size routeIDs)); [done|lia].
  - intros Hsame.
    destruct (Nat.ltb_spec 1 (size routeIDs)) as [Hlt|Hle]; [|done]. exfalso.
    destruct (size_pos_elem_of routeIDs) as [x Hx]; [lia|].
    assert (routeIDs ⊆ {[x]}) as Hsub.
    { intros y Hy. apply elem_of_singleton.
      apply elem_of_list_to_set, list_elem_of_fmap in Hx as (a & -> & Ha).
      apply elem_of_list_to_set, list_elem_of_fmap in Hy as (b & -> & Hb).
      by apply Hsame. }
    apply subseteq_size in Hsub. rewrite size_singleton in Hsub. lia.
Qed.

(** ** The stages in sequence *)

(** What [handleAttempt] and [handle] do with a start stage that
    returns an error or no segment, and with an end stage that does:
    the later stages are not run (their handlers do not matter), they
    are marked with the stage's fixed reason, and [handle] returns that
    reason, whatever error the stage itself returned. *)
Lemma handleAttempt_start_fails (s : requestHandler) :
  (startHandler s (mkProcessing (handler_req s) [] []) = Ok []
   \/ exists e, startHandler s (mkProcessing (handler_req s) [] []) = Err e) ->
  handleAttempt s = Ok (failedFrom [] (Some ErrNoStartSegments) ErrNoStartSegments)
  /\ handle s = Err ErrNoStartSegments.
Proof.
  intros Hstart. unfold handle, handleAttempt.
  by destruct Hstart as [-> | [e ->]].
Qed.

Lemma handleAttempt_end_fails (s : requestHandler) (startSegs : list segment) :
  startHandler s (mkProcessing (handler_req s) [] []) = Ok startSegs ->
  startSegs ≠ [] ->
  (endHandler s (mkProcessing (handler_req s) startSegs []) = Ok []
   \/ exists e, endHandler s (mkProcessing (handler_req s) startSegs []) = Err e) ->
  handleAttempt s = Ok (failedFrom startSegs None ErrNoEndSegments)
  /\ handle s = Err ErrNoEndSegments.
Proof.
  intros Hstart Hne Hend. unfold handle, handleAttempt. cbn [req callStage].
  rewrite Hstart. cbn [callStage].
  destruct startSegs as [|seg startSegs]; [done|]. cbn [length Nat.eqb].
  by destruct Hend as [-> | [e ->]].
Qed.

(** C5 fails on the code at the error of the start stage. The segments
    [a1] and [a2] share the name "TEST LN" and the cross-street "A ST"
    and lie on routes 1 and 2: start discovery fails with the
    ambiguity error, which [handleAttempt] stores and then overwrites,
    so that the pipeline reports "no start segments found". The same
    happens to every error of the start stage, and of the end stage
    with "no end segments found"; the later stages are not run. *)
Theorem start_error_replaced :
  startDiscovery (loaded [a1; a2])
    (mkProcessing (testRequest "A St" "Nowhere Crs" 1) [] []) = Err (ErrRouteIDs 2)
  /\ handleAttempt (newDefaultRequestHandler noOverrides digitAtoi (loaded [a1; a2])
                      (testRequest "A St" "Nowhere Crs" 1))
     = Ok (failedFrom [] (Some ErrNoStartSegments) ErrNoStartSegments)
  /\ handle (newDefaultRequestHandler noOverrides digitAtoi (loaded [a1; a2])
               (testRequest "A St" "Nowhere Crs" 1))
     = Err ErrNoStartSegments
  /\ (forall (s : requestHandler) (e : error),
        startHandler s (mkProcessing (handler_req s) [] []) = Err e ->
        handleAttempt s = Ok (failedFrom [] (Some ErrNoStartSegments) ErrNoStartSegments)
        /\ handle s = Err ErrNoStartSegments)
  /\ (forall (s : requestHandler) (startSegs : list segment) (e : error),
        startHandler s (mkProcessing (handler_req s) [] []) = Ok startSegs ->
        startSegs ≠ [] ->
        endHandler s (mkProcessing (handler_req s) startSegs []) = Err e ->
        handleAttempt s = Ok (failedFrom startSegs None ErrNoEndSegments)
        /\ handle s = Err ErrNoEndSegments).
Proof.
  split; [vm_compute; reflexivity|]. split; [vm_compute; reflexivity|].
  split; [vm_compute; reflexivity|]. split.
  - intros s e He. apply handleAttempt_start_fails. right. by exists e.
  - intros s startSegs e Hs Hne He.
    apply (handleAttempt_end_fails s startSegs Hs Hne). right. by exists e.
Qed.

(** ** The rank of a request *)

Lemma startDiscovery_rank (st : store) (r1 r2 : request) (ss es : list segment) :
  sameButRank r1 r2 ->
  startDiscovery st (mkProcessing r1 ss es) = startDiscovery st (mkProcessing r2 ss es).
Proof.
  intros (Hn & Hf & _). unfold startDiscovery, startFilter; simpl. by rewrite Hn, Hf.
Qed.

Lemma endDiscovery_rank (st : store) (r1 r2 : request) (ss es : list segment) :
  sameButRank r1 r2 ->
  endDiscovery st (mkProcessing r1 ss es) = endDiscovery st (mkProcessing r2 ss es).
Proof.
  intros (_ & _ & Ht & _). unfold endDiscovery; simpl. by rewrite Ht.
Qed.

Lemma routeDiscovery_rank (st : store) (r1 r2 : request) (ss es : list segment) :
  sameButRank r1 r2 ->
  routeDiscovery st (mkProcessing r1 ss es) = routeDiscovery st (mkProcessing r2 ss es).
Proof.
  intros (_ & Hf & Ht & _). unfold routeDiscovery. cbn [req startSegments endSegments].
  by rewrite Hf, Ht.
Qed.

Lemma overrideDiscovery_rank (overrides : Z -> string -> overrideFile)
    (Atoi : string -> option Z) (when : string) (st : store) (next : stage)
    (r1 r2 : request) (ss es : list segment) :
  overrides (req_rank r1) when = overrides (req_rank r2) when ->
  next (mkProcessing r1 ss es) = next (mkProcessing r2 ss es) ->
  overrideDiscovery overrides Atoi when st next (mkProcessing r1 ss es)
  = overrideDiscovery overrides Atoi when st next (mkProcessing r2 ss es).
Proof.
  intros Ho Hn. unfold overrideDiscovery. cbn [req]. by rewrite Ho, Hn.
Qed.

(** C9, as the code has it. The discovery stages proper do not read
    the rank: on two requests that differ in their rank only, each of
    them returns the same. The pipeline reads the rank to look up the
    override files of the stages: two such requests are resolved alike
    against one store when the override source answers alike for their
    ranks at each of the three stages. *)
Theorem rank_only_selects_overrides (overrides : Z -> string -> overrideFile)
    (Atoi : string -> option Z) (st : store) (r1 r2 : request) :
  sameButRank r1 r2 ->
  (forall ss es,
     startDiscovery st (mkProcessing r1 ss es) = startDiscovery st (mkProcessing r2 ss es)
     /\ endDiscovery st (mkProcessing r1 ss es) = endDiscovery st (mkProcessing r2 ss es)
     /\ routeDiscovery st (mkProcessing r1 ss es) = routeDiscovery st (mkProcessing r2 ss es))
  /\ ((forall when, when ∈ ["start"; "end"; "route"] ->
         overrides (req_rank r1) when = overrides (req_rank r2) when) ->
      handleAttempt (newDefaultRequestHandler overrides Atoi st r1)
      = handleAttempt (newDefaultRequestHandler overrides Atoi st r2)
      /\ handle (newDefaultRequestHandler overrides Atoi st r1)
         = handle (newDefaultRequestHandler overrides Atoi st r2)).
Proof.
  intros Hsame. split.
  - intros ss es. split; [by apply startDiscovery_rank|].
    split; [by apply endDiscovery_rank|by apply routeDiscovery_rank].
  - intros Hov.
    assert (handleAttempt (newDefaultRequestHandler overrides Atoi st r1)
            = handleAttempt (newDefaultRequestHandler overrides Atoi st r2)) as Hatt.
    { assert (overrides (req_rank r1) "start" = overrides (req_rank r2) "start") as Hs
        by (apply Hov; set_solver).
      assert (overrides (req_rank r1) "end" = overrides (req_rank r2) "end") as He
        by (apply Hov; set_solver).
      assert (overrides (req_rank r1) "route" = overrides (req_rank r2) "route") as Hr
        by (apply Hov; set_solver).
      unfold handleAttempt, newDefaultRequestHandler.
      cbn [handler_req startHandler endHandler routeHandler req startSegments].
      rewrite (overrideDiscovery_rank overrides Atoi "start" st _ r1 r2 [] [] Hs
                 (startDiscovery_rank st r1 r2 [] [] Hsame)).
      destruct (overrideDiscovery overrides Atoi "start" st (startDiscovery st)
                  (mkProcessing r2 [] [])) as [segs|e| |]; try done.
      all: cbn [callStage].
      all: destruct (length _ =? 0)%nat; [done|].
      all: rewrite (overrideDiscovery_rank overrides Atoi "end" st _ r1 r2 _ [] He
                      (endDiscovery_rank st r1 r2 _ [] Hsame)).
      all: destruct (overrideDiscovery overrides Atoi "end" st (endDiscovery st) _)
             as [esegs|e'| |]; try done.
      all: cbn [callStage].
      all: destruct (length _ =? 0)%nat; [done|].
      all: by rewrite (overrideDiscovery_rank overrides Atoi "route" st _ r1 r2 _ _ Hr
                         (routeDiscovery_rank st r1 r2 _ _ Hsame)). }
    split; [done|]. unfold handle. by rewrite Hatt.
Qed.

Lemma rank_only_selects_overrides_witness :
  handle (newDefaultRequestHandler startOverride1 digitAtoi (loaded [s1; s2; s3; s4; irr])
            (testRequest "A St" "E St" 2))
  = handle (newDefaultRequestHandler startOverride1 digitAtoi (loaded [s1; s2; s3; s4; irr])
              (testRequest "A St" "E St" 3)).
Proof.
  refine (proj2 (proj2 (rank_only_selects_overrides startOverride1 digitAtoi
                          (loaded [s1; s2; s3; s4; irr])
                          (testRequest "A St" "E St" 2) (testRequest "A St" "E St" 3)
                          _) _)).
  - repeat split.
  - intros when _. reflexivity.
Defined.

(** C9, as stated, fails. With the override file [overrides/1.start]
    naming segment 2, the request of rank 1 starts at [s2] and the
    request of rank 2, the same in everything else, at [s1]; their
    routes differ. *)
Lemma rank_changes_resolution :
  ~ (forall (overrides : Z -> string -> overrideFile) (Atoi : string -> option Z)
            (st : store) (r1 r2 : request),
       sameButRank r1 r2 ->
       handle (newDefaultRequestHandler overrides Atoi st r1)
       = handle (newDefaultRequestHandler overrides Atoi st r2)).
Proof.
  intros H.
  specialize (H startOverride1 digitAtoi (loaded [s1; s2; s3; s4; irr])
                (testRequest "A St" "E St" 1) (testRequest "A St" "E St" 2)).
  assert (handle (newDefaultRequestHandler startOverride1 digitAtoi
                    (loaded [s1; s2; s3; s4; irr]) (testRequest "A St" "E St" 1))
          = Ok (mkRequestResult [s2] [s4] [s2; s3; s4])) as H1
    by (vm_compute; reflexivity).
  assert (handle (newDefaultRequestHandler startOverride1 digitAtoi
                    (loaded [s1; s2; s3; s4; irr]) (testRequest "A St" "E St" 2))
          = Ok (mkRequestResult [s1] [s4] [s1; s2; s3; s4])) as H2
    by (vm_compute; reflexivity).
  assert (sameButRank (testRequest "A St" "E St" 1) (testRequest "A St" "E St" 2)) as Hsame
    by (unfold sameButRank; repeat split).
  specialize (H Hsame). rewrite H1, H2 in H. discriminate.
Qed.

(** ** Loading a batch *)

(** A row is inserted at its place in the order of the table. *)
Lemma insertRow_perm (seg : segment) (tbl : list segment) :
  insertRow seg tbl ≡ₚ tbl ++ [seg].
Proof.
  induction tbl as [|row tbl IH]; cbn [insertRow]; [done|].
  destruct (seg_id seg <? seg_id row).
  - by rewrite (Permutation_app_comm (row :: tbl) [seg]).
  - cbn. by rewrite IH.
Qed.

Lemma insertRow_sorted (seg : segment) (tbl : list segment) :
  tableOrder tbl -> seg_id seg ∉ seg_id <$> tbl -> tableOrder (insertRow seg tbl).
Proof.
  unfold tableOrder. induction tbl as [|row tbl IH]; cbn [insertRow]; intros Hs Hn.
  - repeat constructor.
  - apply StronglySorted_inv in Hs as [Hs Hrow].
    rewrite fmap_cons, not_elem_of_cons in Hn. destruct Hn as [Hne Hn].
    destruct (Z.ltb_spec (seg_id seg) (seg_id row)) as [Hlt|Hge].
    + constructor; [by constructor|]. constructor; [done|].
      eapply Forall_impl; [exact Hrow|]. cbv beta. intros; lia.
    + constructor; [by apply IH|].
      rewrite (insertRow_perm seg tbl). apply Forall_app. split; [done|].
      constructor; [lia|constructor].
Qed.

(** The first transaction: all the segments are inserted, each at its
    place in the order of the table, or the loop stops at a segment
    that cannot be encoded or whose id is taken. *)
Lemma insertSegments_spec (todo : list segment) (routeSegments : gmap Z (list segment))
    (tbl : list segment) :
  match insertSegments todo routeSegments tbl with
  | Ok (_, tbl') => tableWith tbl todo tbl'
  | Err e => exists id, e = ErrMarshal id \/ e = ErrPrimaryKey id
  | Panic | OutOfFuel => False
  end.
Proof.
  revert routeSegments tbl. induction todo as [|seg todo IH]; intros m tbl; simpl.
  - split; [by rewrite app_nil_r|done].
  - destruct (marshalSegment seg); simpl; [|by eexists; left].
    destruct (contains (seg_id <$> tbl) (seg_id seg)) eqn:Hc; [by eexists; right|].
    apply contains_not_elem_of in Hc.
    specialize (IH (<[seg_routeID seg:=(m !!! seg_routeID seg) ++ [seg]]> m)
                  (insertRow seg tbl)).
    destruct (insertSegments todo _ (insertRow seg tbl)) as [[m' tbl']|e| |]; try done.
    destruct IH as [Hperm Hsorted]. split.
    + by rewrite Hperm, insertRow_perm, <- app_assoc.
    + intros Hs. by apply Hsorted, insertRow_sorted.
Qed.

(** The primary key survives the first transaction. *)
Lemma insertSegments_wf (todo : list segment) (routeSegments routeSegments' : gmap Z (list segment))
    (tbl tbl' : list segment) :
  NoDup (seg_id <$> tbl) ->
  insertSegments todo routeSegments tbl = Ok (routeSegments', tbl') ->
  NoDup (seg_id <$> tbl').
Proof.
  revert routeSegments tbl. induction todo as [|seg todo IH]; intros m tbl Hnd; simpl.
  - by intros [= _ <-].
  - destruct (marshalSegment seg); simpl; [|done].
    destruct (contains (seg_id <$> tbl) (seg_id seg)) eqn:Hc; [done|].
    apply IH. rewrite insertRow_perm, fmap_app. apply NoDup_app. split; [done|].
    split; [|apply NoDup_singleton].
    intros x Hx ->%list_elem_of_singleton. by apply contains_not_elem_of in Hc.
Qed.

(** The second transaction: the rows of every route are appended, or
    the loop stops at a pairing the switch does not list. *)
Lemma insertLinks_spec (Distance : Point -> Point -> float)
    (routes : list (Z * list segment)) (rows0 : list link) :
  match insertLinks Distance routes rows0 with
  | Ok rows => rows = rows0 ++ loadEdges (isClose Distance) routes
  | Err e =>
      exists route cur next,
        route ∈ routes /\ cur ∈ route.2 /\ next ∈ route.2
        /\ unknownPair (isClose Distance) cur next
        /\ e = ErrUnknownDirectionPair cur next
  | Panic | OutOfFuel => False
  end.
Proof.
  revert rows0. induction routes as [|[rid routeSegs] routes IH]; intros rows0; simpl.
  - by rewrite app_nil_r.
  - pose proof (routeLinkRows_spec Distance routeSegs routeSegs rows0) as Hr.
    destruct (routeLinkRows Distance routeSegs routeSegs rows0) as [rows|e| |]; try done.
    + destruct Hr as [-> _]. specialize (IH (rows0 ++ routeEdges (isClose Distance) routeSegs routeSegs)).
      destruct (insertLinks Distance routes _) as [rows|e| |]; try done.
      * rewrite IH. unfold loadEdges. simpl. by rewrite <- app_assoc.
      * destruct IH as (route & cur & next & Hin & ?). exists route, cur, next.
        split; [by apply elem_of_cons; right|done].
    + destruct Hr as (cur & next & Hc & Hn & Hu & ->). exists (rid, routeSegs), cur, next.
      split; [by apply elem_of_cons; left|done].
Qed.

(** The map [routeSegments] groups the batch by route. *)
Lemma insertSegments_groups (todo : list segment) (m m' : gmap Z (list segment))
    (tbl tbl' : list segment) :
  insertSegments todo m tbl = Ok (m', tbl') ->
  (forall rid, m' !!! rid = (m !!! rid) ++ routeGroup todo rid)
  /\ dom m' = dom m ∪ list_to_set (seg_routeID <$> todo).
Proof.
  revert m tbl. induction todo as [|seg todo IH]; intros m tbl; simpl.
  - intros [= <- _]. split; [intros rid; by rewrite app_nil_r|set_solver].
  - destruct (marshalSegment seg); simpl; [|done].
    destruct (contains (seg_id <$> tbl) (seg_id seg)); [done|].
    intros [Hl Hd]%IH. split.
    + intros rid. rewrite Hl. destruct (Z.eqb_spec (seg_routeID seg) rid) as [->|Hne].
      * by rewrite lookup_total_insert_eq, <- app_assoc.
      * by rewrite lookup_total_insert_ne.
    + rewrite Hd, dom_insert_L. set_solver.
Qed.

Lemma routeGroup_elem_of (segs : list segment) (rid : Z) (seg : segment) :
  seg ∈ routeGroup segs rid <-> seg ∈ segs /\ seg_routeID seg = rid.
Proof.
  unfold routeGroup. by rewrite list_elem_of_In, filter_In, <- list_elem_of_In, Z.eqb_eq.
Qed.

(** The entries of [routeSegments] after the first loop: one for each
    route of the batch, holding the segments of the batch on it. *)
Lemma insertSegments_routes (segs : list segment) (m' : gmap Z (list segment))
    (tbl tbl' : list segment) (rid : Z) (l : list segment) :
  insertSegments segs ∅ tbl = Ok (m', tbl') ->
  (rid, l) ∈ map_to_list m' <->
  rid ∈ seg_routeID <$> segs /\ l = routeGroup segs rid.
Proof.
  intros [Hl Hd]%insertSegments_groups.
  rewrite elem_of_map_to_list. split.
  - intros Hm. split.
    + assert (rid ∈ dom m') as Hin by (apply elem_of_dom; by exists l).
      rewrite Hd in Hin. set_solver.
    + specialize (Hl rid). rewrite lookup_total_alt, Hm in Hl. simpl in Hl.
      by rewrite lookup_total_empty in Hl.
  - intros [Hin ->].
    assert (rid ∈ dom m') as [l Hm]%elem_of_dom by (rewrite Hd; set_solver).
    specialize (Hl rid). rewrite lookup_total_alt, Hm in Hl. simpl in Hl.
    rewrite lookup_total_empty in Hl. by rewrite Hm, Hl.
Qed.

(** C4, as the code has it. [loadSegments] runs two transactions, one
    after the other. The first inserts the segments of the batch and
    is committed as a whole: when an insert fails (a point that cannot
    be encoded, an id already taken) the call returns the error and
    the store is as before. The second inserts the adjacency rows of
    the routes of the batch and is committed as a whole: when
    adjacency construction fails on a pairing of directions that is
    not enumerated, the call returns the error and the store holds all
    the segments of the batch and no row of it. When both are
    committed the store holds the segments and the rows of the batch;
    the call then creates the index and fails when the index exists.
    The table of segments holds its old rows and the batch, in the
    order of the primary key when it was in that order before. *)
Theorem load_is_two_transactions (Distance : Point -> Point -> float)
    (rangeOrder : list (Z * list segment) -> list (Z * list segment))
    (st : store) (segs : list segment) :
  (forall routes, rangeOrder routes ≡ₚ routes) ->
  match loadSegments Distance rangeOrder st segs with
  | (st', Ok _) =>
      tableWith (segments st) segs (segments st')
      /\ (exists routes,
            (forall rid l, (rid, l) ∈ routes <->
               rid ∈ seg_routeID <$> segs /\ l = routeGroup segs rid)
            /\ segment_links st' = segment_links st ++ loadEdges (isClose Distance) routes)
      /\ segment_links_id st = false /\ segment_links_id st' = true
  | (st', Err (ErrUnknownDirectionPair cur next)) =>
      tableWith (segments st) segs (segments st')
      /\ segment_links st' = segment_links st
      /\ segment_links_id st' = segment_links_id st
      /\ cur ∈ segs /\ next ∈ segs /\ seg_routeID cur = seg_routeID next
      /\ unknownPair (isClose Distance) cur next
  | (st', Err ErrIndexExists) =>
      tableWith (segments st) segs (segments st')
      /\ (exists routes,
            (forall rid l, (rid, l) ∈ routes <->
               rid ∈ seg_routeID <$> segs /\ l = routeGroup segs rid)
            /\ segment_links st' = segment_links st ++ loadEdges (isClose Distance) routes)
      /\ segment_links_id st = true /\ segment_links_id st' = true
  | (st', Err (ErrMarshal _)) | (st', Err (ErrPrimaryKey _)) => st' = st
  | (_, Err _) | (_, Panic) | (_, OutOfFuel) => False
  end.
Proof.
  intros Hperm. unfold loadSegments.
  pose proof (insertSegments_spec segs ∅ (segments st)) as Hseg.
  destruct (insertSegments segs ∅ (segments st)) as [[routeSegments tbl]|e| |] eqn:Hins;
    try done.
  2:{ by destruct Hseg as (id & [-> | ->]). }
  cbn [segments segment_links segment_links_id].
  assert (forall rid l, (rid, l) ∈ rangeOrder (map_to_list routeSegments) <->
            rid ∈ seg_routeID <$> segs /\ l = routeGroup segs rid) as Hroutes.
  { intros rid l. rewrite (Hperm (map_to_list routeSegments)).
    by apply (insertSegments_routes segs routeSegments (segments st) tbl rid l). }
  pose proof (insertLinks_spec Distance (rangeOrder (map_to_list routeSegments))
                (segment_links st)) as Hlinks.
  destruct (insertLinks Distance (rangeOrder (map_to_list routeSegments)) (segment_links st))
    as [rows|e| |]; try done.
  - subst rows. destruct (segment_links_id st) eqn:Hidx; (split; [exact Hseg|]); cbn; eauto 10.
  - destruct Hlinks as ([rid l] & cur & next & Hroute & Hcur & Hnext & Hu & ->). cbn.
    apply Hroutes in Hroute as [_ ->]. simpl in Hcur, Hnext.
    apply routeGroup_elem_of in Hcur as [Hcur Hrc], Hnext as [Hnext Hrn].
    split; [exact Hseg|]. repeat split; try done; try congruence. all: by destruct Hu.
Qed.

(** The primary key survives a load. *)
Lemma loadSegments_wf (Distance : Point -> Point -> float)
    (rangeOrder : list (Z * list segment) -> list (Z * list segment))
    (st : store) (segs : list segment) :
  store_wf st -> store_wf (loadSegments Distance rangeOrder st segs).1.
Proof.
  intros Hwf. unfold loadSegments.
  destruct (insertSegments segs ∅ (segments st)) as [[routeSegments tbl]|e| |] eqn:Hins;
    try done.
  apply insertSegments_wf in Hins; [|done].
  cbn [segments segment_links segment_links_id].
  destruct (insertLinks _ _ _) as [rows|e| |]; try done.
  by destruct (segment_links_id st).
Qed.

Lemma load_is_two_transactions_witness :
  match loadSegments planarDistance inOrder emptyStore [u1; u2] with
  | (st', Err (ErrUnknownDirectionPair cur next)) =>
      tableWith (segments emptyStore) [u1; u2] (segments st')
      /\ segment_links st' = segment_links emptyStore
      /\ segment_links_id st' = segment_links_id emptyStore
      /\ cur ∈ [u1; u2] /\ next ∈ [u1; u2] /\ seg_routeID cur = seg_routeID next
      /\ unknownPair (isClose planarDistance) cur next
  | _ => False
  end.
Proof.
  pose proof (load_is_two_transactions planarDistance inOrder emptyStore [u1; u2]
                (fun routes => reflexivity (inOrder routes))) as H.
  destruct (loadSegments planarDistance inOrder emptyStore [u1; u2]) as [st' [u|e| |]] eqn:Hload;
    vm_compute in Hload; try discriminate.
  destruct e; try discriminate. exact H.
Defined.

(** C4, as stated, fails. A batch of two segments of one route whose
    directions are both "FDTO" makes adjacency construction fail; the
    store, empty before, holds both segments afterwards: the insert of
    the segments was committed before the adjacency rows were built. *)
Lemma load_failure_keeps_segments :
  ~ (forall (Distance : Point -> Point -> float)
            (rangeOrder : list (Z * list segment) -> list (Z * list segment))
            (st st' : store) (segs : list segment) (e : error),
       loadSegments Distance rangeOrder st segs = (st', Err e) -> st' = st).
Proof.
  intros H.
  specialize (H planarDistance inOrder emptyStore (mkStore [u1; u2] [] false) [u1; u2]
                (ErrUnknownDirectionPair u1 u2)).
  specialize (H ltac:(vm_compute; reflexivity)). discriminate.
Qed.

Lemma loadSegments_wf_witness :
  store_wf (loadSegments planarDistance inOrder emptyStore [s1; s2; s1]).1.
Proof.
  apply (loadSegments_wf planarDistance inOrder emptyStore [s1; s2; s1]).
  apply NoDup_nil_2.
Defined.
(** * Further properties *)

(** ** Lookups in the store *)

Lemma filterSegments_elem_of (st : store) (filter : segmentFilter) (seg : segment) :
  seg ∈ filterSegments st filter <->
  seg ∈ segments st
  /\ (ids filter = [] \/ seg_id seg ∈ ids filter)
  /\ (fullNames filter = [] \/ exists fn, fn ∈ fullNames filter /\ seg_name seg = upper fn)
  /\ (routeIDs filter = [] \/ seg_routeID seg ∈ routeIDs filter)
  /\ (endStreets filter = []
      \/ exists es, es ∈ endStreets filter
                    /\ (upper es = seg_from seg \/ upper es = seg_to seg)).
Proof.
  unfold filterSegments.
  rewrite list_elem_of_In, filter_In, <- list_elem_of_In.
  unfold filterWhere. rewrite !andb_true_iff, !dimension_spec.
  assert ((exists x, x ∈ ids filter /\ (seg_id seg =? x) = true) <-> seg_id seg ∈ ids filter)
    as ->.
  { split; [by intros (x & Hx & ->%Z.eqb_eq)|]. intros Hx. exists (seg_id seg).
    split; [done|apply Z.eqb_refl]. }
  assert ((exists x, x ∈ routeIDs filter /\ (seg_routeID seg =? x) = true)
          <-> seg_routeID seg ∈ routeIDs filter) as ->.
  { split; [by intros (x & Hx & ->%Z.eqb_eq)|]. intros Hx. exists (seg_routeID seg).
    split; [done|apply Z.eqb_refl]. }
  assert ((exists x, x ∈ fullNames filter /\ String.eqb (seg_name seg) (upper x) = true)
          <-> exists fn, fn ∈ fullNames filter /\ seg_name seg = upper fn) as ->.
  { split; intros (x & Hx & Heq); exists x; (split; [done|]); by apply String.eqb_eq. }
  assert ((exists x, x ∈ endStreets filter
                     /\ String.eqb (upper x) (seg_from seg)
                        || String.eqb (upper x) (seg_to seg) = true)
          <-> exists es, es ∈ endStreets filter
                         /\ (upper es = seg_from seg \/ upper es = seg_to seg)) as ->.
  { split; intros (x & Hx & Heq); exists x; (split; [done|]).
    - apply orb_true_iff in Heq. by rewrite !String.eqb_eq in Heq.
    - apply orb_true_iff. by rewrite !String.eqb_eq. }
  tauto.
Qed.

Lemma filterSegments_sublist (st : store) (filter : segmentFilter) :
  filterSegments st filter `sublist_of` segments st.
Proof.
  unfold filterSegments. induction (segments st) as [|seg segs IH]; simpl; [done|].
  destruct (filterWhere filter seg); [by apply sublist_skip|by apply sublist_cons].
Qed.

(** The filter of [filterSegments]: a row passes when it passes every
    dimension that is given, and it passes a dimension when it matches
    one of its values; the rows come in the order of the table, and
    the empty filter selects them all. *)
Theorem filterSegments_contract (st : store) (filter : segmentFilter) :
  (forall seg,
     seg ∈ filterSegments st filter <->
     seg ∈ segments st
     /\ (ids filter = [] \/ seg_id seg ∈ ids filter)
     /\ (fullNames filter = [] \/ exists fn, fn ∈ fullNames filter /\ seg_name seg = upper fn)
     /\ (routeIDs filter = [] \/ seg_routeID seg ∈ routeIDs filter)
     /\ (endStreets filter = []
         \/ exists es, es ∈ endStreets filter
                       /\ (upper es = seg_from seg \/ upper es = seg_to seg)))
  /\ filterSegments st filter `sublist_of` segments st
  /\ filterSegments st (mkFilter [] [] [] []) = segments st.
Proof.
  split; [|split].
  - apply filterSegments_elem_of.
  - apply filterSegments_sublist.
  - unfold filterSegments. induction (segments st) as [|seg segs IH]; simpl; [done|].
    by rewrite IH.
Qed.

(** ** The adjacency map of a route *)

Lemma routeLinks_fold (rows : list (Z * Z)) (links : gmap Z (list Z)) (k : Z) :
  fold_left (fun links row => <[row.1 := (links !!! row.1) ++ [row.2]]> links) rows links !!! k
  = (links !!! k) ++ (snd <$> List.filter (fun row => row.1 =? k) rows).
Proof.
  revert links. induction rows as [|row rows IH]; intros links; simpl.
  - by rewrite app_nil_r.
  - rewrite IH. destruct (Z.eqb_spec row.1 k) as [->|Hne].
    + by rewrite lookup_total_insert_eq, <- app_assoc.
    + by rewrite lookup_total_insert_ne.
Qed.

Lemma routeLinks_fold_dom (rows : list (Z * Z)) (links : gmap Z (list Z)) :
  dom (fold_left (fun links row => <[row.1 := (links !!! row.1) ++ [row.2]]> links) rows links)
  = dom links ∪ list_to_set (fst <$> rows).
Proof.
  revert links. induction rows as [|row rows IH]; intros links; simpl; [set_solver|].
  rewrite IH, dom_insert_L. set_solver.
Qed.

(** [routeLinks] maps a segment to the [next_id]s of its rows of the
    route, in the order of the table; a segment without such a row is
    no key. The graph [route] searches for a segment of the route has
    the same successors. *)
Theorem routeLinks_rows (st : store) (routeID : Z) :
  (forall id,
     routeLinks st routeID !!! id
     = link_next_id
         <$> List.filter (fun l => (link_route_id l =? routeID) && (link_id l =? id))
               (segment_links st))
  /\ (forall id,
        id ∈ dom (routeLinks st routeID) <->
        exists l, l ∈ segment_links st /\ link_route_id l = routeID /\ link_id l = id)
  /\ (forall fromID id,
        routeIDOf st fromID = Some routeID ->
        buildGraph fromID (queryLinks st fromID) !!! id = routeLinks st routeID !!! id).
Proof.
  assert (forall id,
            routeLinks st routeID !!! id
            = snd <$> List.filter (fun row => row.1 =? id)
                        ((fun l => (link_id l, link_next_id l))
                           <$> List.filter (fun l => link_route_id l =? routeID)
                                 (segment_links st))) as Hrows.
  { intros id. unfold routeLinks. by rewrite routeLinks_fold, lookup_total_empty. }
  split; [|split].
  - intros id. rewrite Hrows. clear Hrows.
    induction (segment_links st) as [|l ls IH]; simpl; [done|].
    destruct (link_route_id l =? routeID); simpl; [|exact IH].
    destruct (link_id l =? id); simpl; [f_equal; exact IH|exact IH].
  - intros id. unfold routeLinks. rewrite routeLinks_fold_dom, dom_empty_L, union_empty_l_L.
    rewrite elem_of_list_to_set, list_elem_of_fmap. split.
    + intros ([a b] & Hid & (l & Heq & Hin)%list_elem_of_fmap).
      injection Heq as -> ->. simpl in Hid. subst id.
      apply list_elem_of_In, filter_In in Hin as [Hin Hr].
      exists l. split; [by apply list_elem_of_In|].
      split; [by apply Z.eqb_eq|done].
    + intros (l & Hin & Hr & Hid). exists (link_id l, link_next_id l). split; [done|].
      apply list_elem_of_fmap. exists l. split; [done|].
      apply list_elem_of_In, filter_In. split; [by apply list_elem_of_In|by apply Z.eqb_eq].
  - intros fromID id Hroute. rewrite buildGraph_lookup_total, Hrows.
    unfold queryLinks. by rewrite Hroute.
Qed.

(** ** The discovery stages *)

Lemma upperAscii_quote (c : ascii) :
  Ascii.eqb (upperAscii c) "'"%char = Ascii.eqb c "'"%char.
Proof. by destruct c as [[|] [|] [|] [|] [|] [|] [|] [|]]. Qed.

Lemma upperAscii_idem (c : ascii) : upperAscii (upperAscii c) = upperAscii c.
Proof. by destruct c as [[|] [|] [|] [|] [|] [|] [|] [|]]. Qed.

Lemma upperAscii_lower (c : ascii) : upperAscii (lowerAscii c) = upperAscii c.
Proof. by destruct c as [[|] [|] [|] [|] [|] [|] [|] [|]]. Qed.

Lemma lowerAscii_quote (c : ascii) :
  Ascii.eqb (lowerAscii c) "'"%char = Ascii.eqb c "'"%char.
Proof. by destruct c as [[|] [|] [|] [|] [|] [|] [|] [|]]. Qed.

(** Dropping the quotes and raising the letters can be done in either
    order and need not be done twice; lowering the letters first
    changes nothing. *)
Lemma stripQuotes_upper (s : string) : stripQuotes (upper s) = upper (stripQuotes s).
Proof.
  induction s as [|c s IH]; simpl; [done|]. rewrite upperAscii_quote.
  destruct (Ascii.eqb c "'"%char); simpl; by rewrite IH.
Qed.

Lemma upper_idem (s : string) : upper (upper s) = upper s.
Proof. induction s as [|c s IH]; simpl; [done|]. by rewrite upperAscii_idem, IH. Qed.

Lemma stripQuotes_idem (s : string) : stripQuotes (stripQuotes s) = stripQuotes s.
Proof.
  induction s as [|c s IH]; simpl; [done|].
  destruct (Ascii.eqb c "'"%char) eqn:Hc; simpl; [done|]. by rewrite Hc, IH.
Qed.

Lemma upper_toLower (s : string) : upper (toLower s) = upper s.
Proof. induction s as [|c s IH]; simpl; [done|]. by rewrite upperAscii_lower, IH. Qed.

Lemma stripQuotes_toLower (s : string) : stripQuotes (toLower s) = toLower (stripQuotes s).
Proof.
  induction s as [|c s IH]; simpl; [done|]. rewrite lowerAscii_quote.
  destruct (Ascii.eqb c "'"%char); simpl; by rewrite IH.
Qed.

Lemma filter_ext_bool {A} (f g : A -> bool) (l : list A) :
  (forall x, f x = g x) -> List.filter f l = List.filter g l.
Proof.
  intros Hfg. induction l as [|x l IH]; simpl; [done|]. by rewrite Hfg, IH.
Qed.

(** Start discovery reads the street name and the [from] cross-street
    of a request only after dropping their quotes and raising their
    letters, and else only whether [from] is empty: two requests that
    agree on these get the same answer, whatever their other fields
    and whatever start and end segments come with them. Writing a name
    in upper or lower case, or without its quotes, changes nothing. *)
Theorem startDiscovery_normalised (st : store) (r1 r2 : request)
    (ss1 es1 ss2 es2 : list segment) :
  upper (stripQuotes (req_streetName r1)) = upper (stripQuotes (req_streetName r2)) ->
  upper (stripQuotes (req_from r1)) = upper (stripQuotes (req_from r2)) ->
  (req_from r1 = "" <-> req_from r2 = "") ->
  startDiscovery st (mkProcessing r1 ss1 es1) = startDiscovery st (mkProcessing r2 ss2 es2)
  /\ (forall s, upper (stripQuotes (upper s)) = upper (stripQuotes s)
                /\ upper (stripQuotes (toLower s)) = upper (stripQuotes s)
                /\ upper (stripQuotes (stripQuotes s)) = upper (stripQuotes s)).
Proof.
  intros Hname Hfrom Hempty. split.
  - unfold startDiscovery. cbn [req].
    assert (filterSegments st (startFilter r1) = filterSegments st (startFilter r2)) as ->;
      [|done].
    apply filter_ext_bool. intros seg. unfold filterWhere, startFilter, dimension.
    cbn [ids fullNames routeIDs endStreets existsb]. rewrite Hname.
    destruct (String.eqb_spec (req_from r1) "") as [H1|H1],
             (String.eqb_spec (req_from r2) "") as [H2|H2]; try tauto.
    cbn [existsb]. by rewrite Hfrom.
  - intros s. rewrite stripQuotes_upper, upper_idem, stripQuotes_toLower, upper_toLower.
    by rewrite stripQuotes_idem.
Qed.

Lemma startDiscovery_normalised_witness :
  startDiscovery (loaded [s1; s2; irr])
    (mkProcessing (mkRequest "Test'n Ln" "A'n St" "B St" "" 1) [] [])
  = startDiscovery (loaded [s1; s2; irr])
      (mkProcessing (mkRequest "testn LN" "AN st" "" "7" 9) [s1] [s2]).
Proof.
  refine (proj1 (startDiscovery_normalised (loaded [s1; s2; irr])
                   (mkRequest "Test'n Ln" "A'n St" "B St" "" 1)
                   (mkRequest "testn LN" "AN st" "" "7" 9) [] [] [s1] [s2] _ _ _)).
  - reflexivity.
  - reflexivity.
  - split; discriminate.
Defined.

(** End discovery looks at the first start segment only, and only at
    its route: it returns, in the order of the table, the stored
    segments of that route, all of them when [to] is empty and else
    those with the cross-street [to] (quotes dropped, letters raised)
    at either end. It never fails; without a start segment it panics. *)
Theorem endDiscovery_on_route (st : store) (r : request) (es : list segment) :
  endDiscovery st (mkProcessing r [] es) = Panic
  /\ forall start0 rest,
       exists segs,
         endDiscovery st (mkProcessing r (start0 :: rest) es) = Ok segs
         /\ segs `sublist_of` segments st
         /\ forall seg,
              seg ∈ segs <->
              seg ∈ segments st
              /\ seg_routeID seg = seg_routeID start0
              /\ (req_to r = ""
                  \/ upper (stripQuotes (req_to r)) = seg_from seg
                  \/ upper (stripQuotes (req_to r)) = seg_to seg).
Proof.
  split; [done|]. intros start0 rest. eexists. split; [reflexivity|].
  cbn [req].
  set (filter := mkFilter [] [] [seg_routeID start0]
                   (if String.eqb (req_to r) "" then [] else [stripQuotes (req_to r)])).
  pose proof (fun seg => filterSegments_elem_of st filter seg) as Hin.
  pose proof (filterSegments_sublist st filter) as Hsub.
  split; [done|]. intros seg. rewrite Hin. unfold filter. cbn [ids fullNames routeIDs endStreets].
  rewrite list_elem_of_singleton.
  destruct (String.eqb_spec (req_to r) "") as [Hto|Hto].
  - split; [intros (? & _ & _ & [[=]|?] & _); auto|].
    intros (? & ? & _). repeat split; auto.
  - split.
    + intros (? & _ & _ & [[=]|?] & [[=]|(es' & ->%list_elem_of_singleton & Hes)]).
      repeat split; auto.
    + intros (? & ? & [?|Hes]); [done|]. repeat split; auto.
      right. exists (stripQuotes (req_to r)). split; [by apply list_elem_of_singleton|done].
Qed.

(** For a request without [from] and [to], route discovery returns the
    stored segments of the route of the first start segment, in the
    order of the table, whatever the end segments and the adjacency
    rows are: no path is searched, so the call cannot fail. With
    unique ids in the store no segment comes twice. *)
Theorem routeDiscovery_whole_street (st : store) (r : request) (start0 : segment)
    (rest ends : list segment) :
  req_from r = "" -> req_to r = "" ->
  routeDiscovery st (mkProcessing r (start0 :: rest) ends)
  = Ok (List.filter (fun seg => seg_routeID seg =? seg_routeID start0) (segments st))
  /\ (store_wf st ->
      NoDup (seg_id <$> List.filter (fun seg => seg_routeID seg =? seg_routeID start0)
                          (segments st))).
Proof.
  intros Hfrom Hto. split.
  - unfold routeDiscovery. cbn [req startSegments]. rewrite Hfrom, Hto. simpl.
    f_equal. apply filter_ext_bool. intros seg. unfold filterWhere, dimension.
    cbn [ids fullNames routeIDs endStreets existsb]. by rewrite orb_false_r, andb_true_r.
  - intros Hwf. by apply NoDup_fmap_filter.
Qed.

Lemma routeDiscovery_whole_street_witness :
  routeDiscovery (loaded [s1; irr; s3]) (mkProcessing (testRequest "" "" 4) [s3] [])
  = Ok (List.filter (fun seg => seg_routeID seg =? seg_routeID s3)
          (segments (loaded [s1; irr; s3])))
  /\ (store_wf (loaded [s1; irr; s3]) ->
      NoDup (seg_id <$> List.filter (fun seg => seg_routeID seg =? seg_routeID s3)
                          (segments (loaded [s1; irr; s3])))).
Proof.
  apply (routeDiscovery_whole_street (loaded [s1; irr; s3]) (testRequest "" "" 4) s3 [] []);
    reflexivity.
Defined.

(** ** Overrides *)

Lemma scanIDs_spec (Atoi : string -> option Z) (lines : list string) (ids0 : list Z) :
  match scanIDs Atoi lines ids0 with
  | Ok ids' =>
      exists ids1, ids' = ids0 ++ ids1 /\ Forall2 (fun line id => Atoi line = Some id) lines ids1
  | Err e =>
      exists good bad rest,
        lines = good ++ bad :: rest /\ Atoi bad = None /\ e = ErrAtoi bad
        /\ Forall (fun line => is_Some (Atoi line)) good
  | Panic | OutOfFuel => False
  end.
Proof.
  revert ids0. induction lines as [|line lines IH]; intros ids0; simpl.
  - exists []. by rewrite app_nil_r.
  - destruct (Atoi line) as [id|] eqn:Hline.
    + specialize (IH (ids0 ++ [id])).
      destruct (scanIDs Atoi lines (ids0 ++ [id])) as [ids'|e| |]; try done.
      * destruct IH as (ids1 & -> & Hall). exists (id :: ids1).
        split; [by rewrite <- app_assoc|by constructor].
      * destruct IH as (good & bad & rest & -> & Hbad & -> & Hgood).
        exists (line :: good), bad, rest. repeat split; try done.
        constructor; [by rewrite Hline|done].
    + exists [], line, lines. by repeat split.
Qed.

(** An override file replaces the stage: the stage's own discovery is
    not consulted. When every line is a number, the stage returns the
    stored segments whose id is listed, in the order of the table: ids
    that are not stored are dropped silently, and the order and the
    repetitions of the lines do not matter. An empty file selects
    every segment of the store. A line that is no number fails the
    stage with the parse error of the first such line. *)
Theorem override_replaces_stage (overrides : Z -> string -> overrideFile)
    (Atoi : string -> option Z) (when : string) (st : store) (next : stage)
    (preq : processingRequest) (lines : list string) (scanFailed : bool) :
  overrides (req_rank (req preq)) when = Lines lines scanFailed ->
  (forall ids_,
     Forall2 (fun line id => Atoi line = Some id) lines ids_ -> scanFailed = false ->
     exists segs,
       overrideDiscovery overrides Atoi when st next preq = Ok segs
       /\ segs `sublist_of` segments st
       /\ forall seg, seg ∈ segs <-> seg ∈ segments st /\ (lines = [] \/ seg_id seg ∈ ids_))
  /\ (forall good bad rest,
        lines = good ++ bad :: rest ->
        Forall (fun line => is_Some (Atoi line)) good -> Atoi bad = None ->
        overrideDiscovery overrides Atoi when st next preq = Err (ErrAtoi bad)).
Proof.
  intros Hfile. unfold overrideDiscovery. rewrite Hfile.
  pose proof (scanIDs_spec Atoi lines []) as Hscan. split.
  - intros ids_ Hall ->.
    destruct (scanIDs Atoi lines []) as [ids'|e| |]; try done.
    + destruct Hscan as (ids1 & -> & Hall'). simpl.
      assert (ids1 = ids_) as ->.
      { clear -Hall Hall'. revert ids_ Hall.
        induction Hall' as [|line id lines ids1 Hid _ IH]; intros ids_ Hall.
        - by inversion Hall.
        - inversion Hall as [|? id' ? ids' Hid' Hall']; subst.
          rewrite Hid in Hid'. injection Hid' as <-. f_equal. by apply IH. }
      eexists. split; [reflexivity|].
      pose proof (fun seg => filterSegments_elem_of st (mkFilter ids_ [] [] []) seg) as Hin.
      pose proof (filterSegments_sublist st (mkFilter ids_ [] [] [])) as Hsub.
      split; [done|]. intros seg. rewrite Hin. cbn [ids fullNames routeIDs endStreets].
      assert (ids_ = [] <-> lines = []) as Hnil.
      { split; intros ->; by inversion Hall. }
      rewrite Hnil. tauto.
    + exfalso. destruct Hscan as (good & bad & rest & -> & Hbad & _).
      apply Forall2_app_inv_l in Hall as (? & ? & _ & Hall & _).
      inversion Hall; subst. congruence.
  - intros good bad rest -> Hgood Hbad.
    destruct (scanIDs Atoi (good ++ bad :: rest) []) as [ids'|e| |]; try done.
    + exfalso. destruct Hscan as (ids1 & _ & Hall).
      apply Forall2_app_inv_l in Hall as (? & ? & _ & Hall & _).
      inversion Hall; subst. congruence.
    + destruct Hscan as (good' & bad' & rest' & Heq & Hbad' & -> & Hgood').
      f_equal. f_equal.
      clear -Heq Hgood Hbad Hgood' Hbad'. revert good' Heq Hgood'.
      induction good as [|g good IH]; intros good' Heq Hgood'.
      * destruct good' as [|g' good']; simpl in Heq; [congruence|].
        injection Heq as <- _. apply Forall_cons in Hgood' as [[? Hg] _]. congruence.
      * apply Forall_cons in Hgood as [[? Hg] Hgood].
        destruct good' as [|g' good']; simpl in Heq.
        -- injection Heq as <- _. congruence.
        -- injection Heq as <- Heq. apply Forall_cons in Hgood' as [_ Hgood'].
           by apply (IH Hgood good').
Qed.

Lemma override_replaces_stage_witness :
  exists segs,
    overrideDiscovery startOverride1 digitAtoi "start" (loaded [s1; s2; s3])
      (startDiscovery (loaded [s1; s2; s3])) (mkProcessing (testRequest "A St" "" 1) [] [])
    = Ok segs
    /\ segs `sublist_of` segments (loaded [s1; s2; s3])
    /\ forall seg, seg ∈ segs <->
         seg ∈ segments (loaded [s1; s2; s3]) /\ (["2"] = [] \/ seg_id seg ∈ [2]).
Proof.
  refine (proj1 (override_replaces_stage startOverride1 digitAtoi "start"
                   (loaded [s1; s2; s3]) (startDiscovery (loaded [s1; s2; s3]))
                   (mkProcessing (testRequest "A St" "" 1) [] []) ["2"] false _) [2] _ _).
  - reflexivity.
  - repeat constructor.
  - reflexivity.
Defined.

(** ** The pipeline *)

(** [handle] returns the three lists exactly when the three stages
    succeed in turn, the start and the end stage with at least one
    segment: the end stage is run on the start segments, the route
    stage on both. The route itself may be empty. *)
Theorem handle_Ok_iff (s : requestHandler) (res : requestResult) :
  handle s = Ok res <->
  startHandler s (mkProcessing (handler_req s) [] []) = Ok (res_startSegments res)
  /\ res_startSegments res ≠ []
  /\ endHandler s (mkProcessing (handler_req s) (res_startSegments res) [])
     = Ok (res_endSegments res)
  /\ res_endSegments res ≠ []
  /\ routeHandler s
       (mkProcessing (handler_req s) (res_startSegments res) (res_endSegments res))
     = Ok (res_routeSegments res).
Proof.
  unfold handle, handleAttempt. cbn [req]. split.
  - destruct (startHandler s _) as [[|s0 ss]|e| |]; try done.
    cbn [callStage length Nat.eqb].
    destruct (endHandler s _) as [[|e0 es]|e| |] eqn:Hend; try done.
    cbn [callStage length Nat.eqb].
    destruct (routeHandler s _) as [rs|e| |] eqn:Hroute; try done.
    intros [= <-]. by cbn.
  - destruct res as [ss es rs]. cbn. intros (-> & Hss & Hend & Hes & Hroute).
    destruct ss as [|s0 ss]; [done|]. cbn [callStage length Nat.eqb]. rewrite Hend.
    destruct es as [|e0 es]; [done|]. cbn [callStage length Nat.eqb]. by rewrite Hroute.
Qed.

(** ** Trimming *)

Lemma trimStart_step (startIDs : list Z) (a b c : segment) (l : list segment) :
  trimStart startIDs (a :: b :: c :: l)
  = if contains startIDs (seg_id b) then trimStart startIDs (b :: c :: l)
    else a :: b :: c :: l.
Proof. reflexivity. Qed.

Lemma trimStart_short (startIDs : list Z) (route1 : list segment) :
  (length route1 <= 2)%nat -> trimStart startIDs route1 = route1.
Proof. destruct route1 as [|a [|b [|c l]]]; simpl; try done. lia. Qed.

Lemma trimStart_stops (startIDs : list Z) (route1 : list segment) :
  match trimStart startIDs route1 with
  | _ :: second :: _ :: _ => contains startIDs (seg_id second) = false
  | _ => True
  end.
Proof.
  induction route1 as [|a [|b [|c l]] IH]; simpl; try done.
  destruct (contains startIDs (seg_id b)) eqn:Hb; [exact IH|by rewrite Hb].
Qed.

(** The trimming of the start of a path only drops leading segments:
    what it returns is a suffix of the path with the same last
    segment; a path of at most two segments is returned as it is, and
    a longer one keeps at least two; trimming what has been trimmed
    changes nothing. *)
Theorem trimStart_suffix_of_path (startIDs : list Z) (route1 : list segment) :
  trimStart startIDs route1 `suffix_of` route1
  /\ last (trimStart startIDs route1) = last route1
  /\ ((length route1 <= 2)%nat -> trimStart startIDs route1 = route1)
  /\ ((2 <= length route1)%nat -> (2 <= length (trimStart startIDs route1))%nat)
  /\ trimStart startIDs (trimStart startIDs route1) = trimStart startIDs route1.
Proof.
  split; [apply trimStart_suffix|]. split; [|split; [apply trimStart_short|split]].
  - induction route1 as [|a [|b [|c l]] IH]; try done.
    rewrite trimStart_step. destruct (contains startIDs (seg_id b)); [|done].
    by rewrite IH.
  - induction route1 as [|a [|b [|c l]] IH]; try done.
    rewrite trimStart_step. destruct (contains startIDs (seg_id b)); [|simpl; lia].
    intros _. apply IH. simpl. lia.
  - pose proof (trimStart_stops startIDs route1) as Hstop.
    destruct (trimStart startIDs route1) as [|a [|b [|c l]]]; simpl; try done.
    by rewrite Hstop.
Qed.

(** ** What a load leaves in the store *)

Lemma routeEdges_elem_of (close : Point -> Point -> bool) (routeSegs todo : list segment)
    (l : link) :
  l ∈ routeEdges close routeSegs todo <->
  exists cur next,
    cur ∈ todo /\ next ∈ routeSegs /\ edgeAllowed close cur next = true
    /\ l = mkLink (seg_id cur) (seg_routeID cur) (seg_id next).
Proof.
  unfold routeEdges, linkRows. rewrite list_elem_of_In, in_flat_map. split.
  - intros (cur & Hcur & Hl). apply list_elem_of_In, list_elem_of_fmap in Hl as (next & -> & Hn).
    apply list_elem_of_In, filter_In in Hn as [Hn Ha].
    exists cur, next. by rewrite !list_elem_of_In.
  - intros (cur & next & Hcur & Hn & Ha & ->). exists cur.
    split; [by apply list_elem_of_In|]. apply list_elem_of_In, list_elem_of_fmap.
    exists next. split; [done|]. apply list_elem_of_In, filter_In.
    split; [by apply list_elem_of_In|done].
Qed.

Lemma loadEdges_elem_of (close : Point -> Point -> bool) (routes : list (Z * list segment))
    (l : link) :
  l ∈ loadEdges close routes <->
  exists route cur next,
    route ∈ routes /\ cur ∈ route.2 /\ next ∈ route.2 /\ edgeAllowed close cur next = true
    /\ l = mkLink (seg_id cur) (seg_routeID cur) (seg_id next).
Proof.
  unfold loadEdges. rewrite list_elem_of_In, in_flat_map. split.
  - intros (route & Hr & Hl). apply list_elem_of_In, routeEdges_elem_of in Hl
      as (cur & next & ?). exists route, cur, next. by rewrite list_elem_of_In.
  - intros (route & cur & next & Hr & Hrest). exists route.
    split; [by apply list_elem_of_In|]. apply list_elem_of_In, routeEdges_elem_of. eauto.
Qed.

(** The three ways a load ends: before the first commit, between the
    two commits, after both. *)
Lemma loadSegments_outcome (Distance : Point -> Point -> float)
    (rangeOrder : list (Z * list segment) -> list (Z * list segment))
    (st : store) (segs : list segment) :
  (forall routes, rangeOrder routes ≡ₚ routes) ->
  let st' := (loadSegments Distance rangeOrder st segs).1 in
  st' = st
  \/ (tableWith (segments st) segs (segments st') /\ segment_links st' = segment_links st)
  \/ (tableWith (segments st) segs (segments st')
      /\ exists routes,
           (forall rid l, (rid, l) ∈ routes <->
              rid ∈ seg_routeID <$> segs /\ l = routeGroup segs rid)
           /\ segment_links st' = segment_links st ++ loadEdges (isClose Distance) routes).
Proof.
  intros Hperm. unfold loadSegments.
  pose proof (insertSegments_spec segs ∅ (segments st)) as Hseg.
  destruct (insertSegments segs ∅ (segments st)) as [[routeSegments tbl]|e| |] eqn:Hins;
    try done; [|by left].
  cbn [segments segment_links segment_links_id].
  pose proof (insertLinks_spec Distance (rangeOrder (map_to_list routeSegments))
                (segment_links st)) as Hlinks.
  destruct (insertLinks Distance (rangeOrder (map_to_list routeSegments)) (segment_links st))
    as [rows|e| |]; try done; [|right; left; by split].
  subst rows. right; right.
  assert (exists routes,
            (forall rid l, (rid, l) ∈ routes <->
               rid ∈ seg_routeID <$> segs /\ l = routeGroup segs rid)
            /\ segment_links st ++ loadEdges (isClose Distance)
                                     (rangeOrder (map_to_list routeSegments))
               = segment_links st ++ loadEdges (isClose Distance) routes) as Hex.
  { exists (rangeOrder (map_to_list routeSegments)). split; [|done].
    intros rid l. rewrite (Hperm (map_to_list routeSegments)).
    by apply (insertSegments_routes segs routeSegments (segments st) tbl rid l). }
  by destruct (segment_links_id st).
Qed.

Lemma loadSegments_keeps_links_wf (Distance : Point -> Point -> float)
    (rangeOrder : list (Z * list segment) -> list (Z * list segment))
    (st : store) (segs : list segment) :
  (forall routes, rangeOrder routes ≡ₚ routes) ->
  links_wf st ->
  links_wf (loadSegments Distance rangeOrder st segs).1.
Proof.
  intros Hperm Hwf.
  destruct (loadSegments_outcome Distance rangeOrder st segs Hperm)
    as [->|[[[Hsegs _] Hlinks]|([Hsegs _] & routes & Hroutes & Hlinks)]]; [done|..].
  - intros l Hl. rewrite Hlinks in Hl. destruct (Hwf l Hl) as (Hne & a & b & Ha & Hb & Hrest).
    split; [done|]. exists a, b. rewrite Hsegs, !elem_of_app. auto.
  - intros l Hl. rewrite Hlinks in Hl. apply elem_of_app in Hl as [Hl|Hl].
    + destruct (Hwf l Hl) as (Hne & a & b & Ha & Hb & Hrest).
      split; [done|]. exists a, b. rewrite Hsegs, !elem_of_app. auto.
    + apply loadEdges_elem_of in Hl as ([rid group] & cur & next & Hr & Hc & Hn & Ha & ->).
      apply Hroutes in Hr as [_ ->]. simpl in Hc, Hn.
      apply routeGroup_elem_of in Hc as [Hc Hrc], Hn as [Hn Hrn].
      unfold edgeAllowed in Ha. apply andb_true_iff in Ha as [Hid _].
      apply negb_true_iff, Z.eqb_neq in Hid. cbn.
      split; [done|]. exists cur, next. rewrite Hsegs, !elem_of_app.
      repeat split; auto. congruence.
Qed.

(** A load keeps the adjacency rows within the routes: when every row
    of [segment_links] joins two different stored segments of the
    row's route before a load, so does every row after it, however
    the load ends. No row leads from a segment to itself, and none
    crosses from one route to another. *)
Theorem loadSegments_links_wf (Distance : Point -> Point -> float)
    (rangeOrder : list (Z * list segment) -> list (Z * list segment))
    (st : store) (segs : list segment) :
  (forall routes, rangeOrder routes ≡ₚ routes) ->
  links_wf st ->
  links_wf (loadSegments Distance rangeOrder st segs).1.
Proof. apply loadSegments_keeps_links_wf. Qed.

Lemma emptyStore_links_wf : links_wf emptyStore.
Proof. intros l Hl. by apply elem_of_nil in Hl. Qed.

Lemma loadSegments_links_wf_witness :
  links_wf (loadSegments planarDistance inOrder emptyStore [s1; s2; s3; irr]).1.
Proof.
  apply (loadSegments_links_wf planarDistance inOrder emptyStore [s1; s2; s3; irr]).
  - intros routes. reflexivity.
  - exact emptyStore_links_wf.
Defined.

Lemma insertRow_ids (seg : segment) (tbl : list segment) (id : Z) :
  id ∈ seg_id <$> insertRow seg tbl <-> id ∈ seg_id <$> tbl \/ id = seg_id seg.
Proof.
  rewrite insertRow_perm, fmap_app, elem_of_app. cbn.
  by rewrite list_elem_of_singleton.
Qed.

Lemma insertSegments_Ok_iff (todo : list segment) (m : gmap Z (list segment))
    (tbl : list segment) :
  (exists m' tbl', insertSegments todo m tbl = Ok (m', tbl')) <->
  Forall (fun seg => marshalSegment seg = true) todo
  /\ NoDup (seg_id <$> todo)
  /\ forall seg, seg ∈ todo -> seg_id seg ∉ seg_id <$> tbl.
Proof.
  revert m tbl. induction todo as [|seg todo IH]; intros m tbl; simpl.
  - split; [|by eauto]. intros _. split; [done|]. split; [apply NoDup_nil_2|].
    intros seg Hseg. by apply elem_of_nil in Hseg.
  - destruct (marshalSegment seg) eqn:Hm; simpl.
    2:{ split; [by intros (? & ? & ?)|]. intros [[? _]%Forall_cons _]. congruence. }
    destruct (contains (seg_id <$> tbl) (seg_id seg)) eqn:Hc.
    { split; [by intros (? & ? & ?)|]. intros (_ & _ & Hnot). exfalso.
      apply contains_elem_of in Hc. apply (Hnot seg); [by apply elem_of_cons; left|done]. }
    apply contains_not_elem_of in Hc. rewrite IH. split.
    + intros (Hall & Hnd & Hnot). split; [by apply Forall_cons|]. split.
      * apply NoDup_cons. split; [|done]. intros (s & Hid & Hs)%list_elem_of_fmap.
        apply (Hnot s Hs). apply insertRow_ids. by right.
      * intros s [->|Hs]%elem_of_cons; [done|]. intros Hin. apply (Hnot s Hs).
        apply insertRow_ids. by left.
    + intros ([_ Hall]%Forall_cons & [Hseg Hnd]%NoDup_cons & Hnot).
      split; [done|]. split; [done|]. intros s Hs [Hin|Hin]%insertRow_ids.
      * apply (Hnot s); [by apply elem_of_cons; right|done].
      * apply Hseg. rewrite <- Hin. apply list_elem_of_fmap. by exists s.
Qed.

Lemma insertLinks_Ok_iff (Distance : Point -> Point -> float)
    (routes : list (Z * list segment)) (rows0 : list link) :
  (exists rows, insertLinks Distance routes rows0 = Ok rows) <->
  forall route cur next,
    route ∈ routes -> cur ∈ route.2 -> next ∈ route.2 ->
    ~ unknownPair (isClose Distance) cur next.
Proof.
  revert rows0. induction routes as [|[rid routeSegs] routes IH]; intros rows0; simpl.
  - split; [|by eauto]. intros _ route cur next Hr. by apply elem_of_nil in Hr.
  - pose proof (routeLinkRows_spec Distance routeSegs routeSegs rows0) as Hr.
    destruct (routeLinkRows Distance routeSegs routeSegs rows0) as [rows|e| |]; try done.
    + destruct Hr as [_ Hno]. rewrite IH. split.
      * intros Hrest route cur next [->|Hin]%elem_of_cons; [apply Hno|by apply Hrest].
      * intros Hall route cur next Hin. apply Hall. by apply elem_of_cons; right.
    + split; [by intros (? & ?)|]. intros Hall. exfalso.
      destruct Hr as (cur & next & Hc & Hn & Hu & _).
      apply (Hall (rid, routeSegs) cur next); [by apply elem_of_cons; left|done..].
Qed.

(** When a load succeeds. [loadSegments] returns without error exactly
    when every point of the batch can be encoded (no NaN, no
    infinity), the ids of the batch differ from one another and from
    the ids in the store, no two segments of the batch on one route
    (with different ids) have a pairing of directions that is not
    enumerated, and the index on [segment_links] does not exist yet:
    a second load into the same store always returns an error. *)
Theorem loadSegments_succeeds_iff (Distance : Point -> Point -> float)
    (rangeOrder : list (Z * list segment) -> list (Z * list segment))
    (st : store) (segs : list segment) :
  (forall routes, rangeOrder routes ≡ₚ routes) ->
  (loadSegments Distance rangeOrder st segs).2 = Ok tt <->
  Forall (fun seg => marshalSegment seg = true) segs
  /\ NoDup (seg_id <$> segs)
  /\ (forall seg, seg ∈ segs -> seg_id seg ∉ seg_id <$> segments st)
  /\ (forall cur next,
        cur ∈ segs -> next ∈ segs -> seg_routeID cur = seg_routeID next ->
        ~ unknownPair (isClose Distance) cur next)
  /\ segment_links_id st = false.
Proof.
  intros Hperm. unfold loadSegments.
  pose proof (insertSegments_Ok_iff segs ∅ (segments st)) as Hseg.
  destruct (insertSegments segs ∅ (segments st)) as [[routeSegments tbl]|e| |] eqn:Hins.
  2-4: split; [done|]; intros (H1 & H2 & H3 & _);
       destruct (proj2 Hseg (conj H1 (conj H2 H3))) as (? & ? & [=]).
  assert (forall rid l, (rid, l) ∈ rangeOrder (map_to_list routeSegments) <->
            rid ∈ seg_routeID <$> segs /\ l = routeGroup segs rid) as Hroutes.
  { intros rid l. rewrite (Hperm (map_to_list routeSegments)).
    by apply (insertSegments_routes segs routeSegments (segments st) tbl rid l). }
  destruct (proj1 Hseg) as (Hall & Hnd & Hnot); [by eauto|].
  cbn [segments segment_links segment_links_id].
  pose proof (insertLinks_Ok_iff Distance (rangeOrder (map_to_list routeSegments))
                (segment_links st)) as Hlinks.
  assert ((forall route cur next,
             route ∈ rangeOrder (map_to_list routeSegments) ->
             cur ∈ route.2 -> next ∈ route.2 -> ~ unknownPair (isClose Distance) cur next)
          <-> forall cur next,
                cur ∈ segs -> next ∈ segs -> seg_routeID cur = seg_routeID next ->
                ~ unknownPair (isClose Distance) cur next) as Hpairs.
  { split.
    - intros Hno cur next Hc Hn Hr.
      apply (Hno (seg_routeID cur, routeGroup segs (seg_routeID cur))).
      + apply Hroutes. split; [|done]. apply list_elem_of_fmap. by exists cur.
      + by apply routeGroup_elem_of.
      + by apply routeGroup_elem_of.
    - intros Hno [rid l] cur next [_ ->]%Hroutes Hc Hn. simpl in *.
      apply routeGroup_elem_of in Hc as [Hc Hrc], Hn as [Hn Hrn].
      apply Hno; [done|done|congruence]. }
  rewrite Hpairs in Hlinks.
  destruct (insertLinks Distance (rangeOrder (map_to_list routeSegments)) (segment_links st))
    as [rows|e| |].
  - destruct (segment_links_id st); cbn.
    + split; [done|]. by intros (_ & _ & _ & _ & [=]).
    + split; [|done]. intros _. repeat split; try done. apply Hlinks. by eexists.
  - cbn. split; [done|]. intros (_ & _ & _ & Hno & _).
    by destruct (proj2 Hlinks Hno) as (? & [=]).
  - cbn. split; [done|]. intros (_ & _ & _ & Hno & _).
    by destruct (proj2 Hlinks Hno) as (? & [=]).
  - cbn. split; [done|]. intros (_ & _ & _ & Hno & _).
    by destruct (proj2 Hlinks Hno) as (? & [=]).
Qed.

Lemma loadSegments_succeeds_iff_witness :
  (loadSegments planarDistance inOrder emptyStore [s1; s2; s1]).2 = Ok tt <->
  Forall (fun seg => marshalSegment seg = true) [s1; s2; s1]
  /\ NoDup (seg_id <$> [s1; s2; s1])
  /\ (forall seg, seg ∈ [s1; s2; s1] -> seg_id seg ∉ seg_id <$> segments emptyStore)
  /\ (forall cur next,
        cur ∈ [s1; s2; s1] -> next ∈ [s1; s2; s1] -> seg_routeID cur = seg_routeID next ->
        ~ unknownPair (isClose planarDistance) cur next)
  /\ segment_links_id emptyStore = false.
Proof.
  apply (loadSegments_succeeds_iff planarDistance inOrder emptyStore [s1; s2; s1]).
  intros routes. reflexivity.
Defined.

(** Between two bidirectional segments the builder finds an edge in
    one direction exactly when it finds it in the other, provided the
    closeness of their endpoints does not depend on the order in which
    two points are compared. *)
Theorem bidirectional_edges_both_ways (Distance : Point -> Point -> float)
    (routeSegs : list segment) (cur next : segment) (out1 out2 : list segment) :
  (forall a b,
     a ∈ [seg_firstPoint cur; seg_lastPoint cur] ->
     b ∈ [seg_firstPoint next; seg_lastPoint next] ->
     isClose Distance a b = isClose Distance b a) ->
  seg_direction cur = "BOTH" -> seg_direction next = "BOTH" ->
  cur ∈ routeSegs -> next ∈ routeSegs ->
  matches Distance routeSegs cur = Ok out1 ->
  matches Distance routeSegs next = Ok out2 ->
  (next ∈ out1 <-> cur ∈ out2).
Proof.
  intros Hsym Hc Hn Hcin Hnin H1 H2. unfold matches in H1, H2.
  pose proof (matchesLoop_spec Distance cur routeSegs []) as Hs1.
  pose proof (matchesLoop_spec Distance next routeSegs []) as Hs2.
  rewrite H1 in Hs1. rewrite H2 in Hs2. destruct Hs1 as [-> _], Hs2 as [-> _]. simpl.
  rewrite !list_elem_of_In, !filter_In, <- !list_elem_of_In.
  assert (edgeAllowed (isClose Distance) cur next = edgeAllowed (isClose Distance) next cur)
    as ->; [|tauto].
  unfold edgeAllowed, pairTable, classOf. rewrite Hc, Hn. simpl.
  rewrite (Z.eqb_sym (seg_id next) (seg_id cur)). f_equal.
  rewrite <- (Hsym (seg_firstPoint cur) (seg_firstPoint next)) by set_solver.
  rewrite <- (Hsym (seg_firstPoint cur) (seg_lastPoint next)) by set_solver.
  rewrite <- (Hsym (seg_lastPoint cur) (seg_firstPoint next)) by set_solver.
  rewrite <- (Hsym (seg_lastPoint cur) (seg_lastPoint next)) by set_solver.
  destruct (isClose Distance (seg_firstPoint cur) (seg_firstPoint next)),
           (isClose Distance (seg_firstPoint cur) (seg_lastPoint next)),
           (isClose Distance (seg_lastPoint cur) (seg_firstPoint next)),
           (isClose Distance (seg_lastPoint cur) (seg_lastPoint next)); reflexivity.
Qed.

Lemma bidirectional_edges_both_ways_witness : s2 ∈ [s2] <-> s1 ∈ [s1; s3].
Proof.
  apply (bidirectional_edges_both_ways planarDistance [s1; s2; s3] s1 s2 [s2] [s1; s3]).
  - intros a b Ha Hb.
    apply elem_of_cons in Ha as [->|Ha]; [|apply list_elem_of_singleton in Ha as ->];
      (apply elem_of_cons in Hb as [->|Hb]; [|apply list_elem_of_singleton in Hb as ->]);
      vm_compute; reflexivity.
  - reflexivity.
  - reflexivity.
  - apply elem_of_cons; by left.
  - apply elem_of_cons; right. apply elem_of_cons; by left.
  - vm_compute. reflexivity.
  - vm_compute. reflexivity.
Defined.

(** ** The path finder on a loaded store *)

Lemma routeIDOf_stored (st : store) (seg : segment) :
  store_wf st -> seg ∈ segments st -> routeIDOf st (seg_id seg) = Some (seg_routeID seg).
Proof.
  intros Hwf Hin. unfold routeIDOf.
  destruct (List.find (fun s => seg_id s =? seg_id seg) (segments st)) as [s|] eqn:Hfind.
  - apply find_some in Hfind as [Hs Hid]. apply Z.eqb_eq in Hid.
    apply list_elem_of_In in Hs. by rewrite (store_wf_inj st s seg Hwf Hs Hin Hid).
  - exfalso. apply list_elem_of_In in Hin.
    pose proof (find_none _ _ Hfind seg Hin) as Hne. simpl in Hne.
    by rewrite Z.eqb_refl in Hne.
Qed.

Lemma routeIDOf_unstored (st : store) (id : Z) :
  (forall seg, seg ∈ segments st -> seg_id seg ≠ id) -> routeIDOf st id = None.
Proof.
  intros Hno. unfold routeIDOf.
  destruct (List.find (fun s => seg_id s =? id) (segments st)) as [s|] eqn:Hfind; [|done].
  apply find_some in Hfind as [Hs Hid]. apply Z.eqb_eq in Hid.
  apply list_elem_of_In in Hs. by destruct (Hno s Hs).
Qed.

(** Every node of a path but its first has an edge leading to it. *)
Lemma linked_incoming (R : Z -> Z -> Prop) (p : list Z) (s x : Z) :
  head p = Some s -> linked R p -> x ∈ p -> x = s \/ exists y, R y x.
Proof.
  revert s. induction p as [|a [|b p] IH]; intros s Hh Hl Hx.
  - by apply elem_of_nil in Hx.
  - injection Hh as ->. apply list_elem_of_singleton in Hx. by left.
  - injection Hh as ->. destruct Hl as [Hab Hl].
    apply elem_of_cons in Hx as [->|Hx]; [by left|].
    destruct (IH b eq_refl Hl Hx) as [->|?]; [|by right]. right. by exists s.
Qed.

(** In a store whose rows join stored segments, the ids of a path from
    a stored segment are ids of stored segments of its route. *)
Lemma path_stored (st : store) (from0 : segment) (toIDs path : list Z) (x : Z) :
  store_wf st -> links_wf st -> from0 ∈ segments st ->
  simplePath (routeEdge st (seg_id from0)) (seg_id from0) toIDs path ->
  x ∈ path ->
  exists seg, seg ∈ segments st /\ seg_id seg = x /\ seg_routeID seg = seg_routeID from0.
Proof.
  intros Hwf Hlinks Hfrom [(Hh & _ & Hl) _] Hx.
  destruct (linked_incoming _ _ _ _ Hh Hl Hx) as [->|(y & rid & Hrid & Hrow)].
  - by exists from0.
  - rewrite (routeIDOf_stored st from0 Hwf Hfrom) in Hrid. injection Hrid as <-.
    destruct (Hlinks _ Hrow) as (_ & a & b & _ & Hb & _ & Hidb & _ & Hrb).
    exists b. by repeat split.
Qed.

Lemma route_stored_spec (st : store) (from0 : segment) (froms : list segment)
    (to0 : segment) (tos : list segment) :
  store_wf st -> links_wf st -> from0 ∈ segments st ->
  match route st (from0 :: froms) (to0 :: tos) with
  | Ok res =>
      Forall (fun seg => seg ∈ segments st /\ seg_routeID seg = seg_routeID from0) res
  | Err e => e = ErrCouldNotFindPath \/ exists id, e = ErrToNotInGraph id
  | Panic | OutOfFuel => False
  end.
Proof.
  intros Hwf Hlinks Hfrom.
  pose proof (route_spec st from0 froms to0 tos) as Hspec. cbv zeta in Hspec.
  destruct (route st (from0 :: froms) (to0 :: tos)) as [res|e| |] eqn:Hroute; [..|done].
  - destruct (route_Ok st from0 froms to0 tos res Hwf Hroute) as (Hpath & _ & Hin).
    rewrite Forall_forall in Hin. apply Forall_forall. intros seg Hseg.
    split; [by apply Hin|].
    destruct (path_stored st from0 _ _ (seg_id seg) Hwf Hlinks Hfrom Hpath)
      as (seg' & Hin' & Hid & Hr); [apply list_elem_of_fmap; by exists seg|].
    by rewrite <- (store_wf_inj st seg' seg Hwf Hin' (Hin seg Hseg) Hid).
  - destruct Hspec as [(-> & _)|(t & _ & _ & ->)]; [by left|right; by eexists].
  - destruct Hspec as (path & Hpath & _ & Hres). cbv zeta in Hres.
    set (segs := filterSegments st (mkFilter path [] [] [])) in Hres.
    assert (path ≠ []) as Hne by (destruct Hpath as [(Hh & _) _]; by destruct path).
    assert (length path <= length segs)%nat as Hlen.
    { rewrite <- (length_fmap seg_id segs). apply submseteq_length, NoDup_submseteq.
      - by destruct Hpath as [(_ & Hnd & _) _].
      - intros x Hx.
        destruct (path_stored st from0 _ _ x Hwf Hlinks Hfrom Hpath Hx)
          as (seg & Hin & <- & _).
        apply list_elem_of_fmap. exists seg. split; [done|].
        apply filterSegments_ids; [done|]. by split. }
    rewrite reorder_ok in Hres by (simpl; lia). discriminate.
Qed.

(** In a store whose ids are unique and whose adjacency rows join
    stored segments of one route (any store built by loads), a call of
    [route] whose first [from] candidate is a stored segment does not
    panic: it returns an error ("could not find path" or "to segment
    ... not found in route graph"), or stored segments that all lie on
    the route of that candidate. *)
Theorem route_stays_on_route (st : store) (from0 : segment) (froms : list segment)
    (to0 : segment) (tos : list segment) :
  store_wf st -> links_wf st -> from0 ∈ segments st ->
  match route st (from0 :: froms) (to0 :: tos) with
  | Ok res =>
      Forall (fun seg => seg ∈ segments st /\ seg_routeID seg = seg_routeID from0) res
  | Err e => e = ErrCouldNotFindPath \/ exists id, e = ErrToNotInGraph id
  | Panic | OutOfFuel => False
  end.
Proof. apply route_stored_spec. Qed.

Lemma loaded_chain_wf : store_wf (loaded [s1; s2; s3; s4; irr]).
Proof. apply (bool_decide_unpack _). vm_compute. exact I. Defined.

Lemma loaded_chain_links_wf : links_wf (loaded [s1; s2; s3; s4; irr]).
Proof.
  apply (loadSegments_keeps_links_wf planarDistance inOrder emptyStore [s1; s2; s3; s4; irr]).
  - intros routes. reflexivity.
  - intros l Hl. by apply elem_of_nil in Hl.
Defined.

Lemma route_stays_on_route_witness :
  Forall (fun seg => seg ∈ segments (loaded [s1; s2; s3; s4; irr])
                     /\ seg_routeID seg = seg_routeID s1) [s1; s2; s3].
Proof.
  pose proof (route_stays_on_route (loaded [s1; s2; s3; s4; irr]) s1 [] s3 []
                loaded_chain_wf loaded_chain_links_wf) as H.
  assert (route (loaded [s1; s2; s3; s4; irr]) [s1] [s3] = Ok [s1; s2; s3]) as Hroute
    by (vm_compute; reflexivity).
  rewrite Hroute in H. apply H.
  vm_compute. apply elem_of_cons. by left.
Defined.

(** A first [from] candidate whose id is not in the table [segments]
    has no route: the graph holds that id alone. A call with non-empty
    candidate lists then panics (index out of range) when every [to]
    candidate has that same id, and else fails with "to segment ...
    not found in route graph" for another id. *)
Theorem route_unstored_from (st : store) (from0 : segment) (froms : list segment)
    (to0 : segment) (tos : list segment) :
  (forall seg, seg ∈ segments st -> seg_id seg ≠ seg_id from0) ->
  (Forall (fun t => seg_id t = seg_id from0) (to0 :: tos) ->
   route st (from0 :: froms) (to0 :: tos) = Panic)
  /\ (~ Forall (fun t => seg_id t = seg_id from0) (to0 :: tos) ->
      exists id, id ≠ seg_id from0
                 /\ route st (from0 :: froms) (to0 :: tos) = Err (ErrToNotInGraph id)).
Proof.
  intros Hno. unfold route, queryLinks. rewrite (routeIDOf_unstored st _ Hno).
  unfold buildGraph. cbn [fold_left]. cbv zeta.
  assert (forall t : segment, seg_id t ∈ dom ({[seg_id from0 := []]} : gmap Z (list Z))
                              <-> seg_id t = seg_id from0) as Hdom.
  { intros t. rewrite dom_singleton_L. set_solver. }
  split.
  - intros Hall.
    assert (checkTo {[seg_id from0 := []]} (to0 :: tos) = None) as ->.
    { apply checkTo_None. intros t Ht. apply Hdom. rewrite Forall_forall in Hall.
      by apply Hall. }
    unfold bfsFuel. rewrite map_size_singleton.
    cbn [length Nat.pow Nat.mul Nat.add bfs last].
    assert (contains (seg_id <$> to0 :: tos) (seg_id from0) = true) as ->.
    { apply contains_elem_of. apply Forall_cons in Hall as [<- _].
      apply elem_of_cons. by left. }
    assert (filterSegments st (mkFilter [seg_id from0] [] [] []) = []) as ->.
    { destruct (filterSegments st _) as [|seg segs] eqn:Hf; [done|]. exfalso.
      assert (seg ∈ filterSegments st (mkFilter [seg_id from0] [] [] [])) as Hin
        by (rewrite Hf; apply elem_of_cons; by left).
      apply filterSegments_ids in Hin as [Hin Hid]; [|done].
      apply list_elem_of_singleton in Hid. by destruct (Hno seg Hin). }
    reflexivity.
  - intros Hnot.
    destruct (checkTo {[seg_id from0 := []]} (to0 :: tos)) as [e|] eqn:Hcheck.
    + apply checkTo_Some in Hcheck as (t & Ht & Hn & ->). exists (seg_id t).
      split; [|done]. intros Hid. by apply Hn, Hdom.
    + exfalso. apply Hnot, Forall_forall. intros t Ht. apply Hdom.
      by apply (proj1 (checkTo_None _ _) Hcheck).
Qed.

Lemma route_unstored_from_witness :
  route (loaded [s1; s2]) [s3] [s3] = Panic.
Proof.
  refine (proj1 (route_unstored_from (loaded [s1; s2]) s3 [] s3 [] _) _).
  - intros seg Hseg. vm_compute in Hseg.
    apply elem_of_cons in Hseg as [->|Hseg]; [done|].
    apply list_elem_of_singleton in Hseg as ->. done.
  - by repeat constructor.
Defined.

(** ** A resolved request lies on one route *)

Lemma filterSegments_routeID (st : store) (rid : Z) (es : list string) (seg : segment) :
  seg ∈ filterSegments st (mkFilter [] [] [rid] es) ->
  seg ∈ segments st /\ seg_routeID seg = rid.
Proof.
  intros (Hin & _ & _ & [[=]|Hr] & _)%filterSegments_elem_of.
  cbn in Hr. by apply list_elem_of_singleton in Hr.
Qed.

Lemma handle_Ok_stages (s : requestHandler) (res : requestResult) :
  handle s = Ok res ->
  startHandler s (mkProcessing (handler_req s) [] []) = Ok (res_startSegments res)
  /\ res_startSegments res ≠ []
  /\ endHandler s (mkProcessing (handler_req s) (res_startSegments res) [])
     = Ok (res_endSegments res)
  /\ res_endSegments res ≠ []
  /\ routeHandler s
       (mkProcessing (handler_req s) (res_startSegments res) (res_endSegments res))
     = Ok (res_routeSegments res).
Proof.
  unfold handle, handleAttempt. cbn [req].
  destruct (startHandler s _) as [[|s0 ss]|e| |]; try done.
  cbn [callStage length Nat.eqb].
  destruct (endHandler s _) as [[|e0 es]|e| |] eqn:Hend; try done.
  cbn [callStage length Nat.eqb].
  destruct (routeHandler s _) as [rs|e| |] eqn:Hroute; try done.
  intros [= <-]. by cbn.
Qed.

Lemma startDiscovery_Ok (st : store) (preq : processingRequest) (segs : list segment) :
  startDiscovery st preq = Ok segs ->
  segs = filterSegments st (startFilter (req preq))
  /\ forall a b, a ∈ segs -> b ∈ segs -> seg_routeID a = seg_routeID b.
Proof.
  unfold startDiscovery. cbv zeta. rewrite !routeIDs_fold, !union_empty_r_L.
  set (found := filterSegments st (startFilter (req preq))).
  set (routeIDs := list_to_set (seg_routeID <$> found) : gset Z).
  destruct (Nat.ltb_spec 1 (size routeIDs)) as [Hlt|Hle]; [done|].
  intros [= <-]. split; [done|]. intros a b Ha Hb.
  destruct (decide (seg_routeID a = seg_routeID b)) as [|Hne]; [done|]. exfalso.
  assert ({[seg_routeID a; seg_routeID b]} ⊆ routeIDs) as Hsub.
  { intros x [Hx|Hx]%elem_of_union; apply elem_of_singleton in Hx as ->;
      apply elem_of_list_to_set, list_elem_of_fmap; eauto. }
  apply subseteq_size in Hsub.
  rewrite size_union, !size_singleton in Hsub by set_solver. lia.
Qed.

Lemma longestRoute_on_route (st : store) (rid : Z) (route1 ends path res : list segment) :
  store_wf st -> links_wf st ->
  Forall (fun seg => seg ∈ segments st /\ seg_routeID seg = rid) route1 ->
  Forall (fun seg => seg ∈ segments st /\ seg_routeID seg = rid) path ->
  longestRoute st route1 ends path = Ok res ->
  Forall (fun seg => seg ∈ segments st /\ seg_routeID seg = rid) res.
Proof.
  intros Hwf Hlinks Hroute1. revert path.
  induction ends as [|e ends IH]; intros path Hpath; cbn [longestRoute].
  - by intros [= <-].
  - destruct route1 as [|route0 rest]; [done|].
    pose proof Hroute1 as [[Hin Hrid] _]%Forall_cons.
    pose proof (route_stored_spec st route0 [] e [] Hwf Hlinks Hin) as Hspec.
    destruct (route st [route0] [e]) as [c| | |]; try done.
    apply IH. destruct (length path <? length c)%nat; [|done].
    by rewrite <- Hrid.
Qed.

(** The pipeline stays on one route. In a store whose ids are unique
    and whose adjacency rows join stored segments of one route, a
    request without override files that resolves gets start, end and
    route segments that are all stored and all lie on one route. *)
Theorem resolved_on_one_route (overrides : Z -> string -> overrideFile)
    (Atoi : string -> option Z) (st : store) (r : request) (res : requestResult) :
  store_wf st -> links_wf st ->
  (forall when, overrides (req_rank r) when = NotExist) ->
  handle (newDefaultRequestHandler overrides Atoi st r) = Ok res ->
  exists rid,
    Forall (fun seg => seg ∈ segments st /\ seg_routeID seg = rid)
      (res_startSegments res ++ res_endSegments res ++ res_routeSegments res).
Proof.
  intros Hwf Hlinks Hno Hres.
  apply handle_Ok_stages in Hres as (Hstart & Hne & Hend & _ & Hroute).
  unfold newDefaultRequestHandler in Hstart, Hend, Hroute.
  cbn [handler_req startHandler endHandler routeHandler] in Hstart, Hend, Hroute.
  unfold overrideDiscovery in Hstart, Hend, Hroute. cbn [req] in Hstart, Hend, Hroute.
  rewrite Hno in Hstart, Hend, Hroute.
  destruct res as [starts ends route1]. cbn in *.
  destruct starts as [|start0 starts]; [done|]. exists (seg_routeID start0).
  apply startDiscovery_Ok in Hstart as [Hfound Hsame]. cbn [req] in Hfound.
  assert (Forall (fun seg => seg ∈ segments st /\ seg_routeID seg = seg_routeID start0)
            (start0 :: starts)) as Hstarts.
  { apply Forall_forall. intros seg Hseg. split.
    - rewrite Hfound in Hseg. by apply startFilter_spec in Hseg as [? _].
    - apply Hsame; [done|]. apply elem_of_cons. by left. }
  assert (Forall (fun seg => seg ∈ segments st /\ seg_routeID seg = seg_routeID start0) ends)
    as Hends.
  { unfold endDiscovery in Hend. cbn [req startSegments] in Hend. injection Hend as <-.
    apply Forall_forall. intros seg Hseg. by apply filterSegments_routeID in Hseg. }
  apply Forall_app. split; [done|]. apply Forall_app. split; [done|].
  pose proof Hstarts as [[Hin0 _] _]%Forall_cons.
  unfold routeDiscovery in Hroute. cbn [req startSegments endSegments] in Hroute.
  destruct (String.eqb (req_from r) "" && String.eqb (req_to r) "").
  { injection Hroute as <-. apply Forall_forall. intros seg Hseg.
    by apply filterSegments_routeID in Hseg. }
  pose proof (route_stored_spec st start0 starts) as Hspec.
  destruct ends as [|end0 ends]; [done|].
  specialize (Hspec end0 ends Hwf Hlinks Hin0).
  destruct (route st (start0 :: starts) (end0 :: ends)) as [found| | |]; try done.
  assert (Forall (fun seg => seg ∈ segments st /\ seg_routeID seg = seg_routeID start0)
            (if negb (String.eqb (req_from r) "")
             then trimStart (startIDsOf (start0 :: starts)) found else found)) as Htrim.
  { destruct (negb (String.eqb (req_from r) "")); [|done].
    destruct (trimStart_suffix (startIDsOf (start0 :: starts)) found) as [k Hk].
    rewrite Hk in Hspec. by apply Forall_app in Hspec as [_ ?]. }
  destruct (String.eqb (req_to r) "" || String.eqb (req_to r) (req_from r)).
  - by apply (longestRoute_on_route st _ _ _ _ _ Hwf Hlinks Htrim Htrim Hroute).
  - by injection Hroute as <-.
Qed.

Lemma resolved_on_one_route_witness :
  exists rid,
    Forall (fun seg => seg ∈ segments (loaded [s1; s2; s3; s4; irr]) /\ seg_routeID seg = rid)
      ([s1] ++ [s4] ++ [s1; s2; s3; s4]).
Proof.
  apply (resolved_on_one_route noOverrides digitAtoi (loaded [s1; s2; s3; s4; irr])
           (testRequest "A St" "E St" 1) (mkRequestResult [s1] [s4] [s1; s2; s3; s4])
           loaded_chain_wf loaded_chain_links_wf).
  - intros when. reflexivity.
  - vm_compute. reflexivity.
Defined.

(** ** The requests file *)

Lemma append_nil_l (s : string) : ("" ++ s)%string = s.
Proof. reflexivity. Qed.

Lemma append_cons (c : ascii) (a b : string) :
  (String c a ++ b)%string = String c (a ++ b)%string.
Proof. reflexivity. Qed.

Lemma splitTabs_field (field : string) :
  hasTab field = false -> splitTabs field = [field].
Proof.
  induction field as [|c field IH]; [done|]. cbn [hasTab splitTabs].
  intros [Hc Hf]%orb_false_iff. by rewrite Hc, (IH Hf).
Qed.

Lemma splitTabs_app_tab (field rest : string) :
  hasTab field = false ->
  splitTabs (field ++ String "009"%char rest)%string = field :: splitTabs rest.
Proof.
  induction field as [|c field IH].
  - intros _. by rewrite append_nil_l.
  - cbn [hasTab]. intros [Hc Hf]%orb_false_iff.
    rewrite append_cons. cbn [splitTabs]. by rewrite Hc, (IH Hf).
Qed.

(** [strings.Split] undoes [strings.Join] on fields without tabs. *)
Lemma splitTabs_joinTabs (fields : list string) :
  fields ≠ [] -> Forall (fun field => hasTab field = false) fields ->
  splitTabs (joinTabs fields) = fields.
Proof.
  induction fields as [|field [|field' fields] IH]; [done|..]; intros _ Hall.
  - apply Forall_cons in Hall as [Hf _]. by apply splitTabs_field.
  - apply Forall_cons in Hall as [Hf Hall]. cbn [joinTabs].
    rewrite (splitTabs_app_tab _ _ Hf). f_equal. by apply IH.
Qed.

(** The request of a line of the requests file, by its tab-separated
    fields [rank, street, from, to, district, ...]. Five fields or
    more with a numeric rank give the request, where an empty limit,
    "all" as [from] and "end" as [to] (in any case) become the empty
    limit. A rank that is no number is an error as soon as there are
    four fields; fewer than four fields, or four with a numeric rank,
    end in an index out of range. *)
Theorem lineRequest_by_fields (Atoi : string -> option Z) (fields : list string) :
  fields ≠ [] ->
  Forall (fun field => hasTab field = false) fields ->
  match lineRequest Atoi (joinTabs fields) with
  | Ok r =>
      exists rankField limitFrom limitTo more,
        fields = rankField :: req_streetName r :: limitFrom :: limitTo
                   :: req_district r :: more
        /\ Atoi rankField = Some (req_rank r)
        /\ limitOf "all" limitFrom (req_from r)
        /\ limitOf "end" limitTo (req_to r)
  | Err e =>
      (4 <= length fields)%nat
      /\ exists rankField, head fields = Some rankField /\ Atoi rankField = None
                           /\ e = ErrAtoi rankField
  | Panic =>
      (length fields < 4)%nat
      \/ (length fields = 4%nat
          /\ exists rankField, head fields = Some rankField /\ is_Some (Atoi rankField))
  | OutOfFuel => False
  end.
Proof.
  intros Hne Hall. unfold lineRequest. rewrite (splitTabs_joinTabs fields Hne Hall).
  cbv zeta.
  assert (forall word cell,
            limitOf word cell
              (if negb (String.eqb cell "") && negb (String.eqb (toLower cell) word)
               then cell else "")) as Hlimit.
  { intros word cell. unfold limitOf, noLimit.
    destruct (String.eqb_spec cell "") as [->|Hc]; [left; auto|].
    destruct (String.eqb_spec (toLower cell) word) as [Hw|Hw]; [left; auto|].
    right. split; [|done]. by intros [?|?]. }
  destruct fields as [|f0 [|f1 [|f2 [|f3 [|f4 more]]]]]; cbn; try (left; lia).
  - destruct (Atoi f0) as [rank|] eqn:Hrank.
    + right. split; [done|]. exists f0. by rewrite Hrank.
    + split; [lia|]. by exists f0.
  - destruct (Atoi f0) as [rank|] eqn:Hrank.
    + exists f0, f2, f3, more. cbn. repeat split; [done|apply Hlimit..].
    + split; [lia|]. by exists f0.
Qed.

Lemma lineRequest_by_fields_witness :
  match lineRequest digitAtoi (joinTabs ["3"; "Main St"; "ALL"; "Elm St"; "D1"]) with
  | Ok r =>
      exists rankField limitFrom limitTo more,
        ["3"; "Main St"; "ALL"; "Elm St"; "D1"]
        = rankField :: req_streetName r :: limitFrom :: limitTo :: req_district r :: more
        /\ digitAtoi rankField = Some (req_rank r)
        /\ limitOf "all" limitFrom (req_from r)
        /\ limitOf "end" limitTo (req_to r)
  | Err e =>
      (4 <= length ["3"; "Main St"; "ALL"; "Elm St"; "D1"])%nat
      /\ exists rankField, head ["3"; "Main St"; "ALL"; "Elm St"; "D1"] = Some rankField
                           /\ digitAtoi rankField = None /\ e = ErrAtoi rankField
  | Panic =>
      (length ["3"; "Main St"; "ALL"; "Elm St"; "D1"] < 4)%nat
      \/ (length ["3"; "Main St"; "ALL"; "Elm St"; "D1"] = 4%nat
          /\ exists rankField, head ["3"; "Main St"; "ALL"; "Elm St"; "D1"] = Some rankField
                               /\ is_Some (digitAtoi rankField))
  | OutOfFuel => False
  end.
Proof.
  apply (lineRequest_by_fields digitAtoi ["3"; "Main St"; "ALL"; "Elm St"; "D1"]).
  - discriminate.
  - repeat constructor.
Defined.

Lemma lineRequest_not_OutOfFuel (Atoi : string -> option Z) (line : string) :
  lineRequest Atoi line ≠ OutOfFuel.
Proof.
  unfold lineRequest. cbv zeta.
  destruct (splitTabs line !! 2%nat); [|done]. destruct (splitTabs line !! 3%nat); [|done].
  destruct (splitTabs line !! 0%nat) as [rankField|]; [|done].
  destruct (Atoi rankField); [|done].
  by destruct (splitTabs line !! 1%nat), (splitTabs line !! 4%nat).
Qed.

Lemma lineRequests_spec (Atoi : string -> option Z) (lines : list string)
    (reqs0 : list request) :
  match lineRequests Atoi lines reqs0 with
  | Ok reqs =>
      exists reqs1, reqs = reqs0 ++ reqs1
                    /\ Forall2 (fun line r => lineRequest Atoi line = Ok r) lines reqs1
  | Err e => exists line, line ∈ lines /\ lineRequest Atoi line = Err e
  | Panic => exists line, line ∈ lines /\ lineRequest Atoi line = Panic
  | OutOfFuel => exists line, line ∈ lines /\ lineRequest Atoi line = OutOfFuel
  end.
Proof.
  revert reqs0. induction lines as [|line lines IH]; intros reqs0; cbn [lineRequests].
  - exists []. by rewrite app_nil_r.
  - destruct (lineRequest Atoi line) as [r|e| |] eqn:Hline;
      try (exists line; split; [apply elem_of_cons; by left|done]).
    specialize (IH (reqs0 ++ [r])).
    destruct (lineRequests Atoi lines (reqs0 ++ [r])) as [reqs|e| |].
    + destruct IH as (reqs1 & -> & Hall). exists (r :: reqs1).
      split; [by rewrite <- app_assoc|by constructor].
    + destruct IH as (l & Hl & He). exists l. split; [apply elem_of_cons; by right|done].
    + destruct IH as (l & Hl & He). exists l. split; [apply elem_of_cons; by right|done].
    + destruct IH as (l & Hl & He). exists l. split; [apply elem_of_cons; by right|done].
Qed.

(** Loading the requests file is all or nothing. When it succeeds the
    table [requests] gains one row for each line after the header, in
    the order of the file, and the scanner has reported no error; when
    it fails, for a line that cannot be read or for the scanner, the
    table is as before. *)
Theorem loadTSVRequests_all_or_nothing (Atoi : string -> option Z) (tbl : list requestRow)
    (lines : list string) (scanFailed : bool) :
  match (loadTSVRequests Atoi tbl lines scanFailed).2 with
  | Ok _ =>
      scanFailed = false
      /\ exists reqs,
           Forall2 (fun line r => lineRequest Atoi line = Ok r) (tail lines) reqs
           /\ (loadTSVRequests Atoi tbl lines scanFailed).1 = tbl ++ (requestInsert <$> reqs)
  | Err e =>
      (loadTSVRequests Atoi tbl lines scanFailed).1 = tbl
      /\ ((e = ErrScan /\ scanFailed = true)
          \/ exists line, line ∈ tail lines /\ lineRequest Atoi line = Err e)
  | Panic =>
      (loadTSVRequests Atoi tbl lines scanFailed).1 = tbl
      /\ exists line, line ∈ tail lines /\ lineRequest Atoi line = Panic
  | OutOfFuel => False
  end.
Proof.
  unfold loadTSVRequests.
  pose proof (lineRequests_spec Atoi (tail lines) []) as Hspec.
  destruct (lineRequests Atoi (tail lines) []) as [reqs|e| |]; cbn.
  - destruct Hspec as (reqs1 & -> & Hall). destruct scanFailed; cbn.
    + split; [done|]. by left.
    + split; [done|]. by exists reqs1.
  - split; [done|]. by right.
  - by split.
  - destruct Hspec as (line & _ & Hline). by apply lineRequest_not_OutOfFuel in Hline.
Qed.

(** ** The table of requests *)

Lemma requestScan_insert (r : request) : requestScan (requestInsert r) = r.
Proof.
  destruct r as [name from to district rank]. unfold requestScan, requestInsert, nullString.
  cbn. f_equal.
  - by destruct (String.eqb_spec from "") as [->|?].
  - by destruct (String.eqb_spec to "") as [->|?].
Qed.

(** Requests written by [loadRequests] are read back by [requests]
    as they were: the empty limits, stored as [NULL], come back
    empty. Whatever order the database gives to the rows, the
    requests read after a load are those read before it and the
    requests loaded. *)
Theorem requests_round_trip (orderByRank : list requestRow -> list requestRow)
    (tbl : list requestRow) (reqs : list request) :
  (forall rows, orderByRank rows ≡ₚ rows) ->
  requests orderByRank (loadRequests tbl reqs) ≡ₚ requests orderByRank tbl ++ reqs.
Proof.
  intros Hperm. unfold requests, loadRequests. rewrite !Hperm, fmap_app.
  apply Permutation_app_head. rewrite <- list_fmap_compose.
  assert (requestScan ∘ requestInsert <$> reqs = reqs) as ->; [|done].
  induction reqs as [|r reqs IH]; [done|]. cbn [fmap list_fmap].
  f_equal; [apply requestScan_insert|exact IH].
Qed.

Lemma requests_round_trip_witness :
  requests (fun rows => rows)
    (loadRequests [] [testRequest "" "" 1; testRequest "A St" "" 2])
  ≡ₚ requests (fun rows => rows) [] ++ [testRequest "" "" 1; testRequest "A St" "" 2].
Proof.
  apply (requests_round_trip (fun rows => rows) []
           [testRequest "" "" 1; testRequest "A St" "" 2]).
  intros rows. reflexivity.
Defined.

(** ** The centrelines file *)

Lemma placemarkData_fold (sds : list (string * string)) (out : gmap string string)
    (key : string) :
  fold_left (fun out sd => <[sd.1 := sd.2]> out) sds out !! key
  = match last (List.filter (fun sd => String.eqb sd.1 key) sds) with
    | Some sd => Some sd.2
    | None => out !! key
    end.
Proof.
  induction sds as [|sd sds IH] using rev_ind; [done|].
  rewrite fold_left_app, List.filter_app. cbn [fold_left List.filter].
  destruct (String.eqb_spec sd.1 key) as [<-|Hne].
  - by rewrite last_snoc, lookup_insert_eq.
  - by rewrite app_nil_r, lookup_insert_ne.
Qed.

(** The map of a placemark's data holds, for a name, the content of
    the last [SimpleData] element with that name, and nothing for a
    name that no element has. *)
Theorem placemarkData_last_wins (p : placemark) (key : string) :
  placemarkData p !! key
  = snd <$> last (List.filter (fun sd => String.eqb sd.1 key) (SimpleData p)).
Proof.
  unfold placemarkData. rewrite placemarkData_fold.
  by destruct (last _) as [sd|].
Qed.

Lemma scanPoints_spec (Sscanf : string -> option Point) (fields : list string)
    (ls0 : list Point) :
  match scanPoints Sscanf fields ls0 with
  | Ok ls =>
      exists ls1, ls = ls0 ++ ls1
                  /\ Forall2 (fun field pt => Sscanf field = Some pt) fields ls1
  | Err e => e = ErrScan /\ exists field, field ∈ fields /\ Sscanf field = None
  | Panic | OutOfFuel => False
  end.
Proof.
  revert ls0. induction fields as [|field fields IH]; intros ls0; cbn [scanPoints].
  - exists []. by rewrite app_nil_r.
  - destruct (Sscanf field) as [pt|] eqn:Hfield.
    + specialize (IH (ls0 ++ [pt])).
      destruct (scanPoints Sscanf fields (ls0 ++ [pt])) as [ls|e| |]; try done.
      * destruct IH as (ls1 & -> & Hall). exists (pt :: ls1).
        split; [by rewrite <- app_assoc|by constructor].
      * destruct IH as (-> & f & Hf & Hnone). split; [done|]. exists f.
        split; [apply elem_of_cons; by right|done].
    + split; [done|]. exists field. split; [apply elem_of_cons; by left|done].
Qed.

Lemma placemarkSegment_spec (Fields : string -> list string)
    (Sscanf : string -> option Point) (Atoi : string -> option Z) (p : placemark) :
  let field := fun key => default "" (placemarkData p !! key) in
  match placemarkSegment Fields Sscanf Atoi p with
  | Ok seg =>
      Forall2 (fun f pt => Sscanf f = Some pt) (Fields (LineString p)) (seg_lineString seg)
      /\ seg_lineString seg ≠ []
      /\ endpoints_ok seg
      /\ Atoi (field "FDMID") = Some (seg_id seg)
      /\ Atoi (field "ROUTE_ID") = Some (seg_routeID seg)
  | Err e =>
      (e = ErrScan /\ exists f, f ∈ Fields (LineString p) /\ Sscanf f = None)
      \/ (e = ErrAtoi (field "FDMID") /\ Atoi (field "FDMID") = None)
      \/ (e = ErrAtoi (field "ROUTE_ID") /\ Atoi (field "ROUTE_ID") = None)
  | Panic =>
      Fields (LineString p) = []
      /\ is_Some (Atoi (field "FDMID")) /\ is_Some (Atoi (field "ROUTE_ID"))
  | OutOfFuel => False
  end.
Proof.
  intros field. subst field. unfold placemarkSegment. cbv beta zeta.
  pose proof (scanPoints_spec Sscanf (Fields (LineString p)) []) as Hscan.
  destruct (scanPoints Sscanf (Fields (LineString p)) []) as [ls|e| |]; try done.
  - destruct Hscan as (ls1 & -> & Hall). rewrite app_nil_l.
    destruct (Atoi (default "" (placemarkData p !! "FDMID"))) as [id|] eqn:Hid;
      [|right; left; by split].
    destruct (Atoi (default "" (placemarkData p !! "ROUTE_ID"))) as [rid|] eqn:Hrid;
      [|right; right; by split].
    destruct ls1 as [|pt ls1]; cbn [head].
    + apply Forall2_nil_inv_r in Hall. by repeat split.
    + destruct (last (pt :: ls1)) as [lp|] eqn:Hlast.
      * cbn. by repeat split.
      * by apply last_None in Hlast.
  - left. by destruct Hscan as [-> ?].
Qed.

(** The segment of a placemark. It has one point for each field of the
    coordinates, in their order, and its first and last point are the
    ends of that line. A coordinate, id or route id that cannot be
    read is an error; a placemark without coordinates whose ids can
    be read ends in an index out of range. *)
Theorem placemarkSegment_outcomes (Fields : string -> list string)
    (Sscanf : string -> option Point) (Atoi : string -> option Z) (p : placemark) :
  let field := fun key => default "" (placemarkData p !! key) in
  match placemarkSegment Fields Sscanf Atoi p with
  | Ok seg =>
      Forall2 (fun f pt => Sscanf f = Some pt) (Fields (LineString p)) (seg_lineString seg)
      /\ seg_lineString seg ≠ []
      /\ endpoints_ok seg
      /\ Atoi (field "FDMID") = Some (seg_id seg)
      /\ Atoi (field "ROUTE_ID") = Some (seg_routeID seg)
  | Err e =>
      (e = ErrScan /\ exists f, f ∈ Fields (LineString p) /\ Sscanf f = None)
      \/ (e = ErrAtoi (field "FDMID") /\ Atoi (field "FDMID") = None)
      \/ (e = ErrAtoi (field "ROUTE_ID") /\ Atoi (field "ROUTE_ID") = None)
  | Panic =>
      Fields (LineString p) = []
      /\ is_Some (Atoi (field "FDMID")) /\ is_Some (Atoi (field "ROUTE_ID"))
  | OutOfFuel => False
  end.
Proof. apply placemarkSegment_spec. Qed.

Lemma placemarkSegments_spec (Fields : string -> list string)
    (Sscanf : string -> option Point) (Atoi : string -> option Z)
    (ps : list placemark) (segs0 segs : list segment) :
  placemarkSegments Fields Sscanf Atoi ps segs0 = Ok segs ->
  exists segs1, segs = segs0 ++ segs1
                /\ Forall2 (fun p seg => placemarkSegment Fields Sscanf Atoi p = Ok seg) ps segs1.
Proof.
  revert segs0. induction ps as [|p ps IH]; intros segs0; cbn [placemarkSegments].
  - intros [= <-]. exists []. by rewrite app_nil_r.
  - destruct (placemarkSegment Fields Sscanf Atoi p) as [seg|e| |] eqn:Hp; try done.
    intros (segs1 & -> & Hall)%IH. exists (seg :: segs1).
    split; [by rewrite <- app_assoc|by constructor].
Qed.

Lemma loadSegments_segments (Distance : Point -> Point -> float)
    (rangeOrder : list (Z * list segment) -> list (Z * list segment))
    (st : store) (segs : list segment) :
  segments (loadSegments Distance rangeOrder st segs).1 = segments st
  \/ tableWith (segments st) segs (segments (loadSegments Distance rangeOrder st segs).1).
Proof.
  unfold loadSegments.
  pose proof (insertSegments_spec segs ∅ (segments st)) as Hseg.
  destruct (insertSegments segs ∅ (segments st)) as [[routeSegments tbl]|e| |];
    try (by left). right. cbn [segments segment_links segment_links_id].
  destruct (insertLinks _ _ _) as [rows|e| |]; try done.
  by destruct (segment_links_id st).
Qed.

(** Segments that come from the centrelines file have their endpoints
    at the ends of their line: when the first and last point of every
    stored segment are the first and last point of its line, the same
    holds after a load of the file, however it ends. *)
Theorem loadKMLSegments_endpoints (Fields : string -> list string)
    (Sscanf : string -> option Point) (Atoi : string -> option Z)
    (Distance : Point -> Point -> float)
    (rangeOrder : list (Z * list segment) -> list (Z * list segment))
    (st : store) (ps : list placemark) :
  Forall endpoints_ok (segments st) ->
  Forall endpoints_ok
    (segments (loadKMLSegments Fields Sscanf Atoi Distance rangeOrder st ps).1).
Proof.
  intros Hst. unfold loadKMLSegments.
  destruct (placemarkSegments Fields Sscanf Atoi ps []) as [segs|e| |] eqn:Hps; try done.
  apply placemarkSegments_spec in Hps as (segs1 & -> & Hall). rewrite app_nil_l.
  destruct (loadSegments_segments Distance rangeOrder st segs1) as [->|[Hp _]]; [done|].
  apply (Permutation_Forall (Permutation_sym Hp)).
  apply Forall_app. split; [done|].
  clear Hst Hp. induction Hall as [|p seg ps' segs' Hp _ IH]; constructor; [|done].
  pose proof (placemarkSegment_spec Fields Sscanf Atoi p) as Hspec. cbv zeta in Hspec.
  rewrite Hp in Hspec. by destruct Hspec as (_ & _ & ? & _).
Qed.

Lemma loadKMLSegments_endpoints_witness :
  Forall endpoints_ok
    (segments
       (loadKMLSegments (fun s => [s]) (fun _ => Some (0%float, 1%float)) digitAtoi
          planarDistance inOrder emptyStore
          [mkPlacemark [("FDMID", "1"); ("ROUTE_ID", "7")] "0,1"]).1).
Proof.
  apply (loadKMLSegments_endpoints (fun s => [s]) (fun _ => Some (0%float, 1%float))
           digitAtoi planarDistance inOrder emptyStore
           [mkPlacemark [("FDMID", "1"); ("ROUTE_ID", "7")] "0,1"]).
  change (segments emptyStore) with (@nil segment). constructor.
Defined.

(** ** Export *)

Lemma colorGroup_spec (rank : Z) (nreqs : nat) :
  match colorGroup rank nreqs with
  | Ok group =>
      (20 <= nreqs)%nat /\ group <= 19 /\ (0 <= rank -> 0 <= group)
      /\ forall rank', rank <= rank' ->
           exists group', colorGroup rank' nreqs = Ok group' /\ group <= group'
  | Panic => (nreqs < 20)%nat
  | Err _ | OutOfFuel => False
  end.
Proof.
  unfold colorGroup, colorCount. cbv zeta.
  destruct (Z.eqb_spec (Z.of_nat nreqs ÷ 20) 0) as [Hz|Hnz].
  - apply Z.quot_small_iff in Hz; lia.
  - assert (20 <= Z.of_nat nreqs) as Hn.
    { destruct (Z.lt_ge_cases (Z.of_nat nreqs) 20) as [Hlt|]; [|done].
      destruct Hnz. apply Z.quot_small. lia. }
    assert (0 < Z.of_nat nreqs ÷ 20) as Hpos.
    { pose proof (Z.quot_pos (Z.of_nat nreqs) 20). lia. }
    split; [lia|]. split; [destruct (Z.leb_spec 20 (rank ÷ (Z.of_nat nreqs ÷ 20))); lia|].
    split.
    + intros Hr. pose proof (Z.quot_pos rank (Z.of_nat nreqs ÷ 20) Hr Hpos).
      destruct (Z.leb_spec 20 (rank ÷ (Z.of_nat nreqs ÷ 20))); lia.
    + intros rank' Hle. eexists. split; [reflexivity|].
      pose proof (Z.quot_le_mono rank rank' (Z.of_nat nreqs ÷ 20) Hpos Hle).
      destruct (Z.leb_spec 20 (rank ÷ (Z.of_nat nreqs ÷ 20))),
               (Z.leb_spec 20 (rank' ÷ (Z.of_nat nreqs ÷ 20))); lia.
Qed.

(** The colour group of a rank among [nreqs] requests. With fewer
    than twenty requests the division is by zero and panics. With
    twenty or more the group is at most 19, is not negative for a
    rank that is not negative, and does not decrease when the rank
    grows. *)
Theorem colorGroup_range (rank : Z) (nreqs : nat) :
  match colorGroup rank nreqs with
  | Ok group =>
      (20 <= nreqs)%nat /\ group <= 19 /\ (0 <= rank -> 0 <= group)
      /\ forall rank', rank <= rank' ->
           exists group', colorGroup rank' nreqs = Ok group' /\ group <= group'
  | Panic => (nreqs < 20)%nat
  | Err _ | OutOfFuel => False
  end.
Proof. apply colorGroup_spec. Qed.

(** *** The pipeline always comes to an end *)

Lemma route_not_OutOfFuel (st : store) (froms tos : list segment) :
  route st froms tos ≠ OutOfFuel.
Proof.
  destruct froms as [|from0 froms]; [by destruct tos|].
  destruct tos as [|to0 tos]; [done|].
  pose proof (route_spec st from0 froms to0 tos) as Hspec. cbv zeta in Hspec.
  intros Heq. by rewrite Heq in Hspec.
Qed.

Lemma longestRoute_not_OutOfFuel (st : store) (route1 ends path : list segment) :
  longestRoute st route1 ends path ≠ OutOfFuel.
Proof.
  revert path. induction ends as [|e ends IH]; intros path; cbn [longestRoute]; [done|].
  destruct route1 as [|route0 rest]; [done|].
  pose proof (route_not_OutOfFuel st [route0] [e]) as Hroute.
  destruct (route st [route0] [e]); first [done|apply IH].
Qed.

Lemma routeDiscovery_not_OutOfFuel (st : store) (preq : processingRequest) :
  routeDiscovery st preq ≠ OutOfFuel.
Proof.
  unfold routeDiscovery. cbv zeta.
  destruct (String.eqb (req_from (req preq)) "" && String.eqb (req_to (req preq)) "").
  - by destruct (startSegments preq).
  - pose proof (route_not_OutOfFuel st (startSegments preq) (endSegments preq)) as Hroute.
    destruct (route st (startSegments preq) (endSegments preq)); try done.
    destruct (_ || _); [apply longestRoute_not_OutOfFuel|done].
Qed.

Lemma overrideDiscovery_not_OutOfFuel (overrides : Z -> string -> overrideFile)
    (Atoi : string -> option Z) (when : string) (st : store) (next : stage)
    (preq : processingRequest) :
  next preq ≠ OutOfFuel -> overrideDiscovery overrides Atoi when st next preq ≠ OutOfFuel.
Proof.
  intros Hnext. unfold overrideDiscovery.
  destruct (overrides _ _) as [| |lines scanFailed]; [done..|].
  pose proof (scanIDs_spec Atoi lines []) as Hscan.
  destruct (scanIDs Atoi lines []); try done. by destruct scanFailed.
Qed.

Lemma handle_OutOfFuel (s : requestHandler) :
  handle s = OutOfFuel ->
  exists preq,
    startHandler s preq = OutOfFuel \/ endHandler s preq = OutOfFuel
    \/ routeHandler s preq = OutOfFuel.
Proof.
  unfold handle, handleAttempt. cbn [req].
  repeat match goal with
         | |- context [callStage ?x _] => destruct x eqn:?; cbn [callStage]
         | |- context [if ?b then _ else _] => destruct b
         end;
    cbn; intros H; try discriminate H; eexists; eauto.
Qed.

Lemma handle_not_OutOfFuel (overrides : Z -> string -> overrideFile)
    (Atoi : string -> option Z) (st : store) (r : request) :
  handle (newDefaultRequestHandler overrides Atoi st r) ≠ OutOfFuel.
Proof.
  intros (preq & [H|[H|H]])%handle_OutOfFuel; revert H;
    cbn [newDefaultRequestHandler startHandler endHandler routeHandler];
    apply overrideDiscovery_not_OutOfFuel.
  - unfold startDiscovery. cbv zeta. by destruct (_ <? _)%nat.
  - unfold endDiscovery. by destruct (startSegments preq).
  - apply routeDiscovery_not_OutOfFuel.
Qed.

(** *** The placemarks of the export *)

Lemma exportLoop_spec (overrides : Z -> string -> overrideFile) (Atoi : string -> option Z)
    (st : store) (nreqs : nat) (todo : list request) (placemarks : list kmlPlacemark) :
  match exportLoop overrides Atoi st nreqs todo placemarks with
  | Ok pms =>
      exists new,
        pms = placemarks ++ new
        /\ Forall2
             (fun r pm =>
                exists res group,
                  resolves overrides Atoi st r = Some res
                  /\ colorGroup (req_rank r) nreqs = Ok group
                  /\ pm = mkKmlPlacemark (requestString r)
                            ("#line-group-" ++ Itoa group)%string
                            (seg_lineString <$> res_routeSegments res))
             (List.filter (resolved overrides Atoi st) todo) new
  | Panic =>
      exists r,
        r ∈ todo
        /\ (handle (newDefaultRequestHandler overrides Atoi st r) = Panic
            \/ (resolved overrides Atoi st r = true /\ (nreqs < 20)%nat))
  | Err _ | OutOfFuel => False
  end.
Proof.
  revert placemarks. induction todo as [|r todo IH]; intros placemarks.
  - exists []. by rewrite app_nil_r.
  - cbn [exportLoop List.filter].
    pose proof (handle_not_OutOfFuel overrides Atoi st r) as Hfuel.
    destruct (handle (newDefaultRequestHandler overrides Atoi st r)) as [res|e| |] eqn:Hh;
      [| | |done].
    + assert (resolved overrides Atoi st r = true) as Hres
        by (unfold resolved, resolves; by rewrite Hh).
      rewrite Hres. pose proof (colorGroup_spec (req_rank r) nreqs) as Hcol.
      destruct (colorGroup (req_rank r) nreqs) as [group| | |] eqn:Hc; [| |..]; try done.
      * specialize (IH (placemarks
                        ++ [mkKmlPlacemark (requestString r)
                              ("#line-group-" ++ Itoa group)%string
                              (seg_lineString <$> res_routeSegments res)])).
        destruct (exportLoop overrides Atoi st nreqs todo _) as [pms|e| |]; try done.
        -- destruct IH as (new & -> & Hall). eexists (_ :: new).
           split; [by rewrite <- app_assoc|]. constructor; [|done].
           exists res, group. unfold resolves. by rewrite Hh.
        -- destruct IH as (r' & Hr' & H'). exists r'. split; [apply elem_of_cons; by right|done].
      * exists r. split; [apply elem_of_cons; by left|]. right. by split.
    + assert (resolved overrides Atoi st r = false) as ->
        by (unfold resolved, resolves; by rewrite Hh).
      specialize (IH placemarks).
      destruct (exportLoop overrides Atoi st nreqs todo placemarks) as [pms|e'| |]; try done.
      destruct IH as (r' & Hr' & H'). exists r'. split; [apply elem_of_cons; by right|done].
    + exists r. split; [apply elem_of_cons; by left|by left].
Qed.

(** What [export] writes. It never returns an error of a request: a
    request that fails is skipped. When it comes to its end, the folder
    holds one placemark for each request that resolves, in the order
    of the requests, named after the request, styled by the colour
    group of its rank and drawn along the lines of its route. It
    panics when the pipeline of a request panics, and when a request
    resolves while there are fewer than twenty requests. *)
Theorem export_outcomes (overrides : Z -> string -> overrideFile) (Atoi : string -> option Z)
    (orderByRank : list requestRow -> list requestRow) (st : store) (tbl : list requestRow) :
  let reqs := requests orderByRank tbl in
  match export overrides Atoi orderByRank st tbl with
  | Ok pms =>
      Forall2
        (fun r pm =>
           exists res group,
             resolves overrides Atoi st r = Some res
             /\ colorGroup (req_rank r) (length reqs) = Ok group
             /\ pm = mkKmlPlacemark (requestString r)
                       ("#line-group-" ++ Itoa group)%string
                       (seg_lineString <$> res_routeSegments res))
        (List.filter (resolved overrides Atoi st) reqs) pms
  | Panic =>
      exists r,
        r ∈ reqs
        /\ (handle (newDefaultRequestHandler overrides Atoi st r) = Panic
            \/ (resolved overrides Atoi st r = true /\ (length reqs < 20)%nat))
  | Err _ | OutOfFuel => False
  end.
Proof.
  intros reqs. unfold export. cbv zeta. fold reqs.
  pose proof (exportLoop_spec overrides Atoi st (length reqs) reqs []) as Hspec.
  destruct (exportLoop overrides Atoi st (length reqs) reqs []) as [pms|e| |]; try done.
  by destruct Hspec as (new & -> & Hall).
Qed.

Lemma exportLoop_below_twenty (overrides : Z -> string -> overrideFile)
    (Atoi : string -> option Z) (st : store) (nreqs : nat) (todo : list request)
    (placemarks : list kmlPlacemark) :
  (nreqs < 20)%nat ->
  exportLoop overrides Atoi st nreqs todo placemarks
  = if forallb (fails overrides Atoi st) todo then Ok placemarks else Panic.
Proof.
  intros Hn. induction todo as [|r todo IH]; [done|]. cbn [exportLoop forallb].
  unfold fails at 1.
  pose proof (handle_not_OutOfFuel overrides Atoi st r) as Hfuel.
  destruct (handle (newDefaultRequestHandler overrides Atoi st r)) as [res|e| |];
    [|exact IH|done..].
  pose proof (colorGroup_spec (req_rank r) nreqs) as Hcol.
  destruct (colorGroup (req_rank r) nreqs); [lia|done..].
Qed.

(** With fewer than twenty requests in the table, [export] divides by
    zero at the first request that resolves: it comes to its end,
    with an empty folder, only when every request fails, and panics
    otherwise. *)
Theorem export_below_twenty (overrides : Z -> string -> overrideFile)
    (Atoi : string -> option Z) (orderByRank : list requestRow -> list requestRow)
    (st : store) (tbl : list requestRow) :
  (length (requests orderByRank tbl) < 20)%nat ->
  export overrides Atoi orderByRank st tbl
  = if forallb (fails overrides Atoi st) (requests orderByRank tbl) then Ok [] else Panic.
Proof. intros Hn. unfold export. cbv zeta. by apply exportLoop_below_twenty. Qed.

Lemma export_below_twenty_witness :
  export noOverrides digitAtoi (fun rows => rows) (loaded [s1; s2])
    [requestInsert (testRequest "" "" 1)]
  = Panic.
Proof.
  rewrite (export_below_twenty noOverrides digitAtoi (fun rows => rows) (loaded [s1; s2])
             [requestInsert (testRequest "" "" 1)]).
  - vm_compute. reflexivity.
  - vm_compute. lia.
Defined.

(** ** The order of the table *)

Lemma filter_tableOrder (f : segment -> bool) (tbl : list segment) :
  tableOrder tbl -> tableOrder (List.filter f tbl).
Proof.
  unfold tableOrder. induction tbl as [|row tbl IH]; cbn [List.filter]; [done|].
  intros [Hs Hrow]%StronglySorted_inv. destruct (f row); [|by apply IH].
  constructor; [by apply IH|]. rewrite Forall_forall in Hrow. apply Forall_forall.
  intros x Hx. apply Hrow. apply list_elem_of_In in Hx. apply filter_In in Hx as [Hx _].
  by apply list_elem_of_In.
Qed.

(** A load keeps the table [segments] in the order of its primary
    key, whatever the order of the batch and however the load ends;
    every lookup in the store then returns its segments in ascending
    order of their ids. *)
Theorem loadSegments_table_order (Distance : Point -> Point -> float)
    (rangeOrder : list (Z * list segment) -> list (Z * list segment))
    (st : store) (segs : list segment) :
  tableOrder (segments st) ->
  tableOrder (segments (loadSegments Distance rangeOrder st segs).1)
  /\ forall filter,
       tableOrder (filterSegments (loadSegments Distance rangeOrder st segs).1 filter).
Proof.
  intros Hs.
  assert (tableOrder (segments (loadSegments Distance rangeOrder st segs).1)) as Hs'.
  { destruct (loadSegments_segments Distance rangeOrder st segs) as [->|[_ Hsorted]];
      [done|by apply Hsorted]. }
  split; [done|]. intros filter. by apply filter_tableOrder.
Qed.

Lemma loadSegments_table_order_witness :
  tableOrder (segments (loadSegments planarDistance inOrder emptyStore [s4; s2; irr; s1]).1)
  /\ forall filter,
       tableOrder
         (filterSegments (loadSegments planarDistance inOrder emptyStore [s4; s2; irr; s1]).1
            filter).
Proof.
  apply (loadSegments_table_order planarDistance inOrder emptyStore [s4; s2; irr; s1]).
  constructor.
Defined.
